(** * OpenMemory FastMCP server: the four memory tools over the ledger

    A shallow embedding of [server_standalone.py].  The handlers
    [add_memories], [search_memory], [list_memories] and
    [delete_all_memories] are written in a small state-and-exception monad
    over a [World]: the rows the open database session sees, the rows last
    committed, the calls made to the outside (session factory, identity
    resolver, memory engine, vector store), the log records and the clock.

    The memory engine, the vector store, the identity resolver and the
    access predicate are collaborators of the handlers: they come in as
    parameters, and every theorem holds for all of them.

    What the model takes for granted, the modules [models], [memory_utils]
    and [config] not being among the sources:
    - the engine's responses have the shape the handlers index into (a
      result has ['id'], ['event'] and ['memory'], a point has an id, a
      payload dict and a score), and the ids in them are strings;
    - a session sees the rows added to it (SQLAlchemy's autoflush), and
      flushing and committing do not fail;
    - an attribute write on a row object changes the row [first()] returned,
      the first of the table with that id. *)

From Stdlib Require Import Ascii String List NArith Bool Floats Lia.
Import ListNotations.
Open Scope string_scope.

(** ** Values *)

(** [uuid.UUID]: compared and hashed by its 128-bit integer. *)
Definition UUID := N.

(** [datetime.datetime]: an instant, in microseconds since the epoch. *)
Definition Timestamp := N.

(** An exception with the text [str(e)] gives. *)
Inductive Exception := Raise (message : string).

Definition str (e : Exception) : string :=
  match e with Raise message => message end.

(** The values that end up in an access-log [metadata_] dict. *)
Inductive Value :=
| VNone
| VStr (s : string)
| VFloat (x : float).

Definition value_of_option (o : option string) : Value :=
  match o with Some s => VStr s | None => VNone end.

(** A dict with string keys, as an association list; the first binding of a
    key is the one a lookup sees. *)
Fixpoint dict_get {A : Type} (key : string) (d : list (string * A)) : option A :=
  match d with
  | [] => None
  | (k, v) :: rest => if String.eqb k key then Some v else dict_get key rest
  end.

(** ** The ledger *)

(** Modelled from the spec: [models.MemoryState] is not among the sources;
    section 3 gives a Memory the lifecycle states active and deleted, the two
    the handlers write. *)
Inductive MemoryState := active | deleted.

(** Modelled from the spec: the [models.User] row (section 3: stable external
    identifier, display name, contact email); the handlers read [id]. *)
Module User.
Record t := mk { id : UUID; user_id : string; name : string; email : string }.
End User.

(** Modelled from the spec: the [models.App] row (section 3: a named client
    of one owning User with an active/paused flag). *)
Module App.
Record t := mk { id : UUID; owner_id : UUID; name : string; is_active : bool }.
End App.

(** Modelled from the spec: the [models.Memory] row, with the columns the
    handlers set: [Memory(id=, user_id=, app_id=, content=, state=)] and
    [deleted_at], which a new row leaves unset. *)
Module Memory.
Record t := mk {
  id : UUID;
  user_id : UUID;
  app_id : UUID;
  content : string;
  state : MemoryState;
  deleted_at : option Timestamp }.

Definition set_state (s : MemoryState) (m : t) : t :=
  mk (id m) (user_id m) (app_id m) (content m) s (deleted_at m).
Definition set_content (c : string) (m : t) : t :=
  mk (id m) (user_id m) (app_id m) c (state m) (deleted_at m).
Definition set_deleted_at (d : Timestamp) (m : t) : t :=
  mk (id m) (user_id m) (app_id m) (content m) (state m) (Some d).
End Memory.

(** Modelled from the spec: the [models.MemoryStatusHistory] row, with the
    columns the handlers set. *)
Module MemoryStatusHistory.
Record t := mk {
  memory_id : UUID;
  changed_by : UUID;
  old_state : option MemoryState;
  new_state : MemoryState }.
End MemoryStatusHistory.

(** Modelled from the spec: the [models.MemoryAccessLog] row, with the
    columns the handlers set. *)
Module MemoryAccessLog.
Record t := mk {
  memory_id : UUID;
  app_id : UUID;
  access_type : string;
  metadata_ : list (string * Value) }.
End MemoryAccessLog.

(** The five tables, each in insertion order. *)
Record DB := mkDB {
  users : list User.t;
  apps : list App.t;
  memories : list Memory.t;
  history : list MemoryStatusHistory.t;
  access_logs : list MemoryAccessLog.t }.

(** ** The memory engine and the vector store *)

(** One entry of [response['results']] of [memory_client.add]:
    [result['id']], [result['event']], [result['memory']]. *)
Module AddResult.
Record t := mk { id : string; event : string; memory : string }.
End AddResult.

(** What [memory_client.add] returns: a dict that has a ['results'] key, or
    anything else (kept as [raw]; the handler only hands it to
    [json.dumps]). *)
Inductive AddResponse :=
| WithResults (results : list AddResult.t)
| OtherResponse (raw : string).

(** One memory dict of [memory_client.get_all]: [memory['id']] and
    [memory.get('hash')]; [memory] stands for the rest of the dict. *)
Module EngineMemory.
Record t := mk { id : string; hash : option string; memory : string }.
End EngineMemory.

(** What [memory_client.get_all] returns: a dict with a ['results'] key, a
    list, or anything else. *)
Inductive GetAllResponse :=
| DictResults (results : list EngineMemory.t)
| PlainList (l : list EngineMemory.t)
| OtherShape.

(** [qdrant_models.FieldCondition(key=, match=MatchValue(value=))] and
    [qdrant_models.HasIdCondition(has_id=)]. *)
Inductive Condition :=
| FieldCondition (key : string) (value : string)
| HasIdCondition (has_id : list string).

(** [qdrant_models.Filter(must=)]. *)
Record Filter := mkFilter { must : list Condition }.

Definition Embedding := list float.

(** A point of [hits.points]: [memory.id], [memory.payload], [memory.score]. *)
Module ScoredPoint.
Record t := mk { id : string; payload : list (string * string); score : float }.
End ScoredPoint.

(** The dict [search_memory] builds for each point. *)
Module SearchHit.
Record t := mk {
  id : string;
  memory : string;
  hash : option string;
  created_at : option string;
  updated_at : option string;
  score : float }.
End SearchHit.

(** The memory client.  Every method may raise ([inl]).  [delete] is called
    once per id in a loop: its answer may depend on the ids whose deletion
    was requested before it in the same call. *)
Record MemoryClient := mkClient {
  add : string -> string -> list (string * string) -> Exception + AddResponse;
  get_all : string -> Exception + GetAllResponse;
  delete : list UUID -> UUID -> Exception + unit;
  embed : string -> string -> Exception + Embedding;
  collection_name : string;
  query_points :
    string -> Embedding -> Filter -> nat -> Exception + list ScoredPoint.t }.

(** ** The world a handler runs in *)

(** The calls a handler makes to the outside, in order. *)
Inductive Call :=
| SessionLocal
| db_commit
| db_close
| resolve_user_and_app (user_id app_id : string)
| client_add (text user_id : string) (metadata : list (string * string))
| client_get_all (user_id : string)
| client_delete (memory_id : UUID)
| embedding_embed (query action : string)
| client_query_points
    (collection : string) (query : Embedding) (query_filter : Filter) (limit : nat).

Inductive Level := WARNING | ERROR.

Record LogRecord := mkLog { level : Level; text : string }.

Record World := mkWorld {
  stored : DB;              (* the rows as last committed *)
  session : DB;             (* the rows as the open session sees them *)
  calls : list Call;
  logged : list LogRecord;
  ticks : nat               (* readings of the clock so far *) }.

(** What the handler hands to [json.dumps]. *)
Inductive Reply :=
| ReplyError (error : string)            (* {"error": error} *)
| ReplyMessage (message : string)        (* {"message": message} *)
| ReplyAdd (response : AddResponse)
| ReplySearch (memories : list SearchHit.t)
| ReplyList (filtered_memories : list EngineMemory.t).

(** ** The monad: state that survives an exception *)

Definition M (A : Type) : Type := World -> (Exception + A) * World.

Definition ret {A : Type} (a : A) : M A := fun w => (inr a, w).

Definition bind {A B : Type} (m : M A) (k : A -> M B) : M B :=
  fun w =>
    match m w with
    | (inl e, w') => (inl e, w')
    | (inr a, w') => k a w'
    end.

Definition raise {A : Type} (e : Exception) : M A := fun w => (inl e, w).

Declare Scope handler_scope.
Delimit Scope handler_scope with handler.
Notation "x <- m ;; k" := (bind m (fun x => k))
  (at level 100, m at next level, right associativity) : handler_scope.
Notation "m ;; k" := (bind m (fun _ => k))
  (at level 100, right associativity) : handler_scope.
Notation "' pat <- m ;; k" := (bind m (fun x => let 'pat := x in k))
  (at level 100, pat pattern, m at next level, right associativity) : handler_scope.
Open Scope handler_scope.

(** [try: m except Exception as e: h e]. *)
Definition try_except {A : Type} (m : M A) (h : Exception -> M A) : M A :=
  fun w =>
    match m w with
    | (inl e, w') => h e w'
    | (inr a, w') => (inr a, w')
    end.

(** [try: m finally: f]. *)
Definition try_finally {A : Type} (m : M A) (f : M unit) : M A :=
  fun w =>
    match m w with
    | (r, w') =>
        match f w' with
        | (inl e, w'') => (inl e, w'')
        | (inr _, w'') => (r, w'')
        end
    end.

(** [for x in l: body x]. *)
Fixpoint for_each {A : Type} (l : list A) (body : A -> M unit) : M unit :=
  match l with
  | [] => ret tt
  | x :: rest => (body x ;; for_each rest body)
  end.

(** A list comprehension whose element expression may raise. *)
Fixpoint map_M {A B : Type} (f : A -> M B) (l : list A) : M (list B) :=
  match l with
  | [] => ret []
  | x :: rest => (y <- f x ;; ys <- map_M f rest ;; ret (y :: ys))
  end.

Definition log (lv : Level) (message : string) : M unit :=
  fun w =>
    (inr tt,
     mkWorld (stored w) (session w) (calls w) (logged w ++ [mkLog lv message]) (ticks w)).

(** A call whose outcome the outside decides. *)
Definition outside {A : Type} (c : Call) (outcome : Exception + A) : M A :=
  fun w =>
    (outcome, mkWorld (stored w) (session w) (calls w ++ [c]) (logged w) (ticks w)).

Definition db_query {A : Type} (q : DB -> A) : M A :=
  fun w => (inr (q (session w)), w).

Definition modify (f : DB -> DB) : M unit :=
  fun w => (inr tt, mkWorld (stored w) (f (session w)) (calls w) (logged w) (ticks w)).

(** [db.add(row)]: the row joins its table, and later queries of the session
    see it (the session flushes before it queries). *)
Definition add_memory_row (m : Memory.t) (db : DB) : DB :=
  mkDB (users db) (apps db) (memories db ++ [m]) (history db) (access_logs db).

Definition add_history_row (h : MemoryStatusHistory.t) (db : DB) : DB :=
  mkDB (users db) (apps db) (memories db) (history db ++ [h]) (access_logs db).

Definition add_access_log_row (a : MemoryAccessLog.t) (db : DB) : DB :=
  mkDB (users db) (apps db) (memories db) (history db) (access_logs db ++ [a]).

(** [db.query(Memory).filter(Memory.id == memory_id).first()]. *)
Definition find_memory (memory_id : UUID) (db : DB) : option Memory.t :=
  find (fun m => N.eqb (Memory.id m) memory_id) (memories db).

(** [db.query(Memory).filter(Memory.user_id == uid).all()]. *)
Definition memories_of_user (uid : UUID) (db : DB) : list Memory.t :=
  filter (fun m => N.eqb (Memory.user_id m) uid) (memories db).

(** Attribute writes on the row object [first()] returned: the first row of
    the table with that id changes, the others stay. *)
Fixpoint update_first (memory_id : UUID) (f : Memory.t -> Memory.t)
    (rows : list Memory.t) : list Memory.t :=
  match rows with
  | [] => []
  | m :: rest =>
      if N.eqb (Memory.id m) memory_id then f m :: rest
      else m :: update_first memory_id f rest
  end.

Definition update_memory (memory_id : UUID) (f : Memory.t -> Memory.t) (db : DB) : DB :=
  mkDB (users db) (apps db) (update_first memory_id f (memories db))
       (history db) (access_logs db).

(** [SessionLocal()]: a new session sees the committed rows. *)
Definition open_session : M unit :=
  fun w =>
    (inr tt, mkWorld (stored w) (stored w) (calls w ++ [SessionLocal]) (logged w) (ticks w)).

(** [db.commit()]. *)
Definition commit : M unit :=
  fun w =>
    (inr tt, mkWorld (session w) (session w) (calls w ++ [db_commit]) (logged w) (ticks w)).

(** [db.close()]: what the session has not committed is dropped. *)
Definition close : M unit :=
  fun w =>
    (inr tt, mkWorld (stored w) (stored w) (calls w ++ [db_close]) (logged w) (ticks w)).

(** [async with get_db() as db: body]. *)
Definition get_db {A : Type} (body : M A) : M A :=
  open_session ;; try_finally body close.

(** [x or default] on an optional string: [None] and the empty string are
    falsy. *)
Definition or_default (x : option string) (default : string) : string :=
  match x with
  | Some s => if String.eqb s "" then default else s
  | None => default
  end.

(** [x in ids] for a list of UUIDs. *)
Definition uuid_in (x : UUID) (ids : list UUID) : bool :=
  existsb (N.eqb x) ids.

(** ** What a query filter means

    Qdrant's reading of a filter: a point passes when it meets every [must]
    condition; a field condition asks the payload value under the key to be
    the given one, an id condition asks the point id to be one of the ids. *)

Definition satisfies (p : ScoredPoint.t) (c : Condition) : bool :=
  match c with
  | FieldCondition key value =>
      match dict_get key (ScoredPoint.payload p) with
      | Some v => String.eqb v value
      | None => false
      end
  | HasIdCondition has_id => existsb (String.eqb (ScoredPoint.id p)) has_id
  end.

Definition passes (f : Filter) (p : ScoredPoint.t) : bool :=
  forallb (satisfies p) (must f).

(** A vector store honours its query filter when every point it returns
    passes the filter. *)
Definition honours_filter (memory_client : MemoryClient) : Prop :=
  forall collection q f limit points,
    query_points memory_client collection q f limit = inr points ->
    Forall (fun p => passes f p = true) points.

(** ** Reference collaborators

    Concrete collaborators to run the handlers on: UUIDs in their canonical
    text form, an identity resolver that follows section 4.1, an access
    policy, and a vector store over a list of points. *)

Module Reference.

(** A reading of [uuid.UUID(s)] and of the exception it raises, for ASCII
    text: [s.replace('urn:', '').replace('uuid:', '')], then
    [.strip('{}').replace('-', '')], 32 characters asked for, and
    [int(hex, 16)] on them. *)

Definition hex_digit (c : Ascii.ascii) : option N :=
  let n := Ascii.N_of_ascii c in
  if (48 <=? n)%N && (n <=? 57)%N then Some (n - 48)%N
  else if (97 <=? n)%N && (n <=? 102)%N then Some (n - 87)%N
  else if (65 <=? n)%N && (n <=? 70)%N then Some (n - 55)%N
  else None.

(** [s.replace(sub, '')] for a non-empty [sub]: the occurrences of [sub]
    are removed from the left; [skip] counts the characters of an
    occurrence still to drop. *)
Fixpoint remove_from (sub : string) (skip : nat) (s : string) : string :=
  match s with
  | EmptyString => EmptyString
  | String c rest =>
      match skip with
      | S k => remove_from sub k rest
      | O =>
          if String.prefix sub s
          then remove_from sub (String.length sub - 1) rest
          else String c (remove_from sub 0 rest)
      end
  end.

Definition remove (sub s : string) : string := remove_from sub 0 s.

Fixpoint lstrip (p : Ascii.ascii -> bool) (s : string) : string :=
  match s with
  | EmptyString => EmptyString
  | String c rest => if p c then lstrip p rest else s
  end.

Fixpoint rstrip (p : Ascii.ascii -> bool) (s : string) : string :=
  match s with
  | EmptyString => EmptyString
  | String c rest =>
      match rstrip p rest with
      | EmptyString => if p c then EmptyString else String c EmptyString
      | kept => String c kept
      end
  end.

(** [s.strip(chars)]. *)
Definition strip (p : Ascii.ascii -> bool) (s : string) : string :=
  rstrip p (lstrip p s).

Definition is_brace (c : Ascii.ascii) : bool :=
  Ascii.eqb c "{"%char || Ascii.eqb c "}"%char.

Fixpoint drop_hyphens (s : string) : string :=
  match s with
  | EmptyString => EmptyString
  | String c rest =>
      if Ascii.eqb c "-"%char then drop_hyphens rest else String c (drop_hyphens rest)
  end.

(** The text [uuid.UUID] hands to [int]. *)
Definition uuid_hex (s : string) : string :=
  drop_hyphens (strip is_brace (remove "uuid:" (remove "urn:" s))).

(** The ASCII characters [int] skips around a literal: tab to carriage
    return, and the space. *)
Definition is_space (c : Ascii.ascii) : bool :=
  let n := Ascii.N_of_ascii c in
  ((9 <=? n)%N && (n <=? 13)%N) || (n =? 32)%N.

(** The digits of a literal, single underscores between them allowed;
    [underscore] says that the character before was one. *)
Fixpoint hex_value (s : string) (acc : N) (underscore : bool) : option N :=
  match s with
  | EmptyString => if underscore then None else Some acc
  | String c rest =>
      if Ascii.eqb c "_"%char then
        if underscore then None else hex_value rest acc true
      else
        match hex_digit c with
        | Some d => hex_value rest (16 * acc + d)%N false
        | None => None
        end
  end.

(** [int(s, 16)] on text without a minus sign: blanks around the literal,
    a plus sign, the prefix [0x] with one underscore after it, and the
    digits; [None] where it raises [ValueError]. *)
Definition int_base16 (s : string) : option N :=
  let s := strip is_space s in
  let s := match s with
           | String c rest => if Ascii.eqb c "+"%char then rest else s
           | EmptyString => s
           end in
  let s := match s with
           | String zero (String x rest) =>
               if Ascii.eqb zero "0"%char &&
                  (Ascii.eqb x "x"%char || Ascii.eqb x "X"%char)
               then match rest with
                    | String u rest' => if Ascii.eqb u "_"%char then rest' else rest
                    | EmptyString => rest
                    end
               else s
           | _ => s
           end in
  match s with
  | EmptyString => None
  | String c _ => if Ascii.eqb c "_"%char then None else hex_value s 0%N false
  end.

Definition uuid_parse (s : string) : option UUID :=
  let h := uuid_hex s in
  if Nat.eqb (String.length h) 32 then int_base16 h else None.

Fixpoint contains (c : Ascii.ascii) (s : string) : bool :=
  match s with
  | EmptyString => false
  | String d rest => Ascii.eqb c d || contains c rest
  end.

Definition hex_char (d : N) : Ascii.ascii :=
  Ascii.ascii_of_N (if (d <? 10)%N then 48 + d else 87 + d)%N.

Definition double_quote : Ascii.ascii := Ascii.ascii_of_N 34.
Definition backslash : Ascii.ascii := Ascii.ascii_of_N 92.

(** One character of [repr(s)] inside the quote [q]. *)
Definition repr_char (q c : Ascii.ascii) : string :=
  let n := Ascii.N_of_ascii c in
  if Ascii.eqb c q || Ascii.eqb c backslash then
    String backslash (String c EmptyString)
  else if (n =? 9)%N then String backslash "t"
  else if (n =? 10)%N then String backslash "n"
  else if (n =? 13)%N then String backslash "r"
  else if (n <? 32)%N || (n =? 127)%N then
    String backslash
      (String "x"%char
         (String (hex_char (n / 16)%N) (String (hex_char (n mod 16)%N) EmptyString)))
  else String c EmptyString.

Fixpoint repr_chars (q : Ascii.ascii) (s : string) : string :=
  match s with
  | EmptyString => EmptyString
  | String c rest => repr_char q c ++ repr_chars q rest
  end.

(** [repr(s)] for ASCII text: single quotes, unless the text has a single
    quote and no double quote. *)
Definition repr (s : string) : string :=
  let q := if contains "'"%char s && negb (contains double_quote s)
           then double_quote else "'"%char in
  String q (repr_chars q s ++ String q EmptyString).

(** The [ValueError] of [uuid.UUID(s)], for a string it rejects. *)
Definition uuid_error (s : string) : Exception :=
  let h := uuid_hex s in
  if Nat.eqb (String.length h) 32
  then Raise ("invalid literal for int() with base 16: " ++ repr h)
  else Raise "badly formed hexadecimal UUID string".

(** The [n] low hexadecimal digits of [v], most significant first. *)
Fixpoint hex_digits (n : nat) (v : N) : string :=
  match n with
  | O => EmptyString
  | S n' => hex_digits n' (v / 16)%N ++ String (hex_char (v mod 16)%N) EmptyString
  end.

(** [str(u)]: the form 8-4-4-4-12. *)
Definition uuid_str (u : UUID) : string :=
  let h := hex_digits 32 u in
  substring 0 8 h ++ "-" ++ substring 8 4 h ++ "-" ++ substring 12 4 h ++ "-" ++
  substring 16 4 h ++ "-" ++ substring 20 12 h.

(** An id no row of the ledger carries. *)
Definition fresh_id (db : DB) : UUID :=
  N.succ
    (fold_right N.max 0%N
       (map User.id (users db) ++ map App.id (apps db) ++ map Memory.id (memories db))%list).

(** Section 4.1: the User and the App of a (user, client) pair, either
    created when missing, a created App being active. *)
Definition get_user_and_app (db : DB) (user_id app_id : string)
    : Exception + (DB * User.t * App.t) :=
  let '(db, user) :=
    match find (fun u => String.eqb (User.user_id u) user_id) (users db) with
    | Some user => (db, user)
    | None =>
        let user := User.mk (fresh_id db) user_id user_id "" in
        (mkDB (users db ++ [user]) (apps db) (memories db) (history db)
              (access_logs db), user)
    end in
  let '(db, app) :=
    match find (fun a => N.eqb (App.owner_id a) (User.id user) &&
                         String.eqb (App.name a) app_id) (apps db) with
    | Some app => (db, app)
    | None =>
        let app := App.mk (fresh_id db) (User.id user) app_id true in
        (mkDB (users db) (apps db ++ [app]) (memories db) (history db)
              (access_logs db), app)
    end in
  inr (db, user, app).

(** An access policy that looks at ownership only: an App may read and
    mutate the memories it created. *)
Definition own_memories_only (db : DB) (memory : Memory.t) (app_id : UUID) : bool :=
  N.eqb (Memory.app_id memory) app_id.


(** A vector store holding [points], already ranked for the query: the
    first [limit] points that pass the filter. *)
Definition store_query_points (points : list ScoredPoint.t)
    (collection : string) (q : Embedding) (f : Filter) (limit : nat)
    : Exception + list ScoredPoint.t :=
  inr (firstn limit (filter (passes f) points)).

Definition clock (n : nat) : Timestamp := (1000 + N.of_nat n)%N.

End Reference.

(** ** A scenario

    One user with two clients, one of them paused, and two memories of
    which one is deleted; an engine whose vector store holds a point per
    memory and a stray one, and whose delete fails for the first memory. *)

Module Scenario.

Definition alice : User.t := User.mk 1%N "alice" "Alice" "alice@example.org".
Definition notes : App.t := App.mk 2%N 1%N "notes" true.
Definition archive : App.t := App.mk 3%N 1%N "archive" false.

Definition tea_id : UUID := 16%N.
Definition coffee_id : UUID := 17%N.
Definition new_id : UUID := 19%N.
Definition stray_id : UUID := 33%N.
Definition unknown_id : UUID := 99%N.

Definition tea : Memory.t :=
  Memory.mk tea_id 1%N 2%N "I like tea" active None.
Definition coffee : Memory.t :=
  Memory.mk coffee_id 1%N 2%N "I like coffee" deleted (Some 500%N).

Definition ledger : DB :=
  mkDB [alice] [notes; archive] [tea; coffee]
       [MemoryStatusHistory.mk tea_id 1%N None active;
        MemoryStatusHistory.mk coffee_id 1%N None active;
        MemoryStatusHistory.mk coffee_id 1%N (Some active) deleted]
       [].

Definition world : World := mkWorld ledger ledger [] [] 0.

Definition point (memory_id : UUID) (data : string) (score : float) : ScoredPoint.t :=
  ScoredPoint.mk (Reference.uuid_str memory_id)
    [("data", data); ("hash", "h-" ++ data); ("user_id", "alice")] score.

Definition points : list ScoredPoint.t :=
  [point tea_id "I like tea" 0.75%float;
   point stray_id "I like cocoa" 0.5%float;
   point coffee_id "I like coffee" 0.25%float].

Definition entry (memory_id : UUID) (data : string) : EngineMemory.t :=
  EngineMemory.mk (Reference.uuid_str memory_id) (Some ("h-" ++ data)) data.

(** The engine's answer to every [add]: a new memory, the deletion of a
    memory the ledger holds, and the deletion of one it does not hold. *)
Definition results : list AddResult.t :=
  [AddResult.mk (Reference.uuid_str new_id) "ADD" "Prefers green tea";
   AddResult.mk (Reference.uuid_str tea_id) "DELETE" "I like tea";
   AddResult.mk (Reference.uuid_str unknown_id) "DELETE" "I like milk"].

Definition engine : MemoryClient :=
  mkClient
    (fun text user_id metadata => inr (WithResults results))
    (fun user_id =>
       inr (DictResults [entry tea_id "I like tea"; entry stray_id "I like cocoa"]))
    (fun requested memory_id =>
       if N.eqb memory_id tea_id then inl (Raise "vector store unreachable")
       else inr tt)
    (fun query action => inr [0.5%float; 0.25%float])
    "openmemory"
    (Reference.store_query_points points).

(** An engine whose [get_all] lists the same memory three times. *)
Definition echoing_engine : MemoryClient :=
  mkClient
    (add engine)
    (fun user_id =>
       inr (PlainList [entry tea_id "I like tea"; entry tea_id "I like tea";
                       entry tea_id "I like tea"]))
    (delete engine) (embed engine) (collection_name engine) (query_points engine).

End Scenario.

(** ** Scenarios in which something fails

    The scenario's ledger, with a resolver and engines that fail or answer
    in a form the handlers do not expect. *)

Module Faults.

(** A resolver whose ledger cannot be reached. *)
Definition locked_resolver (db : DB) (user_id app_id : string)
    : Exception + (DB * User.t * App.t) :=
  inl (Raise "database is locked").

(** The scenario's engine with another [add]. *)
Definition with_add
    (add : string -> string -> list (string * string) -> Exception + AddResponse)
    : MemoryClient :=
  mkClient add (get_all Scenario.engine) (delete Scenario.engine)
    (embed Scenario.engine) (collection_name Scenario.engine)
    (query_points Scenario.engine).

(** The scenario's engine with a vector store that holds other points. *)
Definition with_points (points : list ScoredPoint.t) : MemoryClient :=
  mkClient (add Scenario.engine) (get_all Scenario.engine) (delete Scenario.engine)
    (embed Scenario.engine) (collection_name Scenario.engine)
    (Reference.store_query_points points).

(** An engine whose [add] raises. *)
Definition down_engine : MemoryClient :=
  with_add (fun text user_id metadata => inl (Raise "engine unreachable")).

(** An engine whose [add] answers without a ['results'] key. *)
Definition terse_engine : MemoryClient :=
  with_add (fun text user_id metadata => inr (OtherResponse "null")).

(** A response whose second result has an id that is no UUID. *)
Definition garbled_results : list AddResult.t :=
  [AddResult.mk (Reference.uuid_str Scenario.new_id) "ADD" "Prefers green tea";
   AddResult.mk "not-a-uuid" "ADD" "Prefers oolong"].

Definition garbling_engine : MemoryClient :=
  with_add (fun text user_id metadata => inr (WithResults garbled_results)).

(** A response with the engine's other two kinds of event. *)
Definition update_results : list AddResult.t :=
  [AddResult.mk (Reference.uuid_str Scenario.tea_id) "UPDATE" "I like green tea";
   AddResult.mk (Reference.uuid_str Scenario.coffee_id) "NONE" "I like coffee"].

Definition updating_engine : MemoryClient :=
  with_add (fun text user_id metadata => inr (WithResults update_results)).

(** A response that deletes the memory [tea] and adds it again. *)
Definition readd_results : list AddResult.t :=
  [AddResult.mk (Reference.uuid_str Scenario.tea_id) "DELETE" "I like tea";
   AddResult.mk (Reference.uuid_str Scenario.tea_id) "ADD" "I like black tea"].

Definition readding_engine : MemoryClient :=
  with_add (fun text user_id metadata => inr (WithResults readd_results)).

(** A response that deletes the memory [tea] and then has a result whose
    id is no UUID. *)
Definition cut_short_results : list AddResult.t :=
  [AddResult.mk (Reference.uuid_str Scenario.tea_id) "DELETE" "I like tea";
   AddResult.mk "not-a-uuid" "ADD" "Prefers oolong"].

Definition cut_short_engine : MemoryClient :=
  with_add (fun text user_id metadata => inr (WithResults cut_short_results)).

(** A response whose only result has an id of 32 characters that are no
    hexadecimal digits. *)
Definition unreadable_results : list AddResult.t :=
  [AddResult.mk "zzzzzzzzzzzzzzzzzzzzzzzzzzzzzzzz" "ADD" "Prefers oolong"].

Definition unreadable_engine : MemoryClient :=
  with_add (fun text user_id metadata => inr (WithResults unreadable_results)).

(** A vector store whose second point has no text. *)
Definition bare_points : list ScoredPoint.t :=
  [Scenario.point Scenario.tea_id "I like tea" 0.75%float;
   ScoredPoint.mk (Reference.uuid_str Scenario.coffee_id) [("user_id", "alice")]
     0.25%float].

(** A vector store whose second point has an id that is no UUID. *)
Definition odd_points : list ScoredPoint.t :=
  [Scenario.point Scenario.tea_id "I like tea" 0.75%float;
   ScoredPoint.mk "42" [("data", "I like cocoa"); ("user_id", "alice")] 0.5%float].

(** An engine whose [get_all] lists an entry with an id that is no UUID
    after a well-formed one. *)
Definition garbled_listing : MemoryClient :=
  mkClient (add Scenario.engine)
    (fun user_id =>
       inr (PlainList [Scenario.entry Scenario.tea_id "I like tea";
                       EngineMemory.mk "n/a" None "I like cocoa"]))
    (delete Scenario.engine) (embed Scenario.engine)
    (collection_name Scenario.engine) (query_points Scenario.engine).

(** A second user, with a memory of their own. *)
Definition bob : User.t := User.mk 5%N "bob" "Bob" "bob@example.org".
Definition diary : App.t := App.mk 6%N 5%N "diary" true.
Definition bobs_id : UUID := 21%N.
Definition bobs_memory : Memory.t :=
  Memory.mk bobs_id 5%N 6%N "I like juice" active None.

Definition shared_ledger : DB :=
  mkDB [Scenario.alice; bob] [Scenario.notes; Scenario.archive; diary]
       [Scenario.tea; Scenario.coffee; bobs_memory]
       [MemoryStatusHistory.mk Scenario.tea_id 1%N None active;
        MemoryStatusHistory.mk Scenario.coffee_id 1%N None active;
        MemoryStatusHistory.mk Scenario.coffee_id 1%N (Some active) deleted;
        MemoryStatusHistory.mk bobs_id 5%N None active]
       [].

Definition shared_world : World := mkWorld shared_ledger shared_ledger [] [] 0.

End Faults.

(** ** The handlers *)

Section Handlers.

Set Default Proof Using "Type".

(** [config.DEFAULT_USER_ID] and [config.DEFAULT_CLIENT_NAME]. *)
Variable DEFAULT_USER_ID : string.
Variable DEFAULT_CLIENT_NAME : string.

(** [uuid.UUID(s)], [None] where it raises [ValueError]. *)
Variable uuid_parse : string -> option UUID.

(** The exception [uuid.UUID(s)] raises on a string it rejects.  Its text
    depends on the string: "badly formed hexadecimal UUID string" when the
    string, its prefixes, braces and hyphens removed, has not 32
    characters, and the message of [int] about the 32 characters
    otherwise. *)
Variable uuid_error : string -> Exception.

(** [str(u)] for a UUID. *)
Variable uuid_str : UUID -> string.

(** [datetime.datetime.now(datetime.UTC)] at its n-th reading. *)
Variable clock : nat -> Timestamp.

(** [memory_utils.get_memory_client_safe()]: the client, or [None]. *)
Variable get_memory_client_safe : option MemoryClient.

(** Modelled from the spec: [memory_utils.get_user_and_app] is not among
    the sources.  Section 4.1: given a user identifier and a client name it
    returns the User and App records, creating either if missing; a
    storage failure is its only error.  It is given the ledger and returns
    the ledger with the rows it created; it persists them itself, as
    [create_default_user_and_app] does for the default pair. *)
Variable get_user_and_app :
  DB -> string -> string -> Exception + (DB * User.t * App.t).

(** Modelled from the spec: [memory_utils.check_memory_access_permissions]
    is not among the sources.  Section 4.2: given a Memory and an App
    identifier it says whether that App may read or mutate the Memory; the
    handlers use it as a boolean oracle. *)
Variable check_memory_access_permissions : DB -> Memory.t -> UUID -> bool.

Definition now : M Timestamp :=
  fun w =>
    (inr (clock (ticks w)),
     mkWorld (stored w) (session w) (calls w) (logged w) (S (ticks w))).

Definition uuid_UUID (s : string) : M UUID :=
  match uuid_parse s with
  | Some u => ret u
  | None => raise (uuid_error s)
  end.

Definition resolve (user_id app_id : string) : M (User.t * App.t) :=
  fun w =>
    let c := (calls w ++ [resolve_user_and_app user_id app_id])%list in
    match get_user_and_app (session w) user_id app_id with
    | inl e => (inl e, mkWorld (stored w) (session w) c (logged w) (ticks w))
    | inr (db, user, app) => (inr (user, app), mkWorld db db c (logged w) (ticks w))
    end.

Definition unavailable : Reply :=
  ReplyError "Memory system is currently unavailable. Please try again later.".

(** *** add_memories *)

(** The body of [for result in response['results']]. *)
Definition process_result (user : User.t) (app : App.t) (result : AddResult.t)
    : M unit :=
  memory_id <- uuid_UUID (AddResult.id result) ;;
  memory <- db_query (find_memory memory_id) ;;
  if String.eqb (AddResult.event result) "ADD" then
    memory <- match memory with
              | None =>
                  let memory :=
                    Memory.mk memory_id (User.id user) (App.id app)
                              (AddResult.memory result) active None in
                  (modify (add_memory_row memory) ;; ret (Some memory))
              | Some memory =>
                  (modify (update_memory memory_id (Memory.set_state active)) ;;
                   modify (update_memory memory_id
                             (Memory.set_content (AddResult.memory result))) ;;
                   ret (Some (Memory.set_content (AddResult.memory result)
                                (Memory.set_state active memory))))
              end ;;
    modify (add_history_row
              (MemoryStatusHistory.mk memory_id (User.id user)
                 (match memory with Some _ => Some deleted | None => None end)
                 active))
  else if String.eqb (AddResult.event result) "DELETE" then
    match memory with
    | Some _ =>
        modify (update_memory memory_id (Memory.set_state deleted)) ;;
        t <- now ;;
        modify (update_memory memory_id (Memory.set_deleted_at t)) ;;
        modify (add_history_row
                  (MemoryStatusHistory.mk memory_id (User.id user)
                     (Some active) deleted))
    | None => ret tt
    end
  else ret tt.

Definition add_memories (text : string) (user_id client_name : option string)
    : M Reply :=
  let user_id := or_default user_id DEFAULT_USER_ID in
  let client_name := or_default client_name DEFAULT_CLIENT_NAME in
  match get_memory_client_safe with
  | None => ret unavailable
  | Some memory_client =>
      try_except
        (get_db
           ('(user, app) <- resolve user_id client_name ;;
            if negb (App.is_active app) then
              ret (ReplyError
                     ("App " ++ App.name app ++
                      " is currently paused on OpenMemory. Cannot create new memories."))
            else
              let metadata :=
                [("source_app", "openmemory"); ("mcp_client", client_name)] in
              response <- outside (client_add text user_id metadata)
                                  (add memory_client text user_id metadata) ;;
              match response with
              | WithResults results =>
                  for_each results (process_result user app) ;; commit
              | OtherResponse _ => ret tt
              end ;;
              ret (ReplyAdd response)))
        (fun e =>
           log ERROR ("Error adding to memory: " ++ str e) ;;
           ret (ReplyError ("Error adding to memory: " ++ str e)))
  end.

(** The world in which [add_memories] starts its loop over the results:
    the session opened, the identity resolved to ledger [db], the engine
    called. *)
Definition at_results_loop (w : World) (db : DB) (text user_id client_name : string)
    : World :=
  mkWorld db db
    (calls w ++
     [SessionLocal; resolve_user_and_app user_id client_name;
      client_add text user_id
        [("source_app", "openmemory"); ("mcp_client", client_name)]])%list
    (logged w) (ticks w).

(** The old state the specification asks a history row of an ADD event to
    carry: the state the ledger held for the memory, none for a new one. *)
Definition prior_state (memory_id : UUID) (db : DB) : option MemoryState :=
  option_map Memory.state (find_memory memory_id db).

(** A memory row marked deleted, with its deletion time set. *)
Definition marked_deleted (memory_id : UUID) (db : DB) : Prop :=
  exists row, find_memory memory_id db = Some row /\
              Memory.state row = deleted /\ Memory.deleted_at row <> None.

(** A memory row whose deletion time is set. *)
Definition deletion_recorded (memory_id : UUID) (db : DB) : Prop :=
  exists row, find_memory memory_id db = Some row /\ Memory.deleted_at row <> None.

(** The ledger with access-log rows appended. *)
Definition add_access_log_rows (rows : list MemoryAccessLog.t) (db : DB) : DB :=
  mkDB (users db) (apps db) (memories db) (history db) (access_logs db ++ rows).

(** *** The accessible ids *)

(** The value of the comprehension
    [[memory.id for memory in user_memories
      if check_memory_access_permissions(db, memory, app.id)]] on a ledger. *)
Definition accessible_ids (db : DB) (user : User.t) (app : App.t) : list UUID :=
  map Memory.id
    (filter (fun memory => check_memory_access_permissions db memory (App.id app))
            (memories_of_user (User.id user) db)).

Definition is_active_state (s : MemoryState) : bool :=
  match s with active => true | deleted => false end.

(** The accessible ids as the specification words them (section 4.4): every
    active Memory owned by the user, kept when the access predicate says
    so. *)
Definition accessible_ids_of_active (db : DB) (user : User.t) (app : App.t)
    : list UUID :=
  map Memory.id
    (filter (fun memory => check_memory_access_permissions db memory (App.id app))
       (filter (fun memory => is_active_state (Memory.state memory))
               (memories_of_user (User.id user) db))).

(** [[memory.id for memory in user_memories
      if check_memory_access_permissions(db, memory, app.id)]] over
    [db.query(Memory).filter(Memory.user_id == user.id).all()]; the three
    handlers that use it spell it the same way. *)
Definition accessible_memory_ids (user : User.t) (app : App.t) : M (list UUID) :=
  user_memories <- db_query (memories_of_user (User.id user)) ;;
  db <- db_query (fun db => db) ;;
  ret (map Memory.id
         (filter (fun memory => check_memory_access_permissions db memory (App.id app))
                 user_memories)).

(** *** search_memory *)

(** The dict built from one point; [memory.payload["data"]] raises
    [KeyError] when the payload has no such key. *)
Definition search_hit (memory : ScoredPoint.t) : M SearchHit.t :=
  match dict_get "data" (ScoredPoint.payload memory) with
  | None => raise (Raise "'data'")
  | Some data =>
      ret (SearchHit.mk (ScoredPoint.id memory) data
             (dict_get "hash" (ScoredPoint.payload memory))
             (dict_get "created_at" (ScoredPoint.payload memory))
             (dict_get "updated_at" (ScoredPoint.payload memory))
             (ScoredPoint.score memory))
  end.

(** The conditions of the query filter: the user, and the accessible ids
    when there are any. *)
Definition search_filter (user_id : string) (accessible_memory_ids : list UUID)
    : Filter :=
  let conditions := [FieldCondition "user_id" user_id] in
  let conditions :=
    match accessible_memory_ids with
    | [] => conditions
    | _ :: _ =>
        (conditions ++ [HasIdCondition (map uuid_str accessible_memory_ids)])%list
    end in
  mkFilter conditions.

Definition search_log (app : App.t) (query : string) (memory_id : UUID)
    (memory : SearchHit.t) : MemoryAccessLog.t :=
  MemoryAccessLog.mk memory_id (App.id app) "search"
    [("query", VStr query);
     ("score", VFloat (SearchHit.score memory));
     ("hash", value_of_option (SearchHit.hash memory))].

Definition search_memory (query : string) (user_id client_name : option string)
    : M Reply :=
  let user_id := or_default user_id DEFAULT_USER_ID in
  let client_name := or_default client_name DEFAULT_CLIENT_NAME in
  match get_memory_client_safe with
  | None => ret unavailable
  | Some memory_client =>
      try_except
        (get_db
           ('(user, app) <- resolve user_id client_name ;;
            accessible_memory_ids <- accessible_memory_ids user app ;;
            let filters := search_filter user_id accessible_memory_ids in
            embeddings <- outside (embedding_embed query "search")
                                  (embed memory_client query "search") ;;
            hits <- outside
                      (client_query_points (collection_name memory_client)
                         embeddings filters 10)
                      (query_points memory_client (collection_name memory_client)
                         embeddings filters 10) ;;
            memories <- map_M search_hit hits ;;
            for_each memories
              (fun memory =>
                 memory_id <- uuid_UUID (SearchHit.id memory) ;;
                 modify (add_access_log_row (search_log app query memory_id memory))) ;;
            commit ;;
            ret (ReplySearch memories)))
        (fun e =>
           log ERROR ("Error searching memory: " ++ str e) ;;
           ret (ReplyError ("Error searching memory: " ++ str e)))
  end.

(** *** list_memories *)

Definition list_log (app : App.t) (memory_id : UUID) (memory : EngineMemory.t)
    : MemoryAccessLog.t :=
  MemoryAccessLog.mk memory_id (App.id app) "list"
    [("hash", value_of_option (EngineMemory.hash memory))].

(** [memories['results']] when [memories] is a dict with that key,
    [memories] when it is a list, and the empty list otherwise. *)
Definition entries (memories : GetAllResponse) : list EngineMemory.t :=
  match memories with
  | DictResults results => results
  | PlainList l => l
  | OtherShape => []
  end.

(** [for memory in memories_list], returning [filtered_memories]. *)
Fixpoint filter_and_log (app : App.t) (accessible_memory_ids : list UUID)
    (memories_list : list EngineMemory.t) : M (list EngineMemory.t) :=
  match memories_list with
  | [] => ret []
  | memory :: rest =>
      memory_id <- uuid_UUID (EngineMemory.id memory) ;;
      if uuid_in memory_id accessible_memory_ids then
        modify (add_access_log_row (list_log app memory_id memory)) ;;
        filtered <- filter_and_log app accessible_memory_ids rest ;;
        ret (memory :: filtered)
      else filter_and_log app accessible_memory_ids rest
  end.

Definition list_memories (user_id client_name : option string) : M Reply :=
  let user_id := or_default user_id DEFAULT_USER_ID in
  let client_name := or_default client_name DEFAULT_CLIENT_NAME in
  match get_memory_client_safe with
  | None => ret unavailable
  | Some memory_client =>
      try_except
        (get_db
           ('(user, app) <- resolve user_id client_name ;;
            memories <- outside (client_get_all user_id)
                                (get_all memory_client user_id) ;;
            accessible_memory_ids <- accessible_memory_ids user app ;;
            let memories_list := entries memories in
            filtered_memories <-
              filter_and_log app accessible_memory_ids memories_list ;;
            commit ;;
            ret (ReplyList filtered_memories)))
        (fun e =>
           log ERROR ("Error getting memories: " ++ str e) ;;
           ret (ReplyError ("Error getting memories: " ++ str e)))
  end.

(** *** delete_all_memories *)

(** The first loop: one engine delete per id, a failure logged and the
    loop going on.  [requested] are the ids already asked for. *)
Fixpoint delete_each (memory_client : MemoryClient) (requested : list UUID)
    (ids : list UUID) : M unit :=
  match ids with
  | [] => ret tt
  | memory_id :: rest =>
      try_except
        (outside (client_delete memory_id)
                 (delete memory_client requested memory_id))
        (fun delete_error =>
           log WARNING
             ("Failed to delete memory " ++ uuid_str memory_id ++
              " from vector store: " ++ str delete_error)) ;;
      delete_each memory_client (requested ++ [memory_id])%list rest
  end.

Definition delete_history (user : User.t) (memory_id : UUID)
    : MemoryStatusHistory.t :=
  MemoryStatusHistory.mk memory_id (User.id user) (Some active) deleted.

Definition delete_log (app : App.t) (memory_id : UUID) : MemoryAccessLog.t :=
  MemoryAccessLog.mk memory_id (App.id app) "delete_all"
    [("operation", VStr "bulk_delete")].

(** The body of the second loop; [memory.state = ...] on [None] raises
    [AttributeError]. *)
Definition mark_deleted (user : User.t) (app : App.t) (t : Timestamp)
    (memory_id : UUID) : M unit :=
  memory <- db_query (find_memory memory_id) ;;
  match memory with
  | None => raise (Raise "'NoneType' object has no attribute 'state'")
  | Some _ =>
      modify (update_memory memory_id (Memory.set_state deleted)) ;;
      modify (update_memory memory_id (Memory.set_deleted_at t)) ;;
      modify (add_history_row (delete_history user memory_id)) ;;
      modify (add_access_log_row (delete_log app memory_id))
  end.

(** A memory row in state deleted, with deletion time [t]. *)
Definition deleted_at_time (t : Timestamp) (memory_id : UUID) (db : DB) : Prop :=
  exists row, find_memory memory_id db = Some row /\
              Memory.state row = deleted /\ Memory.deleted_at row = Some t.

(** What the second loop of [delete_all_memories] does to the ledger for one
    id. *)
Definition marked (user : User.t) (app : App.t) (t : Timestamp) (memory_id : UUID)
    (db : DB) : DB :=
  add_access_log_row (delete_log app memory_id)
    (add_history_row (delete_history user memory_id)
       (update_memory memory_id (Memory.set_deleted_at t)
          (update_memory memory_id (Memory.set_state deleted) db))).

Definition delete_all_memories (user_id client_name : option string) : M Reply :=
  let user_id := or_default user_id DEFAULT_USER_ID in
  let client_name := or_default client_name DEFAULT_CLIENT_NAME in
  match get_memory_client_safe with
  | None => ret unavailable
  | Some memory_client =>
      try_except
        (get_db
           ('(user, app) <- resolve user_id client_name ;;
            accessible_memory_ids <- accessible_memory_ids user app ;;
            delete_each memory_client [] accessible_memory_ids ;;
            t <- now ;;
            for_each accessible_memory_ids (mark_deleted user app t) ;;
            commit ;;
            ret (ReplyMessage "Successfully deleted all memories")))
        (fun e =>
           log ERROR ("Error deleting memories: " ++ str e) ;;
           ret (ReplyError ("Error deleting memories: " ++ str e)))
  end.

(** *** create_default_user_and_app *)

(** The id the ledger gives a row that is added without one: the column
    default of [models], which is not among the sources. *)
Variable new_id : DB -> UUID.

(** [db.query(User).filter(User.user_id == user_id).first()]. *)
Definition query_user (user_id : string) (db : DB) : option User.t :=
  find (fun u => String.eqb (User.user_id u) user_id) (users db).

(** [db.query(App).filter(App.owner_id == owner_id, App.name == name).first()]. *)
Definition query_app (owner_id : UUID) (name : string) (db : DB) : option App.t :=
  find (fun a => N.eqb (App.owner_id a) owner_id && String.eqb (App.name a) name)
       (apps db).

Definition add_user_row (u : User.t) (db : DB) : DB :=
  mkDB (users db ++ [u]) (apps db) (memories db) (history db) (access_logs db).

Definition add_app_row (a : App.t) (db : DB) : DB :=
  mkDB (users db) (apps db ++ [a]) (memories db) (history db) (access_logs db).

(** The function opens a session of its own and closes it in a [finally];
    the value returned is the list of the messages it logs at level INFO,
    in order.  The description of the App it creates is a column the model
    of [App] does not carry. *)
Definition create_default_user_and_app : M (list string) :=
  open_session ;;
  try_finally
    (default_user <- db_query (query_user DEFAULT_USER_ID) ;;
     '(default_user, created_user) <-
       match default_user with
       | Some default_user => ret (default_user, [])
       | None =>
           id <- db_query new_id ;;
           let default_user :=
             User.mk id DEFAULT_USER_ID "Default User" "default@openmemory.ai" in
           modify (add_user_row default_user) ;;
           commit ;;
           ret (default_user, ["Created default user"])
       end ;;
     default_app <-
       db_query (query_app (User.id default_user) DEFAULT_CLIENT_NAME) ;;
     created_app <-
       match default_app with
       | Some _ => ret []
       | None =>
           id <- db_query new_id ;;
           modify (add_app_row
                     (App.mk id (User.id default_user) DEFAULT_CLIENT_NAME true)) ;;
           commit ;;
           ret ["Created default app"]
       end ;;
     ret (created_user ++ created_app)%list)
    close.

(** ** The ways a handler changes the ledger

    Every write of the four handlers is one of four steps: a new memory
    with its history row, an existing memory set active with new content
    and its history row, an existing memory set deleted with a time and its
    history row, and an access-log row. *)

Inductive ledger_step : DB -> DB -> Prop :=
| step_create : forall db memory changed_by old_state,
    find_memory (Memory.id memory) db = None ->
    Memory.state memory = active ->
    ledger_step db
      (add_history_row
         (MemoryStatusHistory.mk (Memory.id memory) changed_by old_state active)
         (add_memory_row memory db))
| step_activate : forall db memory_id content changed_by old_state row,
    find_memory memory_id db = Some row ->
    ledger_step db
      (add_history_row
         (MemoryStatusHistory.mk memory_id changed_by old_state active)
         (update_memory memory_id (Memory.set_content content)
            (update_memory memory_id (Memory.set_state active) db)))
| step_delete : forall db memory_id t changed_by old_state row,
    find_memory memory_id db = Some row ->
    ledger_step db
      (add_history_row
         (MemoryStatusHistory.mk memory_id changed_by old_state deleted)
         (update_memory memory_id (Memory.set_deleted_at t)
            (update_memory memory_id (Memory.set_state deleted) db)))
| step_log : forall db a,
    ledger_step db (add_access_log_row a db).

(** A property of ledgers that every step keeps, and one that the identity
    resolver keeps. *)
Definition step_closed (P : DB -> Prop) : Prop :=
  forall db db', ledger_step db db' -> P db -> P db'.

Definition resolver_closed (P : DB -> Prop) : Prop :=
  forall db user_id app_id db' user app,
    get_user_and_app db user_id app_id = inr (db', user, app) -> P db -> P db'.

(** An action keeps a property of the world. *)
Definition preserves {A : Type} (I : World -> Prop) (m : M A) : Prop :=
  forall w r w', I w -> m w = (r, w') -> I w'.

(** The property holds of the committed rows and of the rows of the
    session. *)
Definition both (P : DB -> Prop) (w : World) : Prop :=
  P (stored w) /\ P (session w).

(** A call made inside a session: any but opening or closing one. *)
Definition inner_call (c : Call) : Prop := c <> SessionLocal /\ c <> db_close.

(** The calls of the world are [base] followed by calls made inside a
    session. *)
Definition within_session (base : list Call) (w : World) : Prop :=
  exists inner, calls w = (base ++ inner)%list /\ Forall inner_call inner.

(** How a call of a handler ends, from the world [w] it starts in: with a
    reply, and either in the same world, or having opened one session and
    closed it as its last call, with calls made inside the session in
    between; once closed, the session holds the committed rows. *)
Definition ends_well (w : World) (outcome : (Exception + Reply) * World) : Prop :=
  exists reply w',
    outcome = (inr reply, w') /\
    (w' = w \/
     exists inner,
       calls w' = (calls w ++ SessionLocal :: inner ++ [db_close])%list /\
       Forall inner_call inner /\
       session w' = stored w').

(** An action that leaves the committed rows and the rows of the session as
    they are. *)
Definition leaves_ledger {A : Type} (m : M A) : Prop :=
  forall w r w', m w = (r, w') -> stored w' = stored w /\ session w' = session w.

(** An action that makes no call. *)
Definition leaves_calls {A : Type} (m : M A) : Prop :=
  forall w r w', m w = (r, w') -> calls w' = calls w.

(** ** Properties of a ledger *)

(** The memory ids are pairwise distinct, as a primary key makes them. *)
Definition distinct_ids (db : DB) : Prop :=
  NoDup (map Memory.id (memories db)).

(** The most recent history row of a memory. *)
Definition latest_history (memory_id : UUID) (db : DB)
    : option MemoryStatusHistory.t :=
  find (fun h => N.eqb (MemoryStatusHistory.memory_id h) memory_id)
       (rev (history db)).

(** The state of every memory is the new state of its most recent history
    row, when it has one. *)
Definition state_matches_history (db : DB) : Prop :=
  forall memory_id row h,
    find_memory memory_id db = Some row ->
    latest_history memory_id db = Some h ->
    MemoryStatusHistory.new_state h = Memory.state row.

(** From [db] to [db']: the history and the access log have only grown at
    their end, and every memory is still there, with the user and the app it
    had. *)
Definition grown_from (db db' : DB) : Prop :=
  (exists rows, history db' = (history db ++ rows)%list) /\
  (exists rows, access_logs db' = (access_logs db ++ rows)%list) /\
  (forall memory_id row,
     find_memory memory_id db = Some row ->
     exists row',
       find_memory memory_id db' = Some row' /\
       Memory.user_id row' = Memory.user_id row /\
       Memory.app_id row' = Memory.app_id row).

(** The identity resolver leaves the memory, history and access-log tables
    as they are. *)
Definition resolver_keeps_memory_tables : Prop :=
  forall db user_id app_id db' user app,
    get_user_and_app db user_id app_id = inr (db', user, app) ->
    memories db' = memories db /\ history db' = history db /\
    access_logs db' = access_logs db.

(** The world a handler leaves when the identity could not be resolved:
    the session opened and closed around the one call, the error logged. *)
Definition stopped_at_resolver (w : World) (user_id client_name message : string)
    : World :=
  mkWorld (stored w) (stored w)
    (calls w ++
     [SessionLocal; resolve_user_and_app user_id client_name; db_close])%list
    (logged w ++ [mkLog ERROR message])%list (ticks w).

(** An event of the engine that the loop of [add_memories] has no branch
    for, such as UPDATE or NONE. *)
Definition other_event (result : AddResult.t) : Prop :=
  AddResult.event result <> "ADD" /\ AddResult.event result <> "DELETE".

(** A point of the vector store that [search_memory] can turn into a hit
    and log: its payload has the text, and its id reads as a UUID. *)
Definition usable_point (p : ScoredPoint.t) : Prop :=
  dict_get "data" (ScoredPoint.payload p) <> None /\
  uuid_parse (ScoredPoint.id p) <> None.

(** The dict [search_memory] builds from a point, field by field. *)
Definition hit_of (p : ScoredPoint.t) (hit : SearchHit.t) : Prop :=
  SearchHit.id hit = ScoredPoint.id p /\
  dict_get "data" (ScoredPoint.payload p) = Some (SearchHit.memory hit) /\
  SearchHit.hash hit = dict_get "hash" (ScoredPoint.payload p) /\
  SearchHit.created_at hit = dict_get "created_at" (ScoredPoint.payload p) /\
  SearchHit.updated_at hit = dict_get "updated_at" (ScoredPoint.payload p) /\
  SearchHit.score hit = ScoredPoint.score p.

(** The test [list_memories] puts an entry of the engine to. *)
Definition is_accessible_entry (accessible_memory_ids : list UUID)
    (memory : EngineMemory.t) : bool :=
  match uuid_parse (EngineMemory.id memory) with
  | Some memory_id => uuid_in memory_id accessible_memory_ids
  | None => false
  end.

(** The access-log rows [list_memories] writes for the entries of the
    engine, in order. *)
Definition list_log_rows (app : App.t) (accessible_memory_ids : list UUID)
    (memories_list : list EngineMemory.t) : list MemoryAccessLog.t :=
  flat_map
    (fun memory =>
       match uuid_parse (EngineMemory.id memory) with
       | Some memory_id =>
           if uuid_in memory_id accessible_memory_ids
           then [list_log app memory_id memory] else []
       | None => []
       end)
    memories_list.

(** Two memory rows that differ at most in state and deletion time. *)
Definition same_but_deletion (row row' : Memory.t) : Prop :=
  Memory.id row' = Memory.id row /\
  Memory.user_id row' = Memory.user_id row /\
  Memory.app_id row' = Memory.app_id row /\
  Memory.content row' = Memory.content row.

(** Two ledgers with the same users and apps, and the same memory rows, row
    by row, but for state and deletion time. *)
Definition same_rows_but_deletion (db db' : DB) : Prop :=
  users db' = users db /\ apps db' = apps db /\
  Forall2 same_but_deletion (memories db) (memories db').

(** A ledger that holds the default user and an App of the default name
    owned by that user (the first row of each kind, as the queries see
    them). *)
Definition has_defaults (db : DB) : Prop :=
  exists default_user default_app,
    query_user DEFAULT_USER_ID db = Some default_user /\
    query_app (User.id default_user) DEFAULT_CLIENT_NAME db = Some default_app.


(** ** Facts about the monad and the tables *)

Lemma bind_ok : forall (A B : Type) (m : M A) (k : A -> M B) w a w',
  m w = (inr a, w') -> bind m k w = k a w'.
Proof. intros A B m k w a w' H. unfold bind. rewrite H. reflexivity. Qed.

Lemma for_each_app : forall (A : Type) (body : A -> M unit) l1 l2 w,
  for_each (l1 ++ l2) body w =
  match for_each l1 body w with
  | (inl e, w') => (inl e, w')
  | (inr _, w') => for_each l2 body w'
  end.
Proof.
  intros A body l1. induction l1 as [|x l1 IH]; intros l2 w.
  - reflexivity.
  - simpl. unfold bind. destruct (body x w) as [[e|[]] w1].
    + reflexivity.
    + apply IH.
Qed.

(** An attribute write that keeps the id changes what a lookup of that id
    finds, and nothing a lookup of another id finds. *)
Lemma find_update_first_same : forall memory_id f rows,
  (forall m, Memory.id (f m) = Memory.id m) ->
  find (fun m => N.eqb (Memory.id m) memory_id) (update_first memory_id f rows) =
  option_map f (find (fun m => N.eqb (Memory.id m) memory_id) rows).
Proof.
  intros memory_id f rows Hid. induction rows as [|m rows IH].
  - reflexivity.
  - simpl. destruct (N.eqb (Memory.id m) memory_id) eqn:E.
    + simpl. rewrite Hid, E. reflexivity.
    + simpl. rewrite E. exact IH.
Qed.

Lemma find_update_first_other : forall memory_id other f rows,
  (forall m, Memory.id (f m) = Memory.id m) ->
  other <> memory_id ->
  find (fun m => N.eqb (Memory.id m) other) (update_first memory_id f rows) =
  find (fun m => N.eqb (Memory.id m) other) rows.
Proof.
  intros memory_id other f rows Hid Hne. induction rows as [|m rows IH].
  - reflexivity.
  - simpl. destruct (N.eqb (Memory.id m) memory_id) eqn:E.
    + simpl. rewrite Hid. apply N.eqb_eq in E.
      assert (Hm : N.eqb (Memory.id m) other = false)
        by (apply N.eqb_neq; congruence).
      rewrite Hm. reflexivity.
    + simpl. rewrite IH. reflexivity.
Qed.

Lemma find_memory_update_same : forall memory_id f db,
  (forall m, Memory.id (f m) = Memory.id m) ->
  find_memory memory_id (update_memory memory_id f db) =
  option_map f (find_memory memory_id db).
Proof. intros. unfold find_memory, update_memory. simpl. now apply find_update_first_same. Qed.

Lemma find_memory_update_other : forall memory_id other f db,
  (forall m, Memory.id (f m) = Memory.id m) ->
  other <> memory_id ->
  find_memory other (update_memory memory_id f db) = find_memory other db.
Proof. intros. unfold find_memory, update_memory. simpl. now apply find_update_first_other. Qed.

Lemma find_memory_add_history : forall memory_id h db,
  find_memory memory_id (add_history_row h db) = find_memory memory_id db.
Proof. reflexivity. Qed.

Lemma find_memory_add_access_log : forall memory_id a db,
  find_memory memory_id (add_access_log_row a db) = find_memory memory_id db.
Proof. reflexivity. Qed.

Lemma find_app : forall (A : Type) (p : A -> bool) l1 l2,
  find p (l1 ++ l2) = match find p l1 with Some x => Some x | None => find p l2 end.
Proof.
  intros A p l1 l2. induction l1 as [|x l1 IH]; simpl.
  - reflexivity.
  - destruct (p x); [reflexivity | exact IH].
Qed.

Lemma find_memory_add_memory : forall memory_id m db,
  find_memory memory_id (add_memory_row m db) =
  match find_memory memory_id db with
  | Some row => Some row
  | None => if N.eqb (Memory.id m) memory_id then Some m else None
  end.
Proof.
  intros. unfold find_memory, add_memory_row. simpl. rewrite find_app. reflexivity.
Qed.

Lemma set_state_id : forall s m, Memory.id (Memory.set_state s m) = Memory.id m.
Proof. reflexivity. Qed.

Lemma set_content_id : forall c m, Memory.id (Memory.set_content c m) = Memory.id m.
Proof. reflexivity. Qed.

Lemma set_deleted_at_id : forall d m, Memory.id (Memory.set_deleted_at d m) = Memory.id m.
Proof. reflexivity. Qed.

Create HintDb ledger.
#[local] Hint Resolve set_state_id set_content_id set_deleted_at_id : ledger.

(** ** One result of the engine at a time *)

(** An ADD for an id the ledger does not hold: a new row and a history row. *)
Lemma process_result_add_new : forall user app result memory_id w,
  uuid_parse (AddResult.id result) = Some memory_id ->
  AddResult.event result = "ADD" ->
  find_memory memory_id (session w) = None ->
  process_result user app result w =
  (inr tt,
   mkWorld (stored w)
     (add_history_row
        (MemoryStatusHistory.mk memory_id (User.id user) (Some deleted) active)
        (add_memory_row
           (Memory.mk memory_id (User.id user) (App.id app)
                      (AddResult.memory result) active None)
           (session w)))
     (calls w) (logged w) (ticks w)).
Proof.
  intros user app result memory_id w Hid Hev Hnone.
  unfold process_result, uuid_UUID. rewrite Hid, Hev.
  unfold bind, ret, db_query, modify. simpl. rewrite Hnone. reflexivity.
Qed.

(** An ADD for an id the ledger holds: the row is set active with the new
    content, and a history row is written. *)
Lemma process_result_add_existing : forall user app result memory_id w row,
  uuid_parse (AddResult.id result) = Some memory_id ->
  AddResult.event result = "ADD" ->
  find_memory memory_id (session w) = Some row ->
  process_result user app result w =
  (inr tt,
   mkWorld (stored w)
     (add_history_row
        (MemoryStatusHistory.mk memory_id (User.id user) (Some deleted) active)
        (update_memory memory_id (Memory.set_content (AddResult.memory result))
           (update_memory memory_id (Memory.set_state active) (session w))))
     (calls w) (logged w) (ticks w)).
Proof.
  intros user app result memory_id w row Hid Hev Hsome.
  unfold process_result, uuid_UUID. rewrite Hid, Hev.
  unfold bind, ret, db_query, modify. simpl. rewrite Hsome. reflexivity.
Qed.

(** A DELETE for an id the ledger holds. *)
Lemma process_result_delete_existing : forall user app result memory_id w row,
  uuid_parse (AddResult.id result) = Some memory_id ->
  AddResult.event result = "DELETE" ->
  find_memory memory_id (session w) = Some row ->
  process_result user app result w =
  (inr tt,
   mkWorld (stored w)
     (add_history_row
        (MemoryStatusHistory.mk memory_id (User.id user) (Some active) deleted)
        (update_memory memory_id (Memory.set_deleted_at (clock (ticks w)))
           (update_memory memory_id (Memory.set_state deleted) (session w))))
     (calls w) (logged w) (S (ticks w))).
Proof.
  intros user app result memory_id w row Hid Hev Hsome.
  unfold process_result, uuid_UUID. rewrite Hid, Hev.
  unfold bind, ret, db_query, modify, now. simpl. rewrite Hsome. reflexivity.
Qed.

(** A DELETE for an id the ledger does not hold: nothing happens. *)
Lemma process_result_delete_missing : forall user app result memory_id w,
  uuid_parse (AddResult.id result) = Some memory_id ->
  AddResult.event result = "DELETE" ->
  find_memory memory_id (session w) = None ->
  process_result user app result w = (inr tt, w).
Proof.
  intros user app result memory_id w Hid Hev Hnone.
  unfold process_result, uuid_UUID. rewrite Hid, Hev.
  unfold bind, ret, db_query. simpl. rewrite Hnone. reflexivity.
Qed.

(** Every way one result can be processed. *)
Lemma process_result_inv : forall user app result w r w',
  process_result user app result w = (r, w') ->
  match uuid_parse (AddResult.id result) with
  | None => r = inl (uuid_error (AddResult.id result)) /\ w' = w
  | Some memory_id =>
      r = inr tt /\
      match find_memory memory_id (session w) with
      | None =>
          (AddResult.event result = "ADD" /\
           w' = mkWorld (stored w)
                  (add_history_row
                     (MemoryStatusHistory.mk memory_id (User.id user)
                        (Some deleted) active)
                     (add_memory_row
                        (Memory.mk memory_id (User.id user) (App.id app)
                           (AddResult.memory result) active None)
                        (session w)))
                  (calls w) (logged w) (ticks w))
          \/ (AddResult.event result <> "ADD" /\ w' = w)
      | Some _ =>
          (AddResult.event result = "ADD" /\
           w' = mkWorld (stored w)
                  (add_history_row
                     (MemoryStatusHistory.mk memory_id (User.id user)
                        (Some deleted) active)
                     (update_memory memory_id
                        (Memory.set_content (AddResult.memory result))
                        (update_memory memory_id (Memory.set_state active)
                           (session w))))
                  (calls w) (logged w) (ticks w))
          \/ (AddResult.event result = "DELETE" /\
              w' = mkWorld (stored w)
                     (add_history_row
                        (MemoryStatusHistory.mk memory_id (User.id user)
                           (Some active) deleted)
                        (update_memory memory_id
                           (Memory.set_deleted_at (clock (ticks w)))
                           (update_memory memory_id (Memory.set_state deleted)
                              (session w))))
                     (calls w) (logged w) (S (ticks w)))
          \/ (AddResult.event result <> "ADD" /\
              AddResult.event result <> "DELETE" /\ w' = w)
      end
  end.
Proof.
  intros user app result w r w' H.
  destruct (uuid_parse (AddResult.id result)) as [memory_id|] eqn:Hid.
  - destruct (String.eqb_spec (AddResult.event result) "ADD") as [Ea|Ea].
    + destruct (find_memory memory_id (session w)) as [row|] eqn:Hf.
      * rewrite (process_result_add_existing user app result memory_id w row Hid Ea Hf) in H.
        inversion H; subst. auto.
      * rewrite (process_result_add_new user app result memory_id w Hid Ea Hf) in H.
        inversion H; subst. auto.
    + destruct (String.eqb_spec (AddResult.event result) "DELETE") as [Ed|Ed].
      * destruct (find_memory memory_id (session w)) as [row|] eqn:Hf.
        -- rewrite (process_result_delete_existing user app result memory_id w row Hid Ed Hf) in H.
           inversion H; subst. auto.
        -- rewrite (process_result_delete_missing user app result memory_id w Hid Ed Hf) in H.
           inversion H; subst. auto.
      * unfold process_result, uuid_UUID in H. rewrite Hid in H.
        apply String.eqb_neq in Ea, Ed.
        unfold bind, ret, db_query in H. simpl in H. rewrite Ea, Ed in H.
        apply String.eqb_neq in Ea, Ed.
        inversion H; subst.
        destruct (find_memory memory_id (session w')); auto 6.
  - unfold process_result, uuid_UUID in H. rewrite Hid in H.
    unfold bind, raise in H. inversion H. auto.
Qed.

(** Processing a result only ever appends to the history. *)
Lemma process_result_history : forall user app result w w',
  process_result user app result w = (inr tt, w') ->
  exists added, history (session w') = (history (session w) ++ added)%list.
Proof.
  intros user app result w w' H. apply process_result_inv in H.
  destruct (uuid_parse (AddResult.id result)) as [memory_id|].
  - destruct H as [_ H].
    destruct (find_memory memory_id (session w)).
    + destruct H as [[_ ->]|[[_ ->]|[_ [_ ->]]]]; simpl;
        try (eexists; reflexivity); exists []; now rewrite app_nil_r.
    + destruct H as [[_ ->]|[_ ->]]; simpl;
        try (eexists; reflexivity); exists []; now rewrite app_nil_r.
  - destruct H as [H _]. discriminate.
Qed.

Lemma for_each_history : forall user app results w w',
  for_each results (process_result user app) w = (inr tt, w') ->
  exists added, history (session w') = (history (session w) ++ added)%list.
Proof.
  intros user app results. induction results as [|result rest IH]; intros w w' H.
  - inversion H. exists []. now rewrite app_nil_r.
  - simpl in H. unfold bind in H.
    destruct (process_result user app result w) as [[e|[]] w1] eqn:E; [discriminate|].
    apply process_result_history in E. destruct E as [a1 E1].
    apply IH in H. destruct H as [a2 E2].
    exists (a1 ++ a2)%list. rewrite E2, E1, app_assoc. reflexivity.
Qed.

(** A result that is not an ADD for the memory leaves it marked deleted. *)
Lemma process_result_keeps_deleted : forall user app result memory_id w w',
  process_result user app result w = (inr tt, w') ->
  ~ (AddResult.event result = "ADD" /\
     uuid_parse (AddResult.id result) = Some memory_id) ->
  marked_deleted memory_id (session w) ->
  marked_deleted memory_id (session w').
Proof.
  intros user app result memory_id w w' H Hnot [row [Hf [Hs Hd]]].
  apply process_result_inv in H.
  destruct (uuid_parse (AddResult.id result)) as [other|];
    [|destruct H; discriminate].
  destruct H as [_ H].
  destruct (N.eq_dec other memory_id) as [->|Hne].
  - rewrite Hf in H. destruct H as [[Ea _]|[[_ ->]|[_ [_ ->]]]].
    + exfalso. apply Hnot. split; [exact Ea | reflexivity].
    + simpl. unfold marked_deleted. rewrite find_memory_add_history.
      rewrite !find_memory_update_same, Hf by auto with ledger. simpl.
      eexists. split; [reflexivity|]. split; [reflexivity | discriminate].
    + exists row. auto.
  - assert (Hm : memory_id <> other) by congruence.
    destruct (find_memory other (session w)) as [row'|].
    + destruct H as [[_ ->]|[[_ ->]|[_ [_ ->]]]]; simpl; unfold marked_deleted;
        try rewrite find_memory_add_history;
        try rewrite !find_memory_update_other by auto with ledger;
        exists row; auto.
    + destruct H as [[_ ->]|[_ ->]]; simpl; unfold marked_deleted.
      * rewrite find_memory_add_history, find_memory_add_memory, Hf.
        exists row; auto.
      * exists row; auto.
Qed.

Lemma for_each_keeps_deleted : forall user app memory_id results w w',
  for_each results (process_result user app) w = (inr tt, w') ->
  Forall (fun result => ~ (AddResult.event result = "ADD" /\
                           uuid_parse (AddResult.id result) = Some memory_id))
         results ->
  marked_deleted memory_id (session w) ->
  marked_deleted memory_id (session w').
Proof.
  intros user app memory_id results.
  induction results as [|result rest IH]; intros w w' H Hall Hm.
  - inversion H; subst. exact Hm.
  - simpl in H. unfold bind in H.
    destruct (process_result user app result w) as [[e|[]] w1] eqn:E; [discriminate|].
    inversion Hall; subst.
    eapply IH; eauto. eapply process_result_keeps_deleted; eauto.
Qed.

(** The loop over the results gets through when every id is well formed. *)
Lemma process_result_total : forall user app result w,
  uuid_parse (AddResult.id result) <> None ->
  exists w', process_result user app result w = (inr tt, w').
Proof.
  intros user app result w Hid.
  destruct (process_result user app result w) as [r w'] eqn:E.
  pose proof (process_result_inv _ _ _ _ _ _ E) as H.
  destruct (uuid_parse (AddResult.id result)); [|contradiction].
  destruct H as [-> _]. now exists w'.
Qed.

Lemma for_each_total : forall user app results w,
  Forall (fun result => uuid_parse (AddResult.id result) <> None) results ->
  exists w', for_each results (process_result user app) w = (inr tt, w').
Proof.
  intros user app results. induction results as [|result rest IH]; intros w Hall.
  - now exists w.
  - inversion Hall as [|? ? Hid Hrest]; subst.
    destruct (process_result_total user app result w Hid) as [w1 E].
    destruct (IH w1 Hrest) as [w' E'].
    exists w'. simpl. rewrite (bind_ok _ _ _ _ _ _ _ E). exact E'.
Qed.

(** No result clears a deletion time. *)
Lemma process_result_keeps_deletion_time : forall user app result memory_id w w',
  process_result user app result w = (inr tt, w') ->
  deletion_recorded memory_id (session w) ->
  deletion_recorded memory_id (session w').
Proof.
  intros user app result memory_id w w' H [row [Hf Hd]].
  apply process_result_inv in H.
  destruct (uuid_parse (AddResult.id result)) as [other|];
    [|destruct H; discriminate].
  destruct H as [_ H]. unfold deletion_recorded.
  destruct (N.eq_dec other memory_id) as [->|Hne].
  - rewrite Hf in H.
    destruct H as [[_ ->]|[[_ ->]|[_ [_ ->]]]]; simpl;
      try rewrite find_memory_add_history;
      try rewrite !find_memory_update_same by auto with ledger;
      rewrite Hf; simpl; eexists; (split; [reflexivity|]);
      solve [exact Hd | discriminate].
  - assert (Hm : memory_id <> other) by congruence.
    destruct (find_memory other (session w)) as [row'|].
    + destruct H as [[_ ->]|[[_ ->]|[_ [_ ->]]]]; simpl;
        try rewrite find_memory_add_history;
        try rewrite !find_memory_update_other by auto with ledger;
        exists row; auto.
    + destruct H as [[_ ->]|[_ ->]]; simpl.
      * rewrite find_memory_add_history, find_memory_add_memory, Hf.
        exists row; auto.
      * exists row; auto.
Qed.

Lemma for_each_keeps_deletion_time : forall user app memory_id results w w',
  for_each results (process_result user app) w = (inr tt, w') ->
  deletion_recorded memory_id (session w) ->
  deletion_recorded memory_id (session w').
Proof.
  intros user app memory_id results.
  induction results as [|result rest IH]; intros w w' H Hd.
  - inversion H; subst. exact Hd.
  - simpl in H. unfold bind in H.
    destruct (process_result user app result w) as [[e|[]] w1] eqn:E; [discriminate|].
    eapply IH; eauto. eapply process_result_keeps_deletion_time; eauto.
Qed.

(** ** add_memories as a whole *)

(** A call that reaches the loop over the results and gets through it:
    the reply is the engine's response and the session is committed. *)
Lemma add_memories_run :
  forall memory_client text user_id client_name w db user app results w2,
  get_memory_client_safe = Some memory_client ->
  get_user_and_app (stored w) (or_default user_id DEFAULT_USER_ID)
    (or_default client_name DEFAULT_CLIENT_NAME) = inr (db, user, app) ->
  App.is_active app = true ->
  add memory_client text (or_default user_id DEFAULT_USER_ID)
    [("source_app", "openmemory");
     ("mcp_client", or_default client_name DEFAULT_CLIENT_NAME)] =
  inr (WithResults results) ->
  for_each results (process_result user app)
    (at_results_loop w db text (or_default user_id DEFAULT_USER_ID)
       (or_default client_name DEFAULT_CLIENT_NAME)) = (inr tt, w2) ->
  add_memories text user_id client_name w =
  (inr (ReplyAdd (WithResults results)),
   mkWorld (session w2) (session w2) (calls w2 ++ [db_commit; db_close])
           (logged w2) (ticks w2)).
Proof.
  intros memory_client text user_id client_name w db user app results w2
         Hclient Hresolve Hactive Hadd Hloop.
  unfold add_memories. rewrite Hclient.
  unfold try_except, get_db, try_finally, bind, open_session, resolve, outside.
  simpl. rewrite Hresolve. simpl. rewrite Hactive. simpl. rewrite Hadd.
  unfold at_results_loop in Hloop. rewrite <- !app_assoc. simpl.
  rewrite Hloop. simpl. rewrite <- app_assoc. reflexivity.
Qed.

(** ** The claims about add_memories *)

(** C8: when the resolved App is paused, [add_memories] replies with the
    error that names the App; the only calls it makes are opening the
    session, resolving the identity and closing the session, so the engine's
    [add] is not invoked and nothing is committed; the ledger is the one the
    resolver returned, and with a resolver that leaves the memory, history
    and access-log tables alone these are the tables the call started
    with. *)
Theorem add_memories_paused_app :
  forall memory_client text user_id client_name w db user app,
  get_memory_client_safe = Some memory_client ->
  get_user_and_app (stored w) (or_default user_id DEFAULT_USER_ID)
    (or_default client_name DEFAULT_CLIENT_NAME) = inr (db, user, app) ->
  App.is_active app = false ->
  memories db = memories (stored w) /\ history db = history (stored w) /\
  access_logs db = access_logs (stored w) ->
  exists w',
    add_memories text user_id client_name w =
    (inr (ReplyError
            ("App " ++ App.name app ++
             " is currently paused on OpenMemory. Cannot create new memories.")),
     w') /\
    calls w' =
      (calls w ++
       [SessionLocal;
        resolve_user_and_app (or_default user_id DEFAULT_USER_ID)
          (or_default client_name DEFAULT_CLIENT_NAME);
        db_close])%list /\
    stored w' = db /\ session w' = db /\
    memories (stored w') = memories (stored w) /\
    history (stored w') = history (stored w) /\
    access_logs (stored w') = access_logs (stored w) /\
    logged w' = logged w /\ ticks w' = ticks w.
Proof.
  intros memory_client text user_id client_name w db user app
         Hclient Hresolve Hpaused [Hm [Hh Ha]].
  eexists. split.
  - unfold add_memories. rewrite Hclient.
    unfold try_except, get_db, try_finally, bind, open_session, resolve.
    simpl. rewrite Hresolve. simpl. rewrite Hpaused. simpl. reflexivity.
  - simpl. rewrite <- !app_assoc. simpl. repeat split; auto.
Qed.

(** C3, amended: an ADD event whose id is well formed is processed without
    error; the memory's row then has state active and the returned text as
    content; exactly one history row is appended, for that memory, with new
    state active; when the ledger already held the memory the row's old
    state is deleted, whatever state the ledger held; no access-log row is
    written. *)
Theorem add_event_writes_active_row :
  forall user app result memory_id w,
  uuid_parse (AddResult.id result) = Some memory_id ->
  AddResult.event result = "ADD" ->
  exists w' row h,
    process_result user app result w = (inr tt, w') /\
    find_memory memory_id (session w') = Some row /\
    Memory.state row = active /\
    Memory.content row = AddResult.memory result /\
    history (session w') = (history (session w) ++ [h])%list /\
    MemoryStatusHistory.memory_id h = memory_id /\
    MemoryStatusHistory.new_state h = active /\
    (find_memory memory_id (session w) <> None ->
     MemoryStatusHistory.old_state h = Some deleted) /\
    access_logs (session w') = access_logs (session w).
Proof.
  intros user app result memory_id w Hid Hev.
  destruct (find_memory memory_id (session w)) as [row|] eqn:Hf.
  - rewrite (process_result_add_existing _ _ _ _ _ _ Hid Hev Hf).
    do 3 eexists. split; [reflexivity|]. simpl.
    rewrite find_memory_add_history.
    rewrite !find_memory_update_same, Hf by auto with ledger. simpl.
    repeat split; reflexivity.
  - rewrite (process_result_add_new _ _ _ _ _ Hid Hev Hf).
    do 3 eexists. split; [reflexivity|]. simpl.
    rewrite find_memory_add_history, find_memory_add_memory, Hf. simpl.
    rewrite N.eqb_refl.
    repeat split; reflexivity.
Qed.

(** C4, amended: a DELETE event of the engine's response, for a memory
    the session holds a row of when the results before the event have been
    processed, in a call whose ids are all well formed.  The event is
    processed without
    error: right after it the memory's row is in state deleted with
    [deleted_at] set to the clock's reading, and the history row (active to
    deleted) for the memory is the one row appended.  The call replies with
    the engine's response and commits: the committed history holds that
    row, the committed memory row has a deletion time, and it is in state
    deleted unless a later result of the same response is an ADD for the
    same memory. *)
Theorem delete_event_marks_row_deleted :
  forall memory_client text user_id client_name w db user app
         before result after memory_id,
  get_memory_client_safe = Some memory_client ->
  get_user_and_app (stored w) (or_default user_id DEFAULT_USER_ID)
    (or_default client_name DEFAULT_CLIENT_NAME) = inr (db, user, app) ->
  App.is_active app = true ->
  add memory_client text (or_default user_id DEFAULT_USER_ID)
    [("source_app", "openmemory");
     ("mcp_client", or_default client_name DEFAULT_CLIENT_NAME)] =
  inr (WithResults (before ++ result :: after)) ->
  Forall (fun r => uuid_parse (AddResult.id r) <> None) (before ++ result :: after) ->
  AddResult.event result = "DELETE" ->
  uuid_parse (AddResult.id result) = Some memory_id ->
  find_memory memory_id
    (session
       (snd (for_each before (process_result user app)
               (at_results_loop w db text (or_default user_id DEFAULT_USER_ID)
                  (or_default client_name DEFAULT_CLIENT_NAME))))) <> None ->
  exists w1 w2 w' row,
    for_each before (process_result user app)
      (at_results_loop w db text (or_default user_id DEFAULT_USER_ID)
         (or_default client_name DEFAULT_CLIENT_NAME)) = (inr tt, w1) /\
    process_result user app result w1 = (inr tt, w2) /\
    find_memory memory_id (session w2) = Some row /\
    Memory.state row = deleted /\
    Memory.deleted_at row = Some (clock (ticks w1)) /\
    history (session w2) =
      (history (session w1) ++
       [MemoryStatusHistory.mk memory_id (User.id user) (Some active) deleted])%list /\
    add_memories text user_id client_name w =
      (inr (ReplyAdd (WithResults (before ++ result :: after))), w') /\
    In (MemoryStatusHistory.mk memory_id (User.id user) (Some active) deleted)
       (history (stored w')) /\
    deletion_recorded memory_id (stored w') /\
    (Forall (fun r => ~ (AddResult.event r = "ADD" /\
                         uuid_parse (AddResult.id r) = Some memory_id)) after ->
     marked_deleted memory_id (stored w')).
Proof.
  intros memory_client text user_id client_name w db user app
         before result after memory_id
         Hclient Hresolve Hactive Hadd Hids Hev Hid Hrow.
  set (w0 := at_results_loop w db text (or_default user_id DEFAULT_USER_ID)
               (or_default client_name DEFAULT_CLIENT_NAME)) in *.
  apply Forall_app in Hids. destruct Hids as [Hbefore Hrest].
  inversion Hrest as [|? ? _ Hafter]; subst.
  destruct (for_each_total user app before w0 Hbefore) as [w1 E1].
  rewrite E1 in Hrow. simpl in Hrow.
  destruct (find_memory memory_id (session w1)) as [row1|] eqn:Hf1; [|contradiction].
  pose proof (process_result_delete_existing user app result memory_id w1 row1
                Hid Hev Hf1) as E2.
  set (w2 := mkWorld (stored w1)
               (add_history_row
                  (MemoryStatusHistory.mk memory_id (User.id user) (Some active) deleted)
                  (update_memory memory_id (Memory.set_deleted_at (clock (ticks w1)))
                     (update_memory memory_id (Memory.set_state deleted) (session w1))))
               (calls w1) (logged w1) (S (ticks w1))) in *.
  destruct (for_each_total user app after w2 Hafter) as [w3 E3].
  assert (Hfind2 : find_memory memory_id (session w2) =
                   Some (Memory.set_deleted_at (clock (ticks w1))
                           (Memory.set_state deleted row1))).
  { unfold w2. simpl. rewrite find_memory_add_history.
    rewrite !find_memory_update_same, Hf1 by auto with ledger. reflexivity. }
  assert (Hloop : for_each (before ++ result :: after) (process_result user app) w0 =
                  (inr tt, w3)).
  { rewrite for_each_app, E1. simpl. rewrite (bind_ok _ _ _ _ _ _ _ E2). exact E3. }
  exists w1, w2. eexists. eexists.
  split; [exact E1|]. split; [exact E2|]. split; [exact Hfind2|].
  split; [reflexivity|]. split; [reflexivity|]. split; [reflexivity|].
  split; [exact (add_memories_run _ _ _ _ _ _ _ _ _ _ Hclient Hresolve Hactive Hadd Hloop)|].
  simpl. split; [|split].
  - destruct (for_each_history _ _ _ _ _ E3) as [added Eh].
    rewrite Eh. apply in_or_app. left. unfold w2. simpl.
    apply in_or_app. right. now left.
  - eapply for_each_keeps_deletion_time; [exact E3|].
    eexists. split; [exact Hfind2 | discriminate].
  - intros Hno. eapply for_each_keeps_deleted; [exact E3 | exact Hno |].
    eexists. split; [exact Hfind2|]. split; [reflexivity | discriminate].
Qed.

(** C10: a DELETE event of the engine's response, for a memory the session
    holds no row of when the results before the event have been processed,
    in a call whose ids are all well formed.  Processing the event raises
    nothing and leaves the world as it was: no memory, history or
    access-log row.  The call replies with the engine's response, the event
    included, and ends in the very world that processing the other results
    alone leads to. *)
Theorem delete_event_without_row_is_skipped :
  forall memory_client text user_id client_name w db user app
         before result after memory_id,
  get_memory_client_safe = Some memory_client ->
  get_user_and_app (stored w) (or_default user_id DEFAULT_USER_ID)
    (or_default client_name DEFAULT_CLIENT_NAME) = inr (db, user, app) ->
  App.is_active app = true ->
  add memory_client text (or_default user_id DEFAULT_USER_ID)
    [("source_app", "openmemory");
     ("mcp_client", or_default client_name DEFAULT_CLIENT_NAME)] =
  inr (WithResults (before ++ result :: after)) ->
  Forall (fun r => uuid_parse (AddResult.id r) <> None) (before ++ result :: after) ->
  AddResult.event result = "DELETE" ->
  uuid_parse (AddResult.id result) = Some memory_id ->
  find_memory memory_id
    (session
       (snd (for_each before (process_result user app)
               (at_results_loop w db text (or_default user_id DEFAULT_USER_ID)
                  (or_default client_name DEFAULT_CLIENT_NAME))))) = None ->
  exists w1 w3,
    for_each before (process_result user app)
      (at_results_loop w db text (or_default user_id DEFAULT_USER_ID)
         (or_default client_name DEFAULT_CLIENT_NAME)) = (inr tt, w1) /\
    process_result user app result w1 = (inr tt, w1) /\
    for_each (before ++ after) (process_result user app)
      (at_results_loop w db text (or_default user_id DEFAULT_USER_ID)
         (or_default client_name DEFAULT_CLIENT_NAME)) = (inr tt, w3) /\
    add_memories text user_id client_name w =
      (inr (ReplyAdd (WithResults (before ++ result :: after))),
       mkWorld (session w3) (session w3) (calls w3 ++ [db_commit; db_close])
               (logged w3) (ticks w3)).
Proof.
  intros memory_client text user_id client_name w db user app
         before result after memory_id
         Hclient Hresolve Hactive Hadd Hids Hev Hid Hnone.
  set (w0 := at_results_loop w db text (or_default user_id DEFAULT_USER_ID)
               (or_default client_name DEFAULT_CLIENT_NAME)) in *.
  apply Forall_app in Hids. destruct Hids as [Hbefore Hrest].
  inversion Hrest as [|? ? _ Hafter]; subst.
  destruct (for_each_total user app before w0 Hbefore) as [w1 E1].
  rewrite E1 in Hnone. simpl in Hnone.
  pose proof (process_result_delete_missing user app result memory_id w1
                Hid Hev Hnone) as E2.
  destruct (for_each_total user app after w1 Hafter) as [w3 E3].
  exists w1, w3.
  split; [exact E1|]. split; [exact E2|]. split.
  - rewrite for_each_app, E1. exact E3.
  - apply (add_memories_run _ _ _ _ _ _ _ _ _ _ Hclient Hresolve Hactive Hadd).
    fold w0. rewrite for_each_app, E1. simpl.
    rewrite (bind_ok _ _ _ _ _ _ _ E2). exact E3.
Qed.

(** ** search_memory as a whole *)

Lemma add_access_log_rows_nil : forall db, add_access_log_rows [] db = db.
Proof. intros [u a m h l]. unfold add_access_log_rows. simpl. now rewrite app_nil_r. Qed.

Lemma add_access_log_rows_cons : forall row rows db,
  add_access_log_rows rows (add_access_log_row row db) =
  add_access_log_rows (row :: rows) db.
Proof.
  intros row rows db. unfold add_access_log_rows, add_access_log_row. simpl.
  now rewrite <- app_assoc.
Qed.

Lemma search_hit_run : forall p w,
  search_hit p w =
  (match dict_get "data" (ScoredPoint.payload p) with
   | Some data =>
       inr (SearchHit.mk (ScoredPoint.id p) data
              (dict_get "hash" (ScoredPoint.payload p))
              (dict_get "created_at" (ScoredPoint.payload p))
              (dict_get "updated_at" (ScoredPoint.payload p))
              (ScoredPoint.score p))
   | None => inl (Raise "'data'")
   end, w).
Proof.
  intros p w. unfold search_hit.
  destruct (dict_get "data" (ScoredPoint.payload p)); reflexivity.
Qed.

(** Building the hit dicts touches nothing; each dict carries its point's
    id and score. *)
Lemma map_M_search_hit : forall hits w memories w',
  map_M search_hit hits w = (inr memories, w') ->
  w' = w /\
  Forall2 (fun p hit => SearchHit.id hit = ScoredPoint.id p /\
                        SearchHit.score hit = ScoredPoint.score p /\
                        dict_get "data" (ScoredPoint.payload p) =
                          Some (SearchHit.memory hit))
          hits memories.
Proof.
  induction hits as [|p hits IH]; intros w memories w' H.
  - inversion H; subst. split; [reflexivity | constructor].
  - simpl in H. unfold bind in H. rewrite search_hit_run in H.
    destruct (dict_get "data" (ScoredPoint.payload p)) as [data|] eqn:Hd;
      [|discriminate].
    destruct (map_M search_hit hits w) as [[e|ms] w1] eqn:E; [discriminate|].
    inversion H; subst.
    destruct (IH _ _ _ E) as [-> Hall].
    split; [reflexivity|]. constructor; [|exact Hall]. simpl. auto.
Qed.

(** The logging loop writes one row per hit, in order. *)
Lemma search_log_loop : forall app query memories w w',
  for_each memories
    (fun memory =>
       memory_id <- uuid_UUID (SearchHit.id memory) ;;
       modify (add_access_log_row (search_log app query memory_id memory))) w =
  (inr tt, w') ->
  exists rows,
    Forall2 (fun memory row =>
               exists memory_id,
                 uuid_parse (SearchHit.id memory) = Some memory_id /\
                 row = search_log app query memory_id memory)
            memories rows /\
    w' = mkWorld (stored w) (add_access_log_rows rows (session w))
                 (calls w) (logged w) (ticks w).
Proof.
  intros app query memories.
  induction memories as [|memory rest IH]; intros w w' H.
  - inversion H; subst. exists []. split; [constructor|].
    rewrite add_access_log_rows_nil. now destruct w'.
  - simpl in H. unfold bind at 1 2 in H. unfold uuid_UUID in H.
    destruct (uuid_parse (SearchHit.id memory)) as [memory_id|] eqn:Hid;
      [|discriminate].
    unfold ret, modify in H. simpl in H.
    apply IH in H. destruct H as [rows [Hall ->]]. simpl.
    exists (search_log app query memory_id memory :: rows). split.
    + constructor; [|exact Hall]. exists memory_id. auto.
    + rewrite add_access_log_rows_cons. reflexivity.
Qed.

Lemma search_memory_inv : forall query user_id client_name w memories w',
  search_memory query user_id client_name w = (inr (ReplySearch memories), w') ->
  exists memory_client db user app embeddings hits rows,
    get_memory_client_safe = Some memory_client /\
    get_user_and_app (stored w) (or_default user_id DEFAULT_USER_ID)
      (or_default client_name DEFAULT_CLIENT_NAME) = inr (db, user, app) /\
    embed memory_client query "search" = inr embeddings /\
    query_points memory_client (collection_name memory_client) embeddings
      (search_filter (or_default user_id DEFAULT_USER_ID)
         (accessible_ids db user app)) 10 = inr hits /\
    Forall2 (fun p hit => SearchHit.id hit = ScoredPoint.id p /\
                          SearchHit.score hit = ScoredPoint.score p /\
                          dict_get "data" (ScoredPoint.payload p) =
                            Some (SearchHit.memory hit))
            hits memories /\
    Forall2 (fun memory row =>
               exists memory_id,
                 uuid_parse (SearchHit.id memory) = Some memory_id /\
                 row = search_log app query memory_id memory)
            memories rows /\
    w' = mkWorld (add_access_log_rows rows db) (add_access_log_rows rows db)
           (calls w ++
            [SessionLocal;
             resolve_user_and_app (or_default user_id DEFAULT_USER_ID)
               (or_default client_name DEFAULT_CLIENT_NAME);
             embedding_embed query "search";
             client_query_points (collection_name memory_client) embeddings
               (search_filter (or_default user_id DEFAULT_USER_ID)
                  (accessible_ids db user app)) 10;
             db_commit; db_close])
           (logged w) (ticks w).
Proof.
  intros query user_id client_name w memories w' H.
  unfold search_memory in H.
  destruct get_memory_client_safe as [memory_client|]; [|discriminate].
  unfold try_except, get_db, try_finally, open_session, resolve in H.
  unfold bind at 1 2 in H. simpl in H.
  destruct (get_user_and_app (stored w) (or_default user_id DEFAULT_USER_ID)
              (or_default client_name DEFAULT_CLIENT_NAME))
    as [e|[[db user] app]] eqn:Hresolve; [discriminate|].
  unfold accessible_memory_ids, db_query, outside in H.
  unfold bind at 1 2 3 4 5 in H. unfold ret at 1 in H. simpl in H.
  fold (memories_of_user (User.id user) db) in H.
  fold (accessible_ids db user app) in H.
  destruct (embed memory_client query "search") as [e|embeddings] eqn:Hembed;
    [discriminate|].
  unfold bind at 1 in H. simpl in H.
  destruct (query_points memory_client (collection_name memory_client) embeddings
              (search_filter (or_default user_id DEFAULT_USER_ID)
                 (accessible_ids db user app)) 10) as [e|hits] eqn:Hquery;
    [discriminate|].
  unfold bind at 1 in H.
  match type of H with context [map_M search_hit hits ?w0] =>
    destruct (map_M search_hit hits w0) as [[e|ms] w1] eqn:Hmap end;
    [discriminate|].
  destruct (map_M_search_hit _ _ _ _ Hmap) as [-> Hhits].
  unfold bind at 1 in H.
  match type of H with context [for_each ms ?body ?w0] =>
    destruct (for_each ms body w0) as [[e|[]] w2] eqn:Hloop end;
    [discriminate|].
  apply search_log_loop in Hloop. destruct Hloop as [rows [Hrows ->]].
  unfold bind, commit, ret, close in H. simpl in H.
  inversion H; subst.
  exists memory_client, db, user, app, embeddings, hits, rows.
  repeat split; auto.
  rewrite <- !app_assoc. reflexivity.
Qed.

(** C1: in a call of [search_memory] that returns hits, with a vector store
    that honours its query filter and a non-empty accessible id list: the
    call issues one query, whose filter demands the user id and an id among
    exactly the accessible ids (as text), and the id of every returned hit
    is the text of an accessible id. *)
Theorem search_results_within_accessible_ids :
  forall memory_client query user_id client_name w db user app memories w',
  get_memory_client_safe = Some memory_client ->
  honours_filter memory_client ->
  get_user_and_app (stored w) (or_default user_id DEFAULT_USER_ID)
    (or_default client_name DEFAULT_CLIENT_NAME) = inr (db, user, app) ->
  accessible_ids db user app <> [] ->
  search_memory query user_id client_name w = (inr (ReplySearch memories), w') ->
  (exists embeddings,
     calls w' =
     (calls w ++
      [SessionLocal;
       resolve_user_and_app (or_default user_id DEFAULT_USER_ID)
         (or_default client_name DEFAULT_CLIENT_NAME);
       embedding_embed query "search";
       client_query_points (collection_name memory_client) embeddings
         (mkFilter
            [FieldCondition "user_id" (or_default user_id DEFAULT_USER_ID);
             HasIdCondition (map uuid_str (accessible_ids db user app))]) 10;
       db_commit; db_close])%list) /\
  Forall (fun hit =>
            exists memory_id,
              In memory_id (accessible_ids db user app) /\
              SearchHit.id hit = uuid_str memory_id)
         memories.
Proof.
  intros memory_client query user_id client_name w db user app memories w'
         Hclient Hhonours Hresolve Hnonempty Hrun.
  apply search_memory_inv in Hrun.
  destruct Hrun as (mc & db' & user' & app' & embeddings & hits & rows &
                    Hc & Hr & Hembed & Hquery & Hhits & _ & ->).
  rewrite Hclient in Hc. inversion Hc; subst mc.
  rewrite Hresolve in Hr. inversion Hr; subst db' user' app'.
  assert (Hfilter :
            search_filter (or_default user_id DEFAULT_USER_ID)
              (accessible_ids db user app) =
            mkFilter
              [FieldCondition "user_id" (or_default user_id DEFAULT_USER_ID);
               HasIdCondition (map uuid_str (accessible_ids db user app))]).
  { unfold search_filter.
    destruct (accessible_ids db user app); [contradiction | reflexivity]. }
  rewrite Hfilter in *. split.
  - exists embeddings. reflexivity.
  - apply Hhonours in Hquery. clear Hembed Hfilter.
    induction Hhits as [|p hit hits memories [Hid _] _ IH]; [constructor|].
    inversion Hquery as [|? ? Hp Hrest]; subst.
    constructor; [|exact (IH Hrest)].
    unfold passes in Hp. simpl in Hp.
    apply andb_prop in Hp. destruct Hp as [_ Hp].
    apply andb_prop in Hp. destruct Hp as [Hp _].
    apply existsb_exists in Hp. destruct Hp as [s [Hin Heq]].
    apply String.eqb_eq in Heq. subst s.
    apply in_map_iff in Hin. destruct Hin as [memory_id [Hs Hin]].
    exists memory_id. split; [exact Hin | congruence].
Qed.

(** C6: in a call of [search_memory] that returns hits, the access-log rows
    the call commits beyond those the resolved ledger held pair off with the
    returned hits, one row per hit in order: each has access type "search",
    the call's query text and its hit's score in its metadata, its hit's id
    as memory id and the resolved App as app id.  The memory and history
    tables are not written. *)
Theorem search_hits_logged_once :
  forall query user_id client_name w db user app found w',
  get_user_and_app (stored w) (or_default user_id DEFAULT_USER_ID)
    (or_default client_name DEFAULT_CLIENT_NAME) = inr (db, user, app) ->
  search_memory query user_id client_name w = (inr (ReplySearch found), w') ->
  exists rows,
    access_logs (stored w') = (access_logs db ++ rows)%list /\
    Forall2 (fun memory row =>
               MemoryAccessLog.access_type row = "search" /\
               dict_get "query" (MemoryAccessLog.metadata_ row) =
                 Some (VStr query) /\
               dict_get "score" (MemoryAccessLog.metadata_ row) =
                 Some (VFloat (SearchHit.score memory)) /\
               uuid_parse (SearchHit.id memory) =
                 Some (MemoryAccessLog.memory_id row) /\
               MemoryAccessLog.app_id row = App.id app)
            found rows /\
    memories (stored w') = memories db /\
    history (stored w') = history db.
Proof.
  intros query user_id client_name w db user app found w' Hresolve Hrun.
  apply search_memory_inv in Hrun.
  destruct Hrun as (mc & db' & user' & app' & embeddings & hits & rows &
                    _ & Hr & _ & _ & _ & Hrows & ->).
  rewrite Hresolve in Hr. inversion Hr; subst db' user' app'.
  exists rows. simpl. repeat split; try reflexivity.
  clear Hresolve Hr.
  induction Hrows as [|memory row found rows [memory_id [Hid ->]] _ IH];
    constructor; [|exact IH].
  simpl. auto.
Qed.

(** ** list_memories as a whole *)

(** Whether [list_memories] keeps an engine entry: its id is well formed
    and among the accessible ids. *)
Lemma uuid_in_In : forall x ids, uuid_in x ids = true <-> In x ids.
Proof.
  intros x ids. unfold uuid_in. rewrite existsb_exists. split.
  - intros [y [Hin Heq]]. apply N.eqb_eq in Heq. now subst.
  - intros Hin. exists x. split; [exact Hin | apply N.eqb_refl].
Qed.

(** The loop of [list_memories]: the entries kept are those whose id is
    among the accessible ids, in the engine's order, and one row is written
    per entry kept. *)
Lemma filter_and_log_inv : forall app ids memories_list w filtered w',
  filter_and_log app ids memories_list w = (inr filtered, w') ->
  Forall (fun memory => uuid_parse (EngineMemory.id memory) <> None) memories_list /\
  filtered =
    filter (fun memory =>
              match uuid_parse (EngineMemory.id memory) with
              | Some memory_id => uuid_in memory_id ids
              | None => false
              end) memories_list /\
  exists rows,
    Forall2 (fun memory row =>
               exists memory_id,
                 uuid_parse (EngineMemory.id memory) = Some memory_id /\
                 In memory_id ids /\
                 row = list_log app memory_id memory)
            filtered rows /\
    w' = mkWorld (stored w) (add_access_log_rows rows (session w))
                 (calls w) (logged w) (ticks w).
Proof.
  intros app ids memories_list.
  induction memories_list as [|memory rest IH]; intros w filtered w' H.
  - inversion H; subst. split; [constructor|]. split; [reflexivity|].
    exists []. split; [constructor|].
    rewrite add_access_log_rows_nil. now destruct w'.
  - simpl in H. unfold bind at 1 in H. unfold uuid_UUID in H.
    destruct (uuid_parse (EngineMemory.id memory)) as [memory_id|] eqn:Hid;
      [|discriminate].
    unfold ret at 1 in H.
    destruct (uuid_in memory_id ids) eqn:Hin.
    + unfold bind at 1 2 in H. unfold modify in H.
      match type of H with context [filter_and_log app ids rest ?w0] =>
        destruct (filter_and_log app ids rest w0) as [[e|kept] w1] eqn:E end;
        [discriminate|].
      inversion H; subst.
      destruct (IH _ _ _ E) as [Hparse [-> [rows [Hrows ->]]]].
      split; [constructor; [congruence | exact Hparse]|].
      split; [simpl; rewrite Hid, Hin; reflexivity|].
      exists (list_log app memory_id memory :: rows). split.
      * constructor; [|exact Hrows].
        exists memory_id. split; [exact Hid|]. split; [|reflexivity].
        now apply uuid_in_In.
      * cbn [session stored calls logged ticks].
        rewrite add_access_log_rows_cons. reflexivity.
    + destruct (IH _ _ _ H) as [Hparse [-> [rows [Hrows ->]]]].
      split; [constructor; [congruence | exact Hparse]|].
      split; [simpl; rewrite Hid, Hin; reflexivity|]. exists rows. auto.
Qed.

Lemma list_memories_inv : forall user_id client_name w filtered w',
  list_memories user_id client_name w = (inr (ReplyList filtered), w') ->
  exists memory_client db user app response rows,
    get_memory_client_safe = Some memory_client /\
    get_user_and_app (stored w) (or_default user_id DEFAULT_USER_ID)
      (or_default client_name DEFAULT_CLIENT_NAME) = inr (db, user, app) /\
    get_all memory_client (or_default user_id DEFAULT_USER_ID) = inr response /\
    Forall (fun memory => uuid_parse (EngineMemory.id memory) <> None)
           (entries response) /\
    filtered =
      filter (fun memory =>
                match uuid_parse (EngineMemory.id memory) with
                | Some memory_id => uuid_in memory_id (accessible_ids db user app)
                | None => false
                end) (entries response) /\
    Forall2 (fun memory row =>
               exists memory_id,
                 uuid_parse (EngineMemory.id memory) = Some memory_id /\
                 In memory_id (accessible_ids db user app) /\
                 row = list_log app memory_id memory)
            filtered rows /\
    w' = mkWorld (add_access_log_rows rows db) (add_access_log_rows rows db)
           (calls w ++
            [SessionLocal;
             resolve_user_and_app (or_default user_id DEFAULT_USER_ID)
               (or_default client_name DEFAULT_CLIENT_NAME);
             client_get_all (or_default user_id DEFAULT_USER_ID);
             db_commit; db_close])
           (logged w) (ticks w).
Proof.
  intros user_id client_name w filtered w' H.
  unfold list_memories in H.
  destruct get_memory_client_safe as [memory_client|]; [|discriminate].
  unfold try_except, get_db, try_finally, open_session, resolve in H.
  unfold bind at 1 2 in H. simpl in H.
  destruct (get_user_and_app (stored w) (or_default user_id DEFAULT_USER_ID)
              (or_default client_name DEFAULT_CLIENT_NAME))
    as [e|[[db user] app]] eqn:Hresolve; [discriminate|].
  unfold outside in H. unfold bind at 1 in H. simpl in H.
  destruct (get_all memory_client (or_default user_id DEFAULT_USER_ID))
    as [e|response] eqn:Hall; [discriminate|].
  unfold accessible_memory_ids, db_query in H.
  unfold bind at 1 2 3 in H. unfold ret at 1 in H. simpl in H.
  fold (memories_of_user (User.id user) db) in H.
  fold (accessible_ids db user app) in H.
  unfold bind at 1 in H.
  match type of H with context [filter_and_log app ?ids ?l ?w0] =>
    destruct (filter_and_log app ids l w0) as [[e|kept] w1] eqn:Hloop end;
    [discriminate|].
  apply filter_and_log_inv in Hloop.
  destruct Hloop as [Hparse [-> [rows [Hrows ->]]]].
  unfold bind, commit, ret, close in H. simpl in H.
  inversion H; subst.
  exists memory_client, db, user, app, response, rows.
  repeat split; auto.
  rewrite <- !app_assoc. reflexivity.
Qed.

Lemma NoDup_map_filter : forall (A B : Type) (f : A -> B) (p : A -> bool) l,
  NoDup (map f l) -> NoDup (map f (filter p l)).
Proof.
  intros A B f p l. induction l as [|x l IH]; intros H.
  - constructor.
  - simpl in H. inversion H as [|? ? Hnotin Hnodup]; subst. simpl.
    destruct (p x).
    + simpl. constructor; [|exact (IH Hnodup)].
      intros Hin. apply Hnotin. apply in_map_iff in Hin.
      destruct Hin as [y [Hy Hin]]. apply filter_In in Hin.
      apply in_map_iff. exists y. split; [exact Hy | apply Hin].
    + exact (IH Hnodup).
Qed.

(** C7, amended: in a call of [list_memories] that returns entries, every
    returned entry has a well-formed id that is among the accessible ids;
    the access-log rows the call commits beyond those the resolved ledger
    held pair off with the returned entries, one row per entry in order,
    each with access type "list", its entry's id and the resolved App; the
    reply has no more entries than the engine returned, and, when the
    engine's entries have pairwise distinct ids, no more entries than there
    are distinct accessible ids. *)
Theorem list_memories_within_accessible_ids :
  forall memory_client user_id client_name w db user app response filtered w',
  get_memory_client_safe = Some memory_client ->
  get_user_and_app (stored w) (or_default user_id DEFAULT_USER_ID)
    (or_default client_name DEFAULT_CLIENT_NAME) = inr (db, user, app) ->
  get_all memory_client (or_default user_id DEFAULT_USER_ID) = inr response ->
  list_memories user_id client_name w = (inr (ReplyList filtered), w') ->
  Forall (fun memory =>
            exists memory_id,
              uuid_parse (EngineMemory.id memory) = Some memory_id /\
              In memory_id (accessible_ids db user app))
         filtered /\
  (exists rows,
     access_logs (stored w') = (access_logs db ++ rows)%list /\
     Forall2 (fun memory row =>
                MemoryAccessLog.access_type row = "list" /\
                uuid_parse (EngineMemory.id memory) =
                  Some (MemoryAccessLog.memory_id row) /\
                MemoryAccessLog.app_id row = App.id app)
             filtered rows) /\
  length filtered <= length (entries response) /\
  (NoDup (map (fun memory => uuid_parse (EngineMemory.id memory))
              (entries response)) ->
   length filtered <= length (nodup N.eq_dec (accessible_ids db user app))).
Proof.
  intros memory_client user_id client_name w db user app response filtered w'
         Hclient Hresolve Hall Hrun.
  apply list_memories_inv in Hrun.
  destruct Hrun as (mc & db' & user' & app' & response' & rows &
                    Hc & Hr & Ha & Hparse & Hfiltered & Hrows & ->).
  rewrite Hclient in Hc. inversion Hc; subst mc.
  rewrite Hresolve in Hr. inversion Hr; subst db' user' app'.
  rewrite Hall in Ha. inversion Ha; subst response'.
  assert (Hmember :
            Forall (fun memory =>
                      exists memory_id,
                        uuid_parse (EngineMemory.id memory) = Some memory_id /\
                        In memory_id (accessible_ids db user app)) filtered).
  { clear Hfiltered.
    induction Hrows as [|memory row kept rows [memory_id [Hid [Hin _]]] _ IH];
      constructor; [|exact IH].
    exists memory_id. auto. }
  split; [exact Hmember|]. split; [|split].
  - exists rows. split; [reflexivity|].
    clear Hfiltered Hmember.
    induction Hrows as [|memory row kept rows [memory_id [Hid [_ ->]]] _ IH];
      constructor; [|exact IH].
    simpl. auto.
  - rewrite Hfiltered. apply filter_length_le.
  - intros Hdistinct.
    assert (Hle : length (map (fun memory => uuid_parse (EngineMemory.id memory))
                              filtered) <=
                  length (map (@Some UUID)
                              (nodup N.eq_dec (accessible_ids db user app))));
      [|rewrite !length_map in Hle; exact Hle].
    apply NoDup_incl_length.
    + rewrite Hfiltered. apply NoDup_map_filter. exact Hdistinct.
    + intros x Hx. apply in_map_iff in Hx. destruct Hx as [memory [Hx Hin]].
      rewrite Forall_forall in Hmember.
      destruct (Hmember memory Hin) as [memory_id [Hid Hacc]].
      apply in_map_iff. exists memory_id. split; [congruence|].
      apply nodup_In. exact Hacc.
Qed.

(** ** delete_all_memories as a whole *)

(** The first loop asks the engine for every id, whatever the answers, and
    raises nothing; a failed delete leaves a warning. *)
Lemma delete_each_run : forall memory_client ids requested w,
  exists warnings,
    delete_each memory_client requested ids w =
    (inr tt,
     mkWorld (stored w) (session w) (calls w ++ map client_delete ids)
             (logged w ++ warnings) (ticks w)) /\
    Forall (fun r => level r = WARNING) warnings /\
    length warnings <= length ids.
Proof.
  intros memory_client ids.
  induction ids as [|memory_id rest IH]; intros requested w.
  - exists []. simpl. rewrite !app_nil_r. split; [now destruct w|].
    split; [constructor | lia].
  - simpl. unfold bind at 1. unfold try_except, outside.
    destruct (delete memory_client requested memory_id) as [e|[]].
    + unfold log at 1.
      match goal with |- context [delete_each _ ?rq rest ?w0] =>
        destruct (IH rq w0) as [warnings [E [Hw Hlen]]] end.
      rewrite E. simpl.
      eexists (_ :: warnings). rewrite <- !app_assoc. simpl.
      split; [reflexivity|]. split; [constructor; [reflexivity | exact Hw] | lia].
    + match goal with |- context [delete_each _ ?rq rest ?w0] =>
        destruct (IH rq w0) as [warnings [E [Hw Hlen]]] end.
      rewrite E. simpl.
      exists warnings. rewrite <- !app_assoc. simpl.
      split; [reflexivity|]. split; [exact Hw | lia].
Qed.

Lemma mark_deleted_run : forall user app t memory_id w row,
  find_memory memory_id (session w) = Some row ->
  mark_deleted user app t memory_id w =
  (inr tt,
   mkWorld (stored w) (marked user app t memory_id (session w))
           (calls w) (logged w) (ticks w)).
Proof.
  intros user app t memory_id w row Hf.
  unfold mark_deleted, bind, db_query, modify. simpl. rewrite Hf. reflexivity.
Qed.

Lemma find_memory_marked_same : forall user app t memory_id db,
  find_memory memory_id (marked user app t memory_id db) =
  option_map (fun row => Memory.set_deleted_at t (Memory.set_state deleted row))
             (find_memory memory_id db).
Proof.
  intros. unfold marked.
  rewrite find_memory_add_access_log, find_memory_add_history.
  rewrite !find_memory_update_same by auto with ledger.
  destruct (find_memory memory_id db); reflexivity.
Qed.

Lemma find_memory_marked_other : forall user app t memory_id other db,
  other <> memory_id ->
  find_memory other (marked user app t memory_id db) = find_memory other db.
Proof.
  intros. unfold marked.
  rewrite find_memory_add_access_log, find_memory_add_history.
  rewrite !find_memory_update_other by auto with ledger. reflexivity.
Qed.

Lemma marked_keeps_row : forall user app t memory_id other db,
  find_memory other db <> None ->
  find_memory other (marked user app t memory_id db) <> None.
Proof.
  intros user app t memory_id other db H.
  destruct (N.eq_dec other memory_id) as [->|Hne].
  - rewrite find_memory_marked_same.
    destruct (find_memory memory_id db); [discriminate | contradiction].
  - now rewrite find_memory_marked_other.
Qed.

Lemma marked_keeps_deleted : forall user app t memory_id other db,
  deleted_at_time t other db ->
  deleted_at_time t other (marked user app t memory_id db).
Proof.
  intros user app t memory_id other db [row [Hf [Hs Hd]]].
  unfold deleted_at_time.
  destruct (N.eq_dec other memory_id) as [->|Hne].
  - rewrite find_memory_marked_same, Hf. simpl.
    eexists. split; [reflexivity|]. split; reflexivity.
  - rewrite find_memory_marked_other by exact Hne. exists row. auto.
Qed.

(** The second loop, over ids the ledger holds: it raises nothing, marks
    every id deleted at time [t], appends one history row and one access-log
    row per id, in order, and leaves the other memories alone. *)
Lemma mark_all_run : forall user app t ids w,
  Forall (fun memory_id => find_memory memory_id (session w) <> None) ids ->
  exists db',
    for_each ids (mark_deleted user app t) w =
    (inr tt, mkWorld (stored w) db' (calls w) (logged w) (ticks w)) /\
    history db' = (history (session w) ++ map (delete_history user) ids)%list /\
    access_logs db' = (access_logs (session w) ++ map (delete_log app) ids)%list /\
    (forall memory_id, In memory_id ids -> deleted_at_time t memory_id db') /\
    (forall memory_id, deleted_at_time t memory_id (session w) ->
                       deleted_at_time t memory_id db') /\
    (forall memory_id, ~ In memory_id ids ->
                       find_memory memory_id db' = find_memory memory_id (session w)).
Proof.
  intros user app t ids.
  induction ids as [|memory_id rest IH]; intros w Hfound.
  - exists (session w). simpl. rewrite !app_nil_r.
    split; [now destruct w|]. repeat split; auto. intros ? [].
  - inversion Hfound as [|? ? Hid Hrest]; subst.
    destruct (find_memory memory_id (session w)) as [row|] eqn:Hf; [|contradiction].
    pose proof (mark_deleted_run user app t memory_id w row Hf) as E1.
    set (w1 := mkWorld (stored w) (marked user app t memory_id (session w))
                       (calls w) (logged w) (ticks w)) in *.
    assert (Hfound1 : Forall (fun other => find_memory other (session w1) <> None) rest).
    { apply Forall_forall. intros other Hin. rewrite Forall_forall in Hrest.
      apply marked_keeps_row. now apply Hrest. }
    destruct (IH w1 Hfound1) as [db' [E [Hh [Ha [Hin [Hkeep Hother]]]]]].
    exists db'. simpl. rewrite (bind_ok _ _ _ _ _ _ _ E1).
    split; [exact E|]. split; [|split; [|split; [|split]]].
    + rewrite Hh. simpl. rewrite <- app_assoc. reflexivity.
    + rewrite Ha. simpl. rewrite <- app_assoc. reflexivity.
    + intros other [<-|Hin'].
      * apply Hkeep. unfold deleted_at_time. simpl.
        rewrite find_memory_marked_same, Hf. simpl.
        eexists. split; [reflexivity|]. split; reflexivity.
      * now apply Hin.
    + intros other Hd. apply Hkeep. simpl. now apply marked_keeps_deleted.
    + intros other Hnot. rewrite Hother by (intros Hc; apply Hnot; now right).
      simpl. apply find_memory_marked_other.
      intros ->. apply Hnot. now left.
Qed.

(** Every accessible id is the id of a row of the ledger, owned by the user
    and accepted by the access predicate; the row's state plays no part. *)
Lemma accessible_ids_spec : forall db user app memory_id,
  In memory_id (accessible_ids db user app) <->
  exists memory,
    In memory (memories db) /\
    Memory.id memory = memory_id /\
    Memory.user_id memory = User.id user /\
    check_memory_access_permissions db memory (App.id app) = true.
Proof.
  intros db user app memory_id. unfold accessible_ids, memories_of_user.
  rewrite in_map_iff. split.
  - intros [memory [Hid Hin]]. apply filter_In in Hin. destruct Hin as [Hin Hc].
    apply filter_In in Hin. destruct Hin as [Hin Hu]. apply N.eqb_eq in Hu.
    exists memory. auto.
  - intros [memory [Hin [Hid [Hu Hc]]]]. exists memory. split; [exact Hid|].
    apply filter_In. split; [|exact Hc].
    apply filter_In. split; [exact Hin|]. now apply N.eqb_eq.
Qed.

Lemma accessible_ids_found : forall db user app,
  Forall (fun memory_id => find_memory memory_id db <> None)
         (accessible_ids db user app).
Proof.
  intros db user app. apply Forall_forall. intros memory_id Hin.
  apply accessible_ids_spec in Hin. destruct Hin as [memory [Hin [Hid _]]].
  unfold find_memory. intros Hnone.
  apply (find_none _ _ Hnone) in Hin. apply N.eqb_neq in Hin. contradiction.
Qed.

(** With memory ids that are pairwise distinct, as a primary key makes them,
    the accessible ids are pairwise distinct. *)
Lemma accessible_ids_NoDup : forall db user app,
  NoDup (map Memory.id (memories db)) ->
  NoDup (accessible_ids db user app).
Proof.
  intros db user app H. unfold accessible_ids, memories_of_user.
  now do 2 apply NoDup_map_filter.
Qed.

Lemma delete_all_memories_run : forall memory_client user_id client_name w db user app,
  get_memory_client_safe = Some memory_client ->
  get_user_and_app (stored w) (or_default user_id DEFAULT_USER_ID)
    (or_default client_name DEFAULT_CLIENT_NAME) = inr (db, user, app) ->
  exists db' warnings,
    delete_all_memories user_id client_name w =
    (inr (ReplyMessage "Successfully deleted all memories"),
     mkWorld db' db'
       (calls w ++
        [SessionLocal;
         resolve_user_and_app (or_default user_id DEFAULT_USER_ID)
           (or_default client_name DEFAULT_CLIENT_NAME)] ++
        map client_delete (accessible_ids db user app) ++
        [db_commit; db_close])
       (logged w ++ warnings) (S (ticks w))) /\
    Forall (fun r => level r = WARNING) warnings /\
    history db' =
      (history db ++ map (delete_history user) (accessible_ids db user app))%list /\
    access_logs db' =
      (access_logs db ++ map (delete_log app) (accessible_ids db user app))%list /\
    (forall memory_id, In memory_id (accessible_ids db user app) ->
                       deleted_at_time (clock (ticks w)) memory_id db') /\
    (forall memory_id, ~ In memory_id (accessible_ids db user app) ->
                       find_memory memory_id db' = find_memory memory_id db).
Proof.
  intros memory_client user_id client_name w db user app Hclient Hresolve.
  unfold delete_all_memories. rewrite Hclient.
  unfold try_except, get_db, try_finally, open_session, resolve.
  unfold bind at 1 2. simpl. rewrite Hresolve.
  unfold accessible_memory_ids, db_query.
  unfold bind at 1 2 3. unfold ret at 1. simpl.
  fold (memories_of_user (User.id user) db).
  fold (accessible_ids db user app).
  unfold bind at 1.
  match goal with |- context [delete_each memory_client [] ?ids ?w0] =>
    destruct (delete_each_run memory_client ids [] w0) as [warnings [E1 [Hw _]]] end.
  rewrite E1. unfold bind at 1. unfold now at 1. simpl.
  unfold bind at 1.
  match goal with |- context [for_each ?ids (mark_deleted user app ?t) ?w0] =>
    destruct (mark_all_run user app t ids w0 (accessible_ids_found db user app))
      as [db' [E2 [Hh [Ha [Hin Hother]]]]] end.
  simpl in E2. rewrite E2.
  unfold bind, commit, ret, close. simpl.
  exists db', warnings. rewrite <- !app_assoc. simpl.
  split; [reflexivity|]. destruct Hother as [_ Hother]. auto.
Qed.

(** C5: a call of [delete_all_memories] with the engine available and the
    identity resolved, whatever the engine answers to each delete.  The call
    asks the engine to delete every accessible id, one request per id and
    none skipped after a failure, then commits and replies with the success
    message; each failure only leaves a warning in the log.  In the
    committed ledger every accessible id has its row in state deleted with
    [deleted_at] set to the clock's reading; the history gained one row per
    accessible id (active to deleted, by the user) and the access log one
    row per accessible id (access type "delete_all"), in the order of the
    ids; and the accessible ids are pairwise distinct when the memory ids of
    the ledger are, so that each id has one row of each kind. *)
Theorem delete_all_marks_every_accessible_memory :
  forall memory_client user_id client_name w db user app,
  get_memory_client_safe = Some memory_client ->
  get_user_and_app (stored w) (or_default user_id DEFAULT_USER_ID)
    (or_default client_name DEFAULT_CLIENT_NAME) = inr (db, user, app) ->
  exists w' warnings,
    delete_all_memories user_id client_name w =
      (inr (ReplyMessage "Successfully deleted all memories"), w') /\
    calls w' =
      (calls w ++
       [SessionLocal;
        resolve_user_and_app (or_default user_id DEFAULT_USER_ID)
          (or_default client_name DEFAULT_CLIENT_NAME)] ++
       map client_delete (accessible_ids db user app) ++
       [db_commit; db_close])%list /\
    logged w' = (logged w ++ warnings)%list /\
    Forall (fun r => level r = WARNING) warnings /\
    Forall (fun memory_id =>
              exists row,
                find_memory memory_id (stored w') = Some row /\
                Memory.state row = deleted /\
                Memory.deleted_at row = Some (clock (ticks w)))
           (accessible_ids db user app) /\
    history (stored w') =
      (history db ++
       map (fun memory_id =>
              MemoryStatusHistory.mk memory_id (User.id user) (Some active) deleted)
           (accessible_ids db user app))%list /\
    access_logs (stored w') =
      (access_logs db ++
       map (fun memory_id =>
              MemoryAccessLog.mk memory_id (App.id app) "delete_all"
                [("operation", VStr "bulk_delete")])
           (accessible_ids db user app))%list /\
    (NoDup (map Memory.id (memories db)) -> NoDup (accessible_ids db user app)).
Proof.
  intros memory_client user_id client_name w db user app Hclient Hresolve.
  destruct (delete_all_memories_run memory_client user_id client_name w db user app
              Hclient Hresolve)
    as (db' & warnings & E & Hw & Hh & Ha & Hin & _).
  eexists. exists warnings. split; [exact E|]. simpl.
  split; [reflexivity|]. split; [reflexivity|]. split; [exact Hw|].
  split; [|split; [exact Hh | split; [exact Ha | apply accessible_ids_NoDup]]].
  apply Forall_forall. intros memory_id Hacc. exact (Hin memory_id Hacc).
Qed.


Lemma filter_implied : forall (A : Type) (f g : A -> bool) l,
  (forall x, In x l -> f x = true -> g x = true) ->
  filter f (filter g l) = filter f l.
Proof.
  intros A f g l H. induction l as [|x l IH]; simpl; [reflexivity|].
  assert (IH' : filter f (filter g l) = filter f l)
    by (apply IH; intros y Hy; apply H; now right).
  destruct (g x) eqn:Hg; simpl.
  - now rewrite IH'.
  - destruct (f x) eqn:Hf; [|exact IH'].
    rewrite (H x (or_introl eq_refl) Hf) in Hg. discriminate.
Qed.



(** ** What every step keeps *)

Lemma map_id_update_first : forall memory_id f rows,
  (forall m, Memory.id (f m) = Memory.id m) ->
  map Memory.id (update_first memory_id f rows) = map Memory.id rows.
Proof.
  intros memory_id f rows Hid. induction rows as [|m rows IH]; simpl.
  - reflexivity.
  - destruct (N.eqb (Memory.id m) memory_id); simpl.
    + now rewrite Hid.
    + now rewrite IH.
Qed.

Lemma find_memory_none_not_in : forall memory_id db,
  find_memory memory_id db = None -> ~ In memory_id (map Memory.id (memories db)).
Proof.
  intros memory_id db Hnone Hin. apply in_map_iff in Hin.
  destruct Hin as [m [Hid Hin]]. unfold find_memory in Hnone.
  apply (find_none _ _ Hnone) in Hin. apply N.eqb_neq in Hin. contradiction.
Qed.

Lemma step_keeps_distinct_ids : step_closed distinct_ids.
Proof.
  intros db db' Hstep Hd. unfold distinct_ids in *.
  destruct Hstep as [db memory changed_by old Hnone _
                    |db memory_id content changed_by old row _
                    |db memory_id t changed_by old row _
                    |db a]; simpl.
  - rewrite map_app. simpl. apply NoDup_app.
    + exact Hd.
    + constructor; [intros [] | constructor].
    + intros x Hx [<-|[]]. now apply (find_memory_none_not_in _ _ Hnone).
  - now rewrite !map_id_update_first by auto with ledger.
  - now rewrite !map_id_update_first by auto with ledger.
  - exact Hd.
Qed.

Lemma latest_history_add_history : forall memory_id h db,
  latest_history memory_id (add_history_row h db) =
  if N.eqb (MemoryStatusHistory.memory_id h) memory_id then Some h
  else latest_history memory_id db.
Proof.
  intros. unfold latest_history, add_history_row. simpl. rewrite rev_unit. reflexivity.
Qed.

Lemma step_keeps_state_matches_history : step_closed state_matches_history.
Proof.
  intros db db' Hstep Hc other row' h'.
  destruct Hstep as [db memory changed_by old Hnone Hactive
                    |db memory_id content changed_by old row Hrow
                    |db memory_id t changed_by old row Hrow
                    |db a].
  - rewrite find_memory_add_history, find_memory_add_memory, latest_history_add_history.
    simpl. destruct (N.eqb_spec (Memory.id memory) other) as [E|Hne].
    + subst other. rewrite Hnone. intros Hf Hl. inversion Hf; inversion Hl; subst.
      simpl. now rewrite Hactive.
    + intros Hf Hl. apply (Hc other row' h'); [|exact Hl].
      destruct (find_memory other db); [exact Hf | discriminate].
  - rewrite find_memory_add_history, latest_history_add_history. simpl.
    destruct (N.eqb_spec memory_id other) as [->|Hne].
    + rewrite !find_memory_update_same, Hrow by auto with ledger. simpl.
      intros Hf Hl. inversion Hf; inversion Hl; subst. reflexivity.
    + rewrite !find_memory_update_other by (auto with ledger; congruence).
      apply Hc.
  - rewrite find_memory_add_history, latest_history_add_history. simpl.
    destruct (N.eqb_spec memory_id other) as [->|Hne].
    + rewrite !find_memory_update_same, Hrow by auto with ledger. simpl.
      intros Hf Hl. inversion Hf; inversion Hl; subst. reflexivity.
    + rewrite !find_memory_update_other by (auto with ledger; congruence).
      apply Hc.
  - apply Hc.
Qed.

Lemma grown_from_refl : forall db, grown_from db db.
Proof.
  intros db. split; [|split].
  - exists []. now rewrite app_nil_r.
  - exists []. now rewrite app_nil_r.
  - intros memory_id row Hf. exists row. auto.
Qed.

Lemma grown_from_trans : forall db1 db2 db3,
  grown_from db1 db2 -> grown_from db2 db3 -> grown_from db1 db3.
Proof.
  intros db1 db2 db3 [[h1 Hh1] [[a1 Ha1] Hm1]] [[h2 Hh2] [[a2 Ha2] Hm2]].
  split; [|split].
  - exists (h1 ++ h2)%list. now rewrite Hh2, Hh1, app_assoc.
  - exists (a1 ++ a2)%list. now rewrite Ha2, Ha1, app_assoc.
  - intros memory_id row Hf.
    destruct (Hm1 _ _ Hf) as [row2 [Hf2 [Hu2 Hp2]]].
    destruct (Hm2 _ _ Hf2) as [row3 [Hf3 [Hu3 Hp3]]].
    exists row3. split; [exact Hf3|]. split; congruence.
Qed.

Lemma find_memory_update_cases : forall memory_id other f db row,
  (forall m, Memory.id (f m) = Memory.id m) ->
  find_memory other db = Some row ->
  find_memory other (update_memory memory_id f db) = Some row \/
  find_memory other (update_memory memory_id f db) = Some (f row).
Proof.
  intros memory_id other f db row Hid Hf.
  destruct (N.eq_dec other memory_id) as [->|Hne].
  - right. now rewrite find_memory_update_same, Hf.
  - left. now rewrite find_memory_update_other.
Qed.

Lemma step_grows : forall db db', ledger_step db db' -> grown_from db db'.
Proof.
  intros db db' Hstep.
  destruct Hstep as [db memory changed_by old Hnone _
                    |db memory_id content changed_by old row _
                    |db memory_id t changed_by old row _
                    |db a].
  - split; [|split]; simpl.
    + eexists. reflexivity.
    + exists []. now rewrite app_nil_r.
    + intros other row Hf. exists row.
      rewrite find_memory_add_history, find_memory_add_memory, Hf. auto.
  - split; [|split]; simpl.
    + eexists. reflexivity.
    + exists []. now rewrite app_nil_r.
    + intros other row0 Hf. rewrite find_memory_add_history.
      destruct (find_memory_update_cases memory_id other (Memory.set_state active)
                  db row0 (set_state_id active) Hf) as [H1|H1];
      destruct (find_memory_update_cases memory_id other (Memory.set_content content)
                  _ _ (set_content_id content) H1) as [H2|H2];
      rewrite H2; eexists; (split; [reflexivity|]); auto.
  - split; [|split]; simpl.
    + eexists. reflexivity.
    + exists []. now rewrite app_nil_r.
    + intros other row0 Hf. rewrite find_memory_add_history.
      destruct (find_memory_update_cases memory_id other (Memory.set_state deleted)
                  db row0 (set_state_id deleted) Hf) as [H1|H1];
      destruct (find_memory_update_cases memory_id other (Memory.set_deleted_at t)
                  _ _ (set_deleted_at_id t) H1) as [H2|H2];
      rewrite H2; eexists; (split; [reflexivity|]); auto.
  - split; [|split]; simpl.
    + exists []. now rewrite app_nil_r.
    + eexists. reflexivity.
    + intros other row Hf. exists row. auto.
Qed.

Lemma step_keeps_grown_from : forall base, step_closed (grown_from base).
Proof.
  intros base db db' Hstep Hg. eapply grown_from_trans; [exact Hg|].
  now apply step_grows.
Qed.

(** ** Actions that keep a property of the world *)

Lemma preserves_ret : forall (A : Type) (I : World -> Prop) (a : A),
  preserves I (ret a).
Proof. intros A I a w r w' HI E. inversion E; subst. exact HI. Qed.

Lemma preserves_raise : forall (A : Type) (I : World -> Prop) (e : Exception),
  preserves I (@raise A e).
Proof. intros A I e w r w' HI E. inversion E; subst. exact HI. Qed.

Lemma preserves_bind : forall (A B : Type) (I : World -> Prop) (m : M A) (k : A -> M B),
  preserves I m -> (forall a, preserves I (k a)) -> preserves I (bind m k).
Proof.
  intros A B I m k Hm Hk w r w' HI E. unfold bind in E.
  destruct (m w) as [[e|a] w1] eqn:Em.
  - inversion E; subst. exact (Hm _ _ _ HI Em).
  - exact (Hk a _ _ _ (Hm _ _ _ HI Em) E).
Qed.

Lemma preserves_try_except : forall (A : Type) (I : World -> Prop) (m : M A) h,
  preserves I m -> (forall e, preserves I (h e)) -> preserves I (try_except m h).
Proof.
  intros A I m h Hm Hh w r w' HI E. unfold try_except in E.
  destruct (m w) as [[e|a] w1] eqn:Em.
  - exact (Hh e _ _ _ (Hm _ _ _ HI Em) E).
  - inversion E; subst. exact (Hm _ _ _ HI Em).
Qed.

Lemma preserves_try_finally : forall (A : Type) (I : World -> Prop) (m : M A) f,
  preserves I m -> preserves I f -> preserves I (try_finally m f).
Proof.
  intros A I m f Hm Hf w r w' HI E. unfold try_finally in E.
  destruct (m w) as [r1 w1] eqn:Em.
  destruct (f w1) as [[e|u] w2] eqn:Ef; inversion E; subst;
    exact (Hf _ _ _ (Hm _ _ _ HI Em) Ef).
Qed.

Lemma preserves_for_each : forall (A : Type) (I : World -> Prop) (body : A -> M unit) l,
  (forall x, preserves I (body x)) -> preserves I (for_each l body).
Proof.
  intros A I body l Hbody. induction l as [|x l IH]; simpl.
  - apply preserves_ret.
  - apply preserves_bind; [apply Hbody | intros _; exact IH].
Qed.

Lemma preserves_map_M : forall (A B : Type) (I : World -> Prop) (f : A -> M B) l,
  (forall x, preserves I (f x)) -> preserves I (map_M f l).
Proof.
  intros A B I f l Hf. induction l as [|x l IH]; simpl.
  - apply preserves_ret.
  - apply preserves_bind; [apply Hf | intros y].
    apply preserves_bind; [exact IH | intros ys; apply preserves_ret].
Qed.

(** An action that leaves the ledger as it is keeps every property of the
    committed rows and of the rows of the session. *)
Lemma leaves_ledger_both : forall (A : Type) (P : DB -> Prop) (m : M A),
  leaves_ledger m -> preserves (both P) m.
Proof.
  intros A P m Hm w r w' [Hs Hss] E. destruct (Hm _ _ _ E) as [E1 E2].
  unfold both. now rewrite E1, E2.
Qed.

Lemma outside_leaves_ledger : forall (A : Type) c (outcome : Exception + A),
  leaves_ledger (outside c outcome).
Proof. intros A c outcome w r w' E. inversion E; subst. auto. Qed.

Lemma log_leaves_ledger : forall lv message, leaves_ledger (log lv message).
Proof. intros lv message w r w' E. inversion E; subst. auto. Qed.

Lemma now_leaves_ledger : leaves_ledger now.
Proof. intros w r w' E. inversion E; subst. auto. Qed.

Lemma db_query_leaves_ledger : forall (A : Type) (q : DB -> A),
  leaves_ledger (db_query q).
Proof. intros A q w r w' E. inversion E; subst. auto. Qed.

Lemma uuid_UUID_leaves_ledger : forall s, leaves_ledger (uuid_UUID s).
Proof.
  intros s w r w' E. unfold uuid_UUID in E.
  destruct (uuid_parse s); inversion E; subst; auto.
Qed.

Lemma commit_both : forall P, preserves (both P) commit.
Proof. intros P w r w' [_ Hs] E. inversion E; subst. split; exact Hs. Qed.

Lemma close_stored : forall P,
  preserves (fun w => P (stored w)) close.
Proof. intros P w r w' Hs E. inversion E; subst. exact Hs. Qed.

Lemma resolve_both : forall P user_id app_id,
  resolver_closed P -> preserves (both P) (resolve user_id app_id).
Proof.
  intros P user_id app_id HP w r w' [Hs Hss] E. unfold resolve in E.
  destruct (get_user_and_app (session w) user_id app_id)
    as [e|[[db user] app]] eqn:Er; inversion E; subst.
  - split; assumption.
  - split; simpl; exact (HP _ _ _ _ _ _ Er Hss).
Qed.

Lemma log_row_both : forall P a,
  step_closed P -> preserves (both P) (modify (add_access_log_row a)).
Proof.
  intros P a HP w r w' [Hs Hss] E. inversion E; subst. split; [exact Hs|].
  simpl. exact (HP _ _ (step_log _ a) Hss).
Qed.

Lemma process_result_both : forall P user app result,
  step_closed P -> preserves (both P) (process_result user app result).
Proof.
  intros P user app result HP w r w' [Hs Hss] E.
  apply process_result_inv in E.
  destruct (uuid_parse (AddResult.id result)) as [memory_id|].
  - destruct E as [_ E].
    destruct (find_memory memory_id (session w)) as [row|] eqn:Hf.
    + destruct E as [[_ ->]|[[_ ->]|[_ [_ ->]]]]; split; simpl; auto.
      * exact (HP _ _ (step_activate _ _ _ _ _ _ Hf) Hss).
      * exact (HP _ _ (step_delete _ _ _ _ _ _ Hf) Hss).
    + destruct E as [[_ ->]|[_ ->]]; split; simpl; auto.
      refine (HP _ _ (step_create _
                (Memory.mk memory_id (User.id user) (App.id app)
                   (AddResult.memory result) active None) _ _ Hf eq_refl) Hss).
  - destruct E as [_ ->]. split; assumption.
Qed.

Lemma mark_deleted_both : forall P user app t memory_id,
  step_closed P -> preserves (both P) (mark_deleted user app t memory_id).
Proof.
  intros P user app t memory_id HP w r w' [Hs Hss] E.
  destruct (find_memory memory_id (session w)) as [row|] eqn:Hf.
  - rewrite (mark_deleted_run user app t memory_id w row Hf) in E.
    inversion E; subst. split; [exact Hs|]. simpl. unfold marked.
    apply (HP _ _ (step_log _ _)).
    exact (HP _ _ (step_delete _ _ _ _ _ _ Hf) Hss).
  - unfold mark_deleted, bind, db_query in E. rewrite Hf in E.
    inversion E; subst. split; assumption.
Qed.

Lemma delete_each_leaves_ledger : forall memory_client ids requested,
  leaves_ledger (delete_each memory_client requested ids).
Proof.
  intros memory_client ids requested w r w' E.
  destruct (delete_each_run memory_client ids requested w) as [warnings [E' _]].
  rewrite E' in E. inversion E; subst. auto.
Qed.

Lemma filter_and_log_both : forall P app ids memories_list,
  step_closed P -> preserves (both P) (filter_and_log app ids memories_list).
Proof.
  intros P app ids memories_list HP.
  induction memories_list as [|memory rest IH]; simpl.
  - apply preserves_ret.
  - apply preserves_bind;
      [apply leaves_ledger_both, uuid_UUID_leaves_ledger | intros memory_id].
    destruct (uuid_in memory_id ids); [|exact IH].
    apply preserves_bind; [now apply log_row_both | intros _].
    apply preserves_bind; [exact IH | intros filtered; apply preserves_ret].
Qed.

Create HintDb keeps.
#[local] Hint Resolve preserves_ret preserves_raise commit_both resolve_both
  log_row_both process_result_both mark_deleted_both filter_and_log_both : keeps.
#[local] Hint Resolve outside_leaves_ledger log_leaves_ledger now_leaves_ledger
  db_query_leaves_ledger uuid_UUID_leaves_ledger delete_each_leaves_ledger : keeps.

(** Takes a goal [preserves I m] apart along the shape of [m]. *)
Ltac keeps :=
  repeat first
    [ solve [auto with keeps]
    | solve [apply leaves_ledger_both; auto with keeps]
    | apply preserves_bind; [| intros ?]
    | apply preserves_for_each; intros ?
    | apply preserves_map_M; intros ?
    | match goal with
      | |- preserves _ (match ?x with _ => _ end) => destruct x
      | |- preserves _ (if ?b then _ else _) => destruct b
      end ].

Lemma leaves_ledger_stored : forall (A : Type) (P : DB -> Prop) (m : M A),
  leaves_ledger m -> preserves (fun w => P (stored w)) m.
Proof.
  intros A P m Hm w r w' Hs E. destruct (Hm _ _ _ E) as [E1 _]. now rewrite E1.
Qed.

(** A handler that runs its body in a session of its own and turns every
    exception into an error reply keeps, of the committed rows, what its
    body keeps of the committed rows and of the rows of the session. *)
Lemma guarded_keeps : forall (P : DB -> Prop) (body : M Reply) prefix,
  preserves (both P) body ->
  preserves (fun w => P (stored w))
    (try_except (get_db body)
       (fun e => log ERROR (prefix ++ str e) ;; ret (ReplyError (prefix ++ str e)))).
Proof.
  intros P body prefix Hbody.
  apply preserves_try_except.
  - intros w r w' Hs E. unfold get_db, bind, open_session, try_finally in E.
    match type of E with context [body ?w0] =>
      destruct (body w0) as [r1 w1] eqn:Eb;
      assert (H1 : both P w1) by (apply (Hbody w0 r1 w1); [split; exact Hs | exact Eb])
    end.
    unfold close in E. inversion E; subst. exact (proj1 H1).
  - intros e. apply preserves_bind; [|intros _; apply preserves_ret].
    apply leaves_ledger_stored, log_leaves_ledger.
Qed.

(** Whatever the engine answers and whether or not the call fails, each
    handler keeps, of the committed ledger, every property that the steps
    and the identity resolver keep. *)
Lemma handlers_keep : forall (P : DB -> Prop),
  step_closed P -> resolver_closed P ->
  (forall text user_id client_name,
     preserves (fun w => P (stored w)) (add_memories text user_id client_name)) /\
  (forall query user_id client_name,
     preserves (fun w => P (stored w)) (search_memory query user_id client_name)) /\
  (forall user_id client_name,
     preserves (fun w => P (stored w)) (list_memories user_id client_name)) /\
  (forall user_id client_name,
     preserves (fun w => P (stored w)) (delete_all_memories user_id client_name)).
Proof.
  intros P Hstep Hresolver. repeat split; intros.
  - unfold add_memories.
    destruct get_memory_client_safe; [|apply preserves_ret].
    apply guarded_keeps. keeps.
  - unfold search_memory.
    destruct get_memory_client_safe; [|apply preserves_ret].
    apply guarded_keeps. unfold accessible_memory_ids, search_hit. keeps.
  - unfold list_memories.
    destruct get_memory_client_safe; [|apply preserves_ret].
    apply guarded_keeps. unfold accessible_memory_ids. keeps.
  - unfold delete_all_memories.
    destruct get_memory_client_safe; [|apply preserves_ret].
    apply guarded_keeps. unfold accessible_memory_ids. keeps.
Qed.

(** ** The calls of a handler *)

Lemma leaves_calls_within : forall (A : Type) base (m : M A),
  leaves_calls m -> preserves (within_session base) m.
Proof.
  intros A base m Hm w r w' [inner [Hc Hin]] E.
  exists inner. rewrite (Hm _ _ _ E). auto.
Qed.

Lemma within_session_more : forall base w w' more,
  within_session base w ->
  calls w' = (calls w ++ more)%list -> Forall inner_call more ->
  within_session base w'.
Proof.
  intros base w w' more [inner [Hc Hin]] Hc' Hmore.
  exists (inner ++ more)%list. split.
  - now rewrite Hc', Hc, app_assoc.
  - apply Forall_app. auto.
Qed.

Lemma outside_within : forall (A : Type) base c (outcome : Exception + A),
  inner_call c -> preserves (within_session base) (outside c outcome).
Proof.
  intros A base c outcome Hc w r w' Hw E. inversion E; subst.
  apply (within_session_more base w _ [c] Hw); [reflexivity | now constructor].
Qed.

Lemma commit_within : forall base, preserves (within_session base) commit.
Proof.
  intros base w r w' Hw E. inversion E; subst.
  apply (within_session_more base w _ [db_commit] Hw); [reflexivity|].
  constructor; [split; discriminate | constructor].
Qed.

Lemma resolve_within : forall base user_id app_id,
  preserves (within_session base) (resolve user_id app_id).
Proof.
  intros base user_id app_id w r w' Hw E. unfold resolve in E.
  apply (within_session_more base w _ [resolve_user_and_app user_id app_id] Hw).
  - destruct (get_user_and_app (session w) user_id app_id) as [e|[[db user] app]];
      inversion E; subst; reflexivity.
  - constructor; [split; discriminate | constructor].
Qed.

Lemma log_leaves_calls : forall lv message, leaves_calls (log lv message).
Proof. intros lv message w r w' E. inversion E; subst. reflexivity. Qed.

Lemma now_leaves_calls : leaves_calls now.
Proof. intros w r w' E. inversion E; subst. reflexivity. Qed.

Lemma db_query_leaves_calls : forall (A : Type) (q : DB -> A), leaves_calls (db_query q).
Proof. intros A q w r w' E. inversion E; subst. reflexivity. Qed.

Lemma modify_leaves_calls : forall f, leaves_calls (modify f).
Proof. intros f w r w' E. inversion E; subst. reflexivity. Qed.

Lemma uuid_UUID_leaves_calls : forall s, leaves_calls (uuid_UUID s).
Proof.
  intros s w r w' E. unfold uuid_UUID in E.
  destruct (uuid_parse s); inversion E; subst; reflexivity.
Qed.

Lemma process_result_leaves_calls : forall user app result,
  leaves_calls (process_result user app result).
Proof.
  intros user app result w r w' E. apply process_result_inv in E.
  destruct (uuid_parse (AddResult.id result)) as [memory_id|].
  - destruct E as [_ E]. destruct (find_memory memory_id (session w)).
    + destruct E as [[_ ->]|[[_ ->]|[_ [_ ->]]]]; reflexivity.
    + destruct E as [[_ ->]|[_ ->]]; reflexivity.
  - destruct E as [_ ->]. reflexivity.
Qed.

Lemma mark_deleted_leaves_calls : forall user app t memory_id,
  leaves_calls (mark_deleted user app t memory_id).
Proof.
  intros user app t memory_id w r w' E.
  unfold mark_deleted, bind, db_query, modify in E.
  destruct (find_memory memory_id (session w)); inversion E; subst; reflexivity.
Qed.

Lemma delete_each_within : forall base memory_client ids requested,
  preserves (within_session base) (delete_each memory_client requested ids).
Proof.
  intros base memory_client ids requested w r w' Hw E.
  destruct (delete_each_run memory_client ids requested w) as [warnings [E' _]].
  rewrite E' in E. inversion E; subst.
  apply (within_session_more base w _ (map client_delete ids) Hw); [reflexivity|].
  apply Forall_forall. intros c Hc. apply in_map_iff in Hc.
  destruct Hc as [memory_id [<- _]]. split; discriminate.
Qed.

Lemma filter_and_log_within : forall base app ids memories_list,
  preserves (within_session base) (filter_and_log app ids memories_list).
Proof.
  intros base app ids memories_list.
  induction memories_list as [|memory rest IH]; simpl.
  - apply preserves_ret.
  - apply preserves_bind;
      [apply leaves_calls_within, uuid_UUID_leaves_calls | intros memory_id].
    destruct (uuid_in memory_id ids); [|exact IH].
    apply preserves_bind;
      [apply leaves_calls_within, modify_leaves_calls | intros _].
    apply preserves_bind; [exact IH | intros filtered; apply preserves_ret].
Qed.

#[local] Hint Resolve commit_within resolve_within delete_each_within
  filter_and_log_within : keeps.
#[local] Hint Resolve log_leaves_calls now_leaves_calls db_query_leaves_calls
  modify_leaves_calls uuid_UUID_leaves_calls process_result_leaves_calls
  mark_deleted_leaves_calls : keeps.
#[local] Hint Extern 1 (inner_call _) => split; discriminate : keeps.

(** Takes a goal [preserves (within_session base) m] apart along the shape
    of [m]. *)
Ltac keeps_calls :=
  repeat first
    [ solve [auto with keeps]
    | solve [apply leaves_calls_within; auto with keeps]
    | solve [apply outside_within; auto with keeps]
    | apply preserves_bind; [| intros ?]
    | apply preserves_for_each; intros ?
    | apply preserves_map_M; intros ?
    | match goal with
      | |- preserves _ (match ?x with _ => _ end) => destruct x
      | |- preserves _ (if ?b then _ else _) => destruct b
      end ].

(** How a handler ends, given how its body ends in the session opened for
    it: the session is closed, an exception of the body becomes an error
    reply and an error record of the log. *)
Lemma guarded_run : forall (body : M Reply) prefix w r1 w1,
  body (mkWorld (stored w) (stored w) (calls w ++ [SessionLocal]) (logged w) (ticks w)) =
    (r1, w1) ->
  try_except (get_db body)
    (fun e => log ERROR (prefix ++ str e) ;; ret (ReplyError (prefix ++ str e))) w =
  (inr (match r1 with
        | inr reply => reply
        | inl e => ReplyError (prefix ++ str e)
        end),
   mkWorld (stored w1) (stored w1) (calls w1 ++ [db_close])
     (match r1 with
      | inr _ => logged w1
      | inl e => (logged w1 ++ [mkLog ERROR (prefix ++ str e)])%list
      end)
     (ticks w1)).
Proof.
  intros body prefix w r1 w1 E.
  unfold try_except, get_db, bind, open_session, try_finally. rewrite E.
  destruct r1 as [e|reply]; reflexivity.
Qed.

Lemma guarded_ends_well : forall (body : M Reply) prefix w,
  preserves (within_session (calls w ++ [SessionLocal])) body ->
  ends_well w
    (try_except (get_db body)
       (fun e => log ERROR (prefix ++ str e) ;; ret (ReplyError (prefix ++ str e))) w).
Proof.
  intros body prefix w Hbody.
  destruct (body (mkWorld (stored w) (stored w) (calls w ++ [SessionLocal])
                    (logged w) (ticks w))) as [r1 w1] eqn:E.
  rewrite (guarded_run body prefix w r1 w1 E).
  assert (H0 : within_session (calls w ++ [SessionLocal])
                 (mkWorld (stored w) (stored w) (calls w ++ [SessionLocal])
                    (logged w) (ticks w)))
    by (exists []; simpl; rewrite app_nil_r; split; [reflexivity | constructor]).
  destruct (Hbody _ _ _ H0 E) as [inner [Hc Hin]].
  do 2 eexists. split; [reflexivity|]. right. exists inner. simpl.
  split; [|split; [exact Hin | reflexivity]].
  rewrite Hc, <- !app_assoc. reflexivity.
Qed.

(** X1: every call of a handler returns a reply, whatever the engine, the
    resolver and the ledger do: no exception leaves a handler.  Either the
    world is as it was (the engine is unavailable), or the call has opened
    one session and closed it as its last call, with no other session
    opened or closed in between, and what the session had not committed is
    dropped. *)
Theorem handlers_reply_and_close_their_session :
  forall text query user_id client_name w,
    ends_well w (add_memories text user_id client_name w) /\
    ends_well w (search_memory query user_id client_name w) /\
    ends_well w (list_memories user_id client_name w) /\
    ends_well w (delete_all_memories user_id client_name w).
Proof.
  intros text query user_id client_name w.
  assert (Hsame : forall reply, ends_well w (ret reply w))
    by (intros reply; exists reply, w; split; [reflexivity | now left]).
  repeat split.
  - unfold add_memories.
    destruct get_memory_client_safe; [|apply Hsame].
    apply guarded_ends_well. keeps_calls.
  - unfold search_memory.
    destruct get_memory_client_safe; [|apply Hsame].
    apply guarded_ends_well. unfold accessible_memory_ids, search_hit. keeps_calls.
  - unfold list_memories.
    destruct get_memory_client_safe; [|apply Hsame].
    apply guarded_ends_well. unfold accessible_memory_ids. keeps_calls.
  - unfold delete_all_memories.
    destruct get_memory_client_safe; [|apply Hsame].
    apply guarded_ends_well. unfold accessible_memory_ids. keeps_calls.
Qed.

Lemma resolver_keeps_distinct_ids :
  resolver_keeps_memory_tables -> resolver_closed distinct_ids.
Proof.
  intros Hr db u a db' user app E Hd. destruct (Hr _ _ _ _ _ _ E) as [Hm _].
  unfold distinct_ids. now rewrite Hm.
Qed.

Lemma resolver_keeps_state_matches_history :
  resolver_keeps_memory_tables -> resolver_closed state_matches_history.
Proof.
  intros Hr db u a db' user app E Hc. destruct (Hr _ _ _ _ _ _ E) as [Hm [Hh _]].
  intros memory_id row h. unfold find_memory, latest_history. rewrite Hm, Hh.
  apply Hc.
Qed.

Lemma resolver_keeps_grown_from : forall base,
  resolver_keeps_memory_tables -> resolver_closed (grown_from base).
Proof.
  intros base Hr db u a db' user app E [Hh [Ha Hm]].
  destruct (Hr _ _ _ _ _ _ E) as [Em [Eh Ea]].
  unfold grown_from, find_memory. rewrite Em, Eh, Ea. auto.
Qed.

(** X2: with an identity resolver that leaves the memory tables alone, a
    ledger whose memory ids are pairwise distinct has pairwise distinct
    memory ids after any call of any handler, whatever the engine answers
    and whether or not the call fails. *)
Theorem handlers_keep_distinct_ids :
  resolver_keeps_memory_tables ->
  forall text query user_id client_name w,
    distinct_ids (stored w) ->
    distinct_ids (stored (snd (add_memories text user_id client_name w))) /\
    distinct_ids (stored (snd (search_memory query user_id client_name w))) /\
    distinct_ids (stored (snd (list_memories user_id client_name w))) /\
    distinct_ids (stored (snd (delete_all_memories user_id client_name w))).
Proof.
  intros Hr text query user_id client_name w Hd.
  destruct (handlers_keep distinct_ids step_keeps_distinct_ids
              (resolver_keeps_distinct_ids Hr)) as (Ha & Hs & Hl & Hda).
  repeat split.
  - destruct (add_memories text user_id client_name w) as [r w'] eqn:E.
    exact (Ha _ _ _ _ _ _ Hd E).
  - destruct (search_memory query user_id client_name w) as [r w'] eqn:E.
    exact (Hs _ _ _ _ _ _ Hd E).
  - destruct (list_memories user_id client_name w) as [r w'] eqn:E.
    exact (Hl _ _ _ _ _ Hd E).
  - destruct (delete_all_memories user_id client_name w) as [r w'] eqn:E.
    exact (Hda _ _ _ _ _ Hd E).
Qed.

(** X3: with an identity resolver that leaves the memory tables alone, a
    ledger in which the state of every memory is the new state of its most
    recent history row is such a ledger again after any call of any
    handler, whatever the engine answers and whether or not the call
    fails. *)
Theorem handlers_keep_state_matching_history :
  resolver_keeps_memory_tables ->
  forall text query user_id client_name w,
    state_matches_history (stored w) ->
    state_matches_history (stored (snd (add_memories text user_id client_name w))) /\
    state_matches_history (stored (snd (search_memory query user_id client_name w))) /\
    state_matches_history (stored (snd (list_memories user_id client_name w))) /\
    state_matches_history (stored (snd (delete_all_memories user_id client_name w))).
Proof.
  intros Hr text query user_id client_name w Hd.
  destruct (handlers_keep state_matches_history step_keeps_state_matches_history
              (resolver_keeps_state_matches_history Hr)) as (Ha & Hs & Hl & Hda).
  repeat split.
  - destruct (add_memories text user_id client_name w) as [r w'] eqn:E.
    exact (Ha _ _ _ _ _ _ Hd E).
  - destruct (search_memory query user_id client_name w) as [r w'] eqn:E.
    exact (Hs _ _ _ _ _ _ Hd E).
  - destruct (list_memories user_id client_name w) as [r w'] eqn:E.
    exact (Hl _ _ _ _ _ Hd E).
  - destruct (delete_all_memories user_id client_name w) as [r w'] eqn:E.
    exact (Hda _ _ _ _ _ Hd E).
Qed.

(** X4: with an identity resolver that leaves the memory tables alone, no
    call of a handler removes or rewrites a history or access-log row (the
    two tables only grow at their end), and none removes a memory row or
    changes the user or the app of one, whatever the engine answers and
    whether or not the call fails. *)
Theorem handlers_only_grow_the_ledger :
  resolver_keeps_memory_tables ->
  forall text query user_id client_name w,
    grown_from (stored w) (stored (snd (add_memories text user_id client_name w))) /\
    grown_from (stored w) (stored (snd (search_memory query user_id client_name w))) /\
    grown_from (stored w) (stored (snd (list_memories user_id client_name w))) /\
    grown_from (stored w) (stored (snd (delete_all_memories user_id client_name w))).
Proof.
  intros Hr text query user_id client_name w.
  destruct (handlers_keep (grown_from (stored w)) (step_keeps_grown_from (stored w))
              (resolver_keeps_grown_from (stored w) Hr)) as (Ha & Hs & Hl & Hda).
  pose proof (grown_from_refl (stored w)) as Hd.
  split; [|split; [|split]].
  - destruct (add_memories text user_id client_name w) as [r w'] eqn:E.
    exact (Ha _ _ _ _ _ _ Hd E).
  - destruct (search_memory query user_id client_name w) as [r w'] eqn:E.
    exact (Hs _ _ _ _ _ _ Hd E).
  - destruct (list_memories user_id client_name w) as [r w'] eqn:E.
    exact (Hl _ _ _ _ _ Hd E).
  - destruct (delete_all_memories user_id client_name w) as [r w'] eqn:E.
    exact (Hda _ _ _ _ _ Hd E).
Qed.

(** ** add_memories when something goes wrong *)

(** Processing a result touches neither the committed rows, nor the calls,
    nor the log. *)
Lemma process_result_frame : forall user app result w r w',
  process_result user app result w = (r, w') ->
  stored w' = stored w /\ calls w' = calls w /\ logged w' = logged w.
Proof.
  intros user app result w r w' E. apply process_result_inv in E.
  destruct (uuid_parse (AddResult.id result)) as [memory_id|].
  - destruct E as [_ E]. destruct (find_memory memory_id (session w)).
    + destruct E as [[_ ->]|[[_ ->]|[_ [_ ->]]]]; auto.
    + destruct E as [[_ ->]|[_ ->]]; auto.
  - destruct E as [_ ->]. auto.
Qed.

(** At the first result whose id [uuid.UUID] rejects the loop stops with
    the exception [uuid.UUID] raises for that id; what it has written so
    far is in the session only. *)
Lemma for_each_malformed : forall user app before result after w,
  Forall (fun r => uuid_parse (AddResult.id r) <> None) before ->
  uuid_parse (AddResult.id result) = None ->
  exists w',
    for_each (before ++ result :: after) (process_result user app) w =
      (inl (uuid_error (AddResult.id result)), w') /\
    stored w' = stored w /\ calls w' = calls w /\ logged w' = logged w.
Proof.
  intros user app before result after w Hbefore Hnone. revert w.
  induction Hbefore as [|first before Hid _ IH]; intros w.
  - simpl. unfold bind.
    destruct (process_result user app result w) as [r w1] eqn:E.
    apply process_result_inv in E. rewrite Hnone in E.
    destruct E as [-> ->]. exists w. auto.
  - simpl. unfold bind.
    destruct (process_result_total user app first w Hid) as [w1 E].
    rewrite E.
    pose proof (process_result_frame _ _ _ _ _ _ E) as (Hs & Hc & Hl).
    destruct (IH w1) as [w' [E' (Hs' & Hc' & Hl')]].
    exists w'. split; [exact E'|]. repeat split; congruence.
Qed.

(** X5: when the id of a result of the engine's response is a string that
    [uuid.UUID] rejects, [add_memories] replies with its error prefix and
    the text of the exception [uuid.UUID] raises for the first such id, and
    logs the same text; the engine had been called, but nothing is
    committed: the ledger is the one the resolver returned, also for the
    results that came before the rejected one. *)
Theorem add_memories_malformed_id_commits_nothing :
  forall memory_client text user_id client_name w db user app before result after,
  get_memory_client_safe = Some memory_client ->
  get_user_and_app (stored w) (or_default user_id DEFAULT_USER_ID)
    (or_default client_name DEFAULT_CLIENT_NAME) = inr (db, user, app) ->
  App.is_active app = true ->
  add memory_client text (or_default user_id DEFAULT_USER_ID)
    [("source_app", "openmemory");
     ("mcp_client", or_default client_name DEFAULT_CLIENT_NAME)] =
  inr (WithResults (before ++ result :: after)) ->
  Forall (fun r => uuid_parse (AddResult.id r) <> None) before ->
  uuid_parse (AddResult.id result) = None ->
  exists w',
    add_memories text user_id client_name w =
      (inr (ReplyError
              ("Error adding to memory: " ++ str (uuid_error (AddResult.id result)))),
       w') /\
    stored w' = db /\ session w' = db /\
    calls w' =
      (calls w ++
       [SessionLocal;
        resolve_user_and_app (or_default user_id DEFAULT_USER_ID)
          (or_default client_name DEFAULT_CLIENT_NAME);
        client_add text (or_default user_id DEFAULT_USER_ID)
          [("source_app", "openmemory");
           ("mcp_client", or_default client_name DEFAULT_CLIENT_NAME)];
        db_close])%list /\
    logged w' =
      (logged w ++
       [mkLog ERROR
          ("Error adding to memory: " ++ str (uuid_error (AddResult.id result)))])%list.
Proof.
  intros memory_client text user_id client_name w db user app before result after
         Hclient Hresolve Hactive Hadd Hbefore Hnone.
  destruct (for_each_malformed user app before result after
              (at_results_loop w db text (or_default user_id DEFAULT_USER_ID)
                 (or_default client_name DEFAULT_CLIENT_NAME)) Hbefore Hnone)
    as [w1 [E (Hs & Hc & Hl)]].
  unfold add_memories. rewrite Hclient.
  erewrite guarded_run.
  2:{ unfold bind at 1. unfold resolve. simpl. rewrite Hresolve. simpl.
      rewrite Hactive. simpl. unfold bind at 1. unfold outside. simpl.
      rewrite Hadd. unfold at_results_loop in E. rewrite <- !app_assoc. simpl.
      unfold bind at 1 2. rewrite E. reflexivity. }
  eexists. split; [reflexivity|]. simpl.
  rewrite Hs, Hc, Hl. simpl. rewrite <- !app_assoc. auto.
Qed.

(** X6: when the engine's [add] raises, [add_memories] replies with the
    error text of the exception and logs it; the session is closed and
    nothing is written or committed. *)
Theorem add_memories_engine_failure :
  forall memory_client text user_id client_name w db user app e,
  get_memory_client_safe = Some memory_client ->
  get_user_and_app (stored w) (or_default user_id DEFAULT_USER_ID)
    (or_default client_name DEFAULT_CLIENT_NAME) = inr (db, user, app) ->
  App.is_active app = true ->
  add memory_client text (or_default user_id DEFAULT_USER_ID)
    [("source_app", "openmemory");
     ("mcp_client", or_default client_name DEFAULT_CLIENT_NAME)] = inl e ->
  add_memories text user_id client_name w =
  (inr (ReplyError ("Error adding to memory: " ++ str e)),
   mkWorld db db
     (calls w ++
      [SessionLocal;
       resolve_user_and_app (or_default user_id DEFAULT_USER_ID)
         (or_default client_name DEFAULT_CLIENT_NAME);
       client_add text (or_default user_id DEFAULT_USER_ID)
         [("source_app", "openmemory");
          ("mcp_client", or_default client_name DEFAULT_CLIENT_NAME)];
       db_close])
     (logged w ++ [mkLog ERROR ("Error adding to memory: " ++ str e)])
     (ticks w)).
Proof.
  intros memory_client text user_id client_name w db user app e
         Hclient Hresolve Hactive Hadd.
  unfold add_memories. rewrite Hclient.
  erewrite guarded_run.
  2:{ unfold bind at 1. unfold resolve. simpl. rewrite Hresolve. simpl.
      rewrite Hactive. simpl. unfold bind at 1. unfold outside. simpl.
      rewrite Hadd. reflexivity. }
  simpl. rewrite <- !app_assoc. reflexivity.
Qed.

(** X7: when the engine's response is not a dict with a ['results'] key,
    [add_memories] replies with the response as it is; it writes nothing and
    does not commit. *)
Theorem add_memories_response_without_results :
  forall memory_client text user_id client_name w db user app raw,
  get_memory_client_safe = Some memory_client ->
  get_user_and_app (stored w) (or_default user_id DEFAULT_USER_ID)
    (or_default client_name DEFAULT_CLIENT_NAME) = inr (db, user, app) ->
  App.is_active app = true ->
  add memory_client text (or_default user_id DEFAULT_USER_ID)
    [("source_app", "openmemory");
     ("mcp_client", or_default client_name DEFAULT_CLIENT_NAME)] =
  inr (OtherResponse raw) ->
  add_memories text user_id client_name w =
  (inr (ReplyAdd (OtherResponse raw)),
   mkWorld db db
     (calls w ++
      [SessionLocal;
       resolve_user_and_app (or_default user_id DEFAULT_USER_ID)
         (or_default client_name DEFAULT_CLIENT_NAME);
       client_add text (or_default user_id DEFAULT_USER_ID)
         [("source_app", "openmemory");
          ("mcp_client", or_default client_name DEFAULT_CLIENT_NAME)];
       db_close])
     (logged w) (ticks w)).
Proof.
  intros memory_client text user_id client_name w db user app raw
         Hclient Hresolve Hactive Hadd.
  unfold add_memories. rewrite Hclient.
  erewrite guarded_run.
  2:{ unfold bind at 1. unfold resolve. simpl. rewrite Hresolve. simpl.
      rewrite Hactive. simpl. unfold bind at 1. unfold outside. simpl.
      rewrite Hadd. reflexivity. }
  simpl. rewrite <- !app_assoc. reflexivity.
Qed.

(** X8: when the identity cannot be resolved, each of the four handlers
    replies with its own error prefix and the text of the exception, logs
    the same text, and has called neither the engine nor [commit]: the
    session is opened and closed around the one call and the ledger is as
    it was. *)
Theorem resolver_failure_stops_every_handler :
  forall memory_client text query user_id client_name w e,
  get_memory_client_safe = Some memory_client ->
  get_user_and_app (stored w) (or_default user_id DEFAULT_USER_ID)
    (or_default client_name DEFAULT_CLIENT_NAME) = inl e ->
  let stopped :=
    stopped_at_resolver w (or_default user_id DEFAULT_USER_ID)
      (or_default client_name DEFAULT_CLIENT_NAME) in
  add_memories text user_id client_name w =
    (inr (ReplyError ("Error adding to memory: " ++ str e)),
     stopped ("Error adding to memory: " ++ str e)) /\
  search_memory query user_id client_name w =
    (inr (ReplyError ("Error searching memory: " ++ str e)),
     stopped ("Error searching memory: " ++ str e)) /\
  list_memories user_id client_name w =
    (inr (ReplyError ("Error getting memories: " ++ str e)),
     stopped ("Error getting memories: " ++ str e)) /\
  delete_all_memories user_id client_name w =
    (inr (ReplyError ("Error deleting memories: " ++ str e)),
     stopped ("Error deleting memories: " ++ str e)).
Proof.
  intros memory_client text query user_id client_name w e Hclient Hresolve stopped.
  subst stopped.
  unfold add_memories, search_memory, list_memories, delete_all_memories.
  rewrite Hclient.
  repeat split.
  all: erewrite guarded_run;
    [| unfold bind at 1; unfold resolve; simpl; rewrite Hresolve; reflexivity].
  all: unfold stopped_at_resolver; simpl; rewrite <- !app_assoc; reflexivity.
Qed.

(** The loop of [add_memories] does nothing for events it has no branch
    for. *)
Lemma for_each_other_events : forall user app results w,
  Forall (fun r => uuid_parse (AddResult.id r) <> None /\ other_event r) results ->
  for_each results (process_result user app) w = (inr tt, w).
Proof.
  intros user app results w H. induction H as [|result rest [Hid [Hadd Hdel]] _ IH].
  - reflexivity.
  - simpl. unfold bind.
    destruct (process_result user app result w) as [r w1] eqn:E.
    apply process_result_inv in E.
    destruct (uuid_parse (AddResult.id result)) as [memory_id|]; [|congruence].
    destruct E as [-> E].
    assert (w1 = w) as ->.
    { destruct (find_memory memory_id (session w)).
      - destruct E as [[? _]|[[? _]|[_ [_ ->]]]]; congruence.
      - destruct E as [[? _]|[_ ->]]; congruence. }
    exact IH.
Qed.

(** X9: when every event of the engine's response is of a kind other than
    ADD and DELETE (the engine's UPDATE and NONE), [add_memories] replies
    with the response and commits, and the ledger is the one the resolver
    returned: the new text of an updated memory does not reach its row, and
    no history row is written. *)
Theorem add_memories_other_events_change_nothing :
  forall memory_client text user_id client_name w db user app results,
  get_memory_client_safe = Some memory_client ->
  get_user_and_app (stored w) (or_default user_id DEFAULT_USER_ID)
    (or_default client_name DEFAULT_CLIENT_NAME) = inr (db, user, app) ->
  App.is_active app = true ->
  add memory_client text (or_default user_id DEFAULT_USER_ID)
    [("source_app", "openmemory");
     ("mcp_client", or_default client_name DEFAULT_CLIENT_NAME)] =
  inr (WithResults results) ->
  Forall (fun r => uuid_parse (AddResult.id r) <> None /\ other_event r) results ->
  add_memories text user_id client_name w =
  (inr (ReplyAdd (WithResults results)),
   mkWorld db db
     (calls w ++
      [SessionLocal;
       resolve_user_and_app (or_default user_id DEFAULT_USER_ID)
         (or_default client_name DEFAULT_CLIENT_NAME);
       client_add text (or_default user_id DEFAULT_USER_ID)
         [("source_app", "openmemory");
          ("mcp_client", or_default client_name DEFAULT_CLIENT_NAME)];
       db_commit; db_close])
     (logged w) (ticks w)).
Proof.
  intros memory_client text user_id client_name w db user app results
         Hclient Hresolve Hactive Hadd Hother.
  unfold add_memories. rewrite Hclient.
  erewrite guarded_run.
  2:{ unfold bind at 1. unfold resolve. simpl. rewrite Hresolve. simpl.
      rewrite Hactive. simpl. unfold bind at 1. unfold outside. simpl.
      rewrite Hadd. unfold bind at 1 2.
      rewrite (for_each_other_events user app results _ Hother).
      reflexivity. }
  simpl. rewrite <- !app_assoc. reflexivity.
Qed.

(** X10: an ADD event for a memory the ledger holds changes the state and
    the content of its row and nothing else: the row keeps its owner, its
    app and its deletion time, also when the caller is another user or
    app, and every other memory row stays as it was. *)
Theorem add_event_keeps_owner_and_deletion_time :
  forall user app result memory_id w row,
  uuid_parse (AddResult.id result) = Some memory_id ->
  AddResult.event result = "ADD" ->
  find_memory memory_id (session w) = Some row ->
  exists w' row',
    process_result user app result w = (inr tt, w') /\
    find_memory memory_id (session w') = Some row' /\
    Memory.id row' = Memory.id row /\
    Memory.user_id row' = Memory.user_id row /\
    Memory.app_id row' = Memory.app_id row /\
    Memory.deleted_at row' = Memory.deleted_at row /\
    (forall other, other <> memory_id ->
       find_memory other (session w') = find_memory other (session w)) /\
    length (memories (session w')) = length (memories (session w)).
Proof.
  intros user app result memory_id w row Hid Hev Hf.
  rewrite (process_result_add_existing _ _ _ _ _ _ Hid Hev Hf).
  do 2 eexists. split; [reflexivity|]. simpl.
  rewrite find_memory_add_history.
  rewrite !find_memory_update_same, Hf by auto with ledger. simpl.
  split; [reflexivity|].
  do 4 (split; [reflexivity|]).
  split.
  - intros other Hne. rewrite find_memory_add_history.
    rewrite !find_memory_update_other by auto with ledger. reflexivity.
  - clear. generalize (memories (session w)). intro rows.
    assert (Hlen : forall f rows, length (update_first memory_id f rows) = length rows).
    { clear. intros f rows. induction rows as [|m rest IH]; simpl; [reflexivity|].
      destruct (N.eqb (Memory.id m) memory_id); simpl; congruence. }
    rewrite !Hlen. reflexivity.
Qed.

(** ** search_memory and list_memories, run forward *)

Lemma map_M_search_hit_total : forall hits w,
  Forall usable_point hits ->
  exists memories,
    map_M search_hit hits w = (inr memories, w) /\ Forall2 hit_of hits memories.
Proof.
  intros hits w H. induction H as [|p hits [Hdata _] _ IH].
  - exists []. split; [reflexivity | constructor].
  - destruct IH as [memories [E H2]].
    simpl. unfold bind. rewrite search_hit_run.
    destruct (dict_get "data" (ScoredPoint.payload p)) as [data|] eqn:Hd;
      [|congruence].
    rewrite E. eexists. split; [reflexivity|].
    constructor; [|exact H2]. unfold hit_of. simpl. rewrite Hd. repeat split.
Qed.

Lemma map_M_search_hit_missing : forall hits w,
  Exists (fun p => dict_get "data" (ScoredPoint.payload p) = None) hits ->
  map_M search_hit hits w = (inl (Raise "'data'"), w).
Proof.
  intros hits w H. induction hits as [|p hits IH]; [inversion H|].
  simpl. unfold bind. rewrite search_hit_run.
  destruct (dict_get "data" (ScoredPoint.payload p)) as [data|] eqn:Hd;
    [|reflexivity].
  inversion H as [? ? Hnone|? ? Hrest]; subst; [congruence|].
  rewrite (IH Hrest). reflexivity.
Qed.

Lemma search_log_loop_total : forall app query memories w,
  Forall (fun memory => uuid_parse (SearchHit.id memory) <> None) memories ->
  exists w',
    for_each memories
      (fun memory =>
         memory_id <- uuid_UUID (SearchHit.id memory) ;;
         modify (add_access_log_row (search_log app query memory_id memory))) w =
    (inr tt, w').
Proof.
  intros app query memories w H. revert w.
  induction H as [|memory memories Hid _ IH]; intros w.
  - exists w. reflexivity.
  - simpl. unfold bind at 1 2. unfold uuid_UUID.
    destruct (uuid_parse (SearchHit.id memory)) as [memory_id|]; [|congruence].
    unfold ret at 1, modify at 1. apply IH.
Qed.

(** At the first hit whose id [uuid.UUID] rejects the logging loop stops
    with the exception raised for that id. *)
Lemma search_log_loop_malformed : forall app query before bad after memories w,
  map SearchHit.id memories = (before ++ bad :: after)%list ->
  Forall (fun s => uuid_parse s <> None) before ->
  uuid_parse bad = None ->
  exists w',
    for_each memories
      (fun memory =>
         memory_id <- uuid_UUID (SearchHit.id memory) ;;
         modify (add_access_log_row (search_log app query memory_id memory))) w =
    (inl (uuid_error bad), w') /\
    stored w' = stored w /\ calls w' = calls w /\ logged w' = logged w /\
    ticks w' = ticks w.
Proof.
  intros app query before bad after memories w Hids Hbefore Hnone.
  revert memories w Hids.
  induction Hbefore as [|first before Hid _ IH];
    intros [|memory memories] w Hids; try discriminate;
    simpl in Hids; inversion Hids as [[Hhead Hrest]];
    simpl; unfold bind at 1 2; unfold uuid_UUID; rewrite Hhead.
  - rewrite Hnone. exists w. unfold raise. auto.
  - destruct (uuid_parse first) as [memory_id|] eqn:Hparse; [|congruence].
    unfold ret at 1, modify at 1.
    match goal with |- context [for_each memories _ ?w0] =>
      destruct (IH memories w0 Hrest) as [w' [E Hw']] end.
    exists w'. split; [exact E | exact Hw'].
Qed.

Lemma Forall2_ids : forall hits memories,
  Forall2 hit_of hits memories ->
  map SearchHit.id memories = map ScoredPoint.id hits.
Proof.
  intros hits memories H. induction H as [|p hit hits memories [Hid _] _ IH].
  - reflexivity.
  - simpl. now rewrite Hid, IH.
Qed.

(** The body of [search_memory] up to the query of the vector store. *)
Lemma search_memory_to_hits :
  forall memory_client query user_id client_name db user app embeddings hits
         (rest : App.t -> list ScoredPoint.t -> M Reply) w,
  get_user_and_app (stored w) user_id client_name = inr (db, user, app) ->
  embed memory_client query "search" = inr embeddings ->
  query_points memory_client (collection_name memory_client) embeddings
    (search_filter user_id (accessible_ids db user app)) 10 = inr hits ->
  ('(user, app) <- resolve user_id client_name ;;
   accessible_memory_ids <- accessible_memory_ids user app ;;
   let filters := search_filter user_id accessible_memory_ids in
   embeddings <- outside (embedding_embed query "search")
                         (embed memory_client query "search") ;;
   hits <- outside
             (client_query_points (collection_name memory_client)
                embeddings filters 10)
             (query_points memory_client (collection_name memory_client)
                embeddings filters 10) ;;
   rest app hits)
    (mkWorld (stored w) (stored w) (calls w ++ [SessionLocal]) (logged w) (ticks w)) =
  rest app hits
    (mkWorld db db
       (calls w ++
        [SessionLocal; resolve_user_and_app user_id client_name;
         embedding_embed query "search";
         client_query_points (collection_name memory_client) embeddings
           (search_filter user_id (accessible_ids db user app)) 10])
       (logged w) (ticks w)).
Proof.
  intros memory_client query user_id client_name db user app embeddings hits rest w
         Hresolve Hembed Hquery.
  unfold bind at 1. unfold resolve. simpl. rewrite Hresolve.
  unfold accessible_memory_ids, db_query, outside.
  unfold bind at 1 2 3 4 5. unfold ret at 1. simpl.
  fold (memories_of_user (User.id user) db).
  fold (accessible_ids db user app).
  rewrite Hembed, Hquery. rewrite <- !app_assoc. reflexivity.
Qed.

(** X11: [search_memory] succeeds whenever the identity resolves, the
    embedding and the query of the vector store succeed, and every point
    returned has its text and an id that reads as a UUID: the reply then
    has one hit per point, in the store's order, built from the point field
    by field; the store was asked for at most ten points under the filter
    of the user and the accessible ids; one access-log row per point is
    committed. *)
Theorem search_memory_returns_every_hit :
  forall memory_client query user_id client_name w db user app embeddings hits,
  get_memory_client_safe = Some memory_client ->
  get_user_and_app (stored w) (or_default user_id DEFAULT_USER_ID)
    (or_default client_name DEFAULT_CLIENT_NAME) = inr (db, user, app) ->
  embed memory_client query "search" = inr embeddings ->
  query_points memory_client (collection_name memory_client) embeddings
    (search_filter (or_default user_id DEFAULT_USER_ID)
       (accessible_ids db user app)) 10 = inr hits ->
  Forall usable_point hits ->
  exists memories rows,
    search_memory query user_id client_name w =
      (inr (ReplySearch memories),
       mkWorld (add_access_log_rows rows db) (add_access_log_rows rows db)
         (calls w ++
          [SessionLocal;
           resolve_user_and_app (or_default user_id DEFAULT_USER_ID)
             (or_default client_name DEFAULT_CLIENT_NAME);
           embedding_embed query "search";
           client_query_points (collection_name memory_client) embeddings
             (search_filter (or_default user_id DEFAULT_USER_ID)
                (accessible_ids db user app)) 10;
           db_commit; db_close])
         (logged w) (ticks w)) /\
    Forall2 hit_of hits memories /\
    length rows = length hits.
Proof.
  intros memory_client query user_id client_name w db user app embeddings hits
         Hclient Hresolve Hembed Hquery Husable.
  match goal with |- context [mkWorld _ _ (calls w ++ ?l)%list _ _] =>
    match l with context [db_commit] => idtac end;
    set (before := mkWorld db db
                     (calls w ++ firstn 4 l)%list (logged w) (ticks w)) end.
  simpl in before.
  destruct (map_M_search_hit_total hits before Husable) as [memories [Emap Hhits]].
  assert (Hids : Forall (fun memory => uuid_parse (SearchHit.id memory) <> None)
                   memories).
  { clear - Hhits Husable. induction Hhits as [|p hit hits memories [Hid _] _ IH].
    - constructor.
    - inversion Husable as [|? ? [_ Hp] Hrest]; subst.
      constructor; [rewrite Hid; exact Hp | exact (IH Hrest)]. }
  destruct (search_log_loop_total app query memories before Hids) as [w1 Eloop].
  destruct (search_log_loop _ _ _ _ _ Eloop) as [rows [Hrows ->]].
  exists memories, rows.
  split; [|split; [exact Hhits|]].
  - unfold search_memory. rewrite Hclient.
    erewrite guarded_run.
    2:{ etransitivity;
          [exact (search_memory_to_hits memory_client query _ _ db user app
                    embeddings hits _ w Hresolve Hembed Hquery)|].
        cbv beta.
        fold before. unfold bind at 1. rewrite Emap.
        unfold bind at 1. rewrite Eloop.
        unfold bind, commit, ret. simpl. reflexivity. }
    simpl. rewrite <- !app_assoc. reflexivity.
  - rewrite <- (Forall2_length Hrows). symmetry. exact (Forall2_length Hhits).
Qed.

(** X12: with no accessible id, [search_memory] asks the vector store under
    the user's condition alone, and returns and logs every point the store
    answers with, whatever its id: the reply is not confined to ids of the
    ledger. *)
Theorem search_memory_without_accessible_ids_is_unrestricted :
  forall memory_client query user_id client_name w db user app embeddings hits,
  get_memory_client_safe = Some memory_client ->
  get_user_and_app (stored w) (or_default user_id DEFAULT_USER_ID)
    (or_default client_name DEFAULT_CLIENT_NAME) = inr (db, user, app) ->
  accessible_ids db user app = [] ->
  embed memory_client query "search" = inr embeddings ->
  query_points memory_client (collection_name memory_client) embeddings
    (mkFilter [FieldCondition "user_id" (or_default user_id DEFAULT_USER_ID)])
    10 = inr hits ->
  Forall usable_point hits ->
  exists memories w',
    search_memory query user_id client_name w = (inr (ReplySearch memories), w') /\
    map SearchHit.id memories = map ScoredPoint.id hits /\
    In (client_query_points (collection_name memory_client) embeddings
          (mkFilter
             [FieldCondition "user_id" (or_default user_id DEFAULT_USER_ID)]) 10)
       (calls w') /\
    length (access_logs (stored w')) = length (access_logs db) + length hits.
Proof.
  intros memory_client query user_id client_name w db user app embeddings hits
         Hclient Hresolve Hnone Hembed Hquery Husable.
  assert (Hfilter : search_filter (or_default user_id DEFAULT_USER_ID)
                      (accessible_ids db user app) =
                    mkFilter [FieldCondition "user_id"
                                (or_default user_id DEFAULT_USER_ID)])
    by (rewrite Hnone; reflexivity).
  rewrite <- Hfilter in Hquery.
  destruct (map_M_search_hit_total hits
              (mkWorld db db
                 (calls w ++
                  [SessionLocal;
                   resolve_user_and_app (or_default user_id DEFAULT_USER_ID)
                     (or_default client_name DEFAULT_CLIENT_NAME);
                   embedding_embed query "search";
                   client_query_points (collection_name memory_client) embeddings
                     (search_filter (or_default user_id DEFAULT_USER_ID)
                        (accessible_ids db user app)) 10])
                 (logged w) (ticks w)) Husable) as [memories [Emap Hhits]].
  assert (Hids : Forall (fun memory => uuid_parse (SearchHit.id memory) <> None)
                   memories).
  { clear - Hhits Husable. induction Hhits as [|p hit hits memories [Hid _] _ IH].
    - constructor.
    - inversion Husable as [|? ? [_ Hp] Hrest]; subst.
      constructor; [rewrite Hid; exact Hp | exact (IH Hrest)]. }
  match type of Emap with _ ?w0 = _ =>
    destruct (search_log_loop_total app query memories w0 Hids) as [w1 Eloop] end.
  destruct (search_log_loop _ _ _ _ _ Eloop) as [rows [Hrows ->]].
  exists memories. eexists. split; [|split; [exact (Forall2_ids _ _ Hhits)|]].
  - unfold search_memory. rewrite Hclient.
    erewrite guarded_run.
    2:{ etransitivity;
          [exact (search_memory_to_hits memory_client query _ _ db user app
                    embeddings hits _ w Hresolve Hembed Hquery)|].
        cbv beta.
        unfold bind at 1. rewrite Emap.
        unfold bind at 1. rewrite Eloop.
        unfold bind, commit, ret. simpl. reflexivity. }
    reflexivity.
  - simpl. split.
    + rewrite Hfilter. rewrite !in_app_iff. simpl. auto 10.
    + unfold add_access_log_rows. simpl. rewrite length_app.
      rewrite <- (Forall2_length Hrows), <- (Forall2_length Hhits). reflexivity.
Qed.

(** X13: when a point the vector store returns has no text in its payload,
    [search_memory] replies with the [KeyError] as its error, and commits no
    access-log row, also for the points that have their text. *)
Theorem search_memory_point_without_text_fails :
  forall memory_client query user_id client_name w db user app embeddings hits,
  get_memory_client_safe = Some memory_client ->
  get_user_and_app (stored w) (or_default user_id DEFAULT_USER_ID)
    (or_default client_name DEFAULT_CLIENT_NAME) = inr (db, user, app) ->
  embed memory_client query "search" = inr embeddings ->
  query_points memory_client (collection_name memory_client) embeddings
    (search_filter (or_default user_id DEFAULT_USER_ID)
       (accessible_ids db user app)) 10 = inr hits ->
  Exists (fun p => dict_get "data" (ScoredPoint.payload p) = None) hits ->
  search_memory query user_id client_name w =
  (inr (ReplyError "Error searching memory: 'data'"),
   mkWorld db db
     (calls w ++
      [SessionLocal;
       resolve_user_and_app (or_default user_id DEFAULT_USER_ID)
         (or_default client_name DEFAULT_CLIENT_NAME);
       embedding_embed query "search";
       client_query_points (collection_name memory_client) embeddings
         (search_filter (or_default user_id DEFAULT_USER_ID)
            (accessible_ids db user app)) 10;
       db_close])
     (logged w ++ [mkLog ERROR "Error searching memory: 'data'"]) (ticks w)).
Proof.
  intros memory_client query user_id client_name w db user app embeddings hits
         Hclient Hresolve Hembed Hquery Hmissing.
  unfold search_memory. rewrite Hclient.
  erewrite guarded_run.
  2:{ etransitivity;
          [exact (search_memory_to_hits memory_client query _ _ db user app
                    embeddings hits _ w Hresolve Hembed Hquery)|].
        cbv beta.
      unfold bind at 1. rewrite (map_M_search_hit_missing hits _ Hmissing).
      reflexivity. }
  simpl. rewrite <- !app_assoc. reflexivity.
Qed.

(** X14: when every point has its text but the id of one is a string that
    [uuid.UUID] rejects, [search_memory] replies with its error prefix and
    the text of the exception [uuid.UUID] raises for the first such id, and
    logs the same text; the access-log rows written for the points before
    it are dropped with the session, and the ledger is the one the resolver
    returned. *)
Theorem search_memory_malformed_point_id_commits_nothing :
  forall memory_client query user_id client_name w db user app embeddings
         before p after,
  get_memory_client_safe = Some memory_client ->
  get_user_and_app (stored w) (or_default user_id DEFAULT_USER_ID)
    (or_default client_name DEFAULT_CLIENT_NAME) = inr (db, user, app) ->
  embed memory_client query "search" = inr embeddings ->
  query_points memory_client (collection_name memory_client) embeddings
    (search_filter (or_default user_id DEFAULT_USER_ID)
       (accessible_ids db user app)) 10 = inr (before ++ p :: after)%list ->
  Forall (fun q => dict_get "data" (ScoredPoint.payload q) <> None)
         (before ++ p :: after) ->
  Forall (fun q => uuid_parse (ScoredPoint.id q) <> None) before ->
  uuid_parse (ScoredPoint.id p) = None ->
  search_memory query user_id client_name w =
  (inr (ReplyError
          ("Error searching memory: " ++ str (uuid_error (ScoredPoint.id p)))),
   mkWorld db db
     (calls w ++
      [SessionLocal;
       resolve_user_and_app (or_default user_id DEFAULT_USER_ID)
         (or_default client_name DEFAULT_CLIENT_NAME);
       embedding_embed query "search";
       client_query_points (collection_name memory_client) embeddings
         (search_filter (or_default user_id DEFAULT_USER_ID)
            (accessible_ids db user app)) 10;
       db_close])
     (logged w ++
      [mkLog ERROR
         ("Error searching memory: " ++ str (uuid_error (ScoredPoint.id p)))])
     (ticks w)).
Proof.
  intros memory_client query user_id client_name w db user app embeddings
         before p after Hclient Hresolve Hembed Hquery Hdata Hbefore Hnone.
  set (hits := (before ++ p :: after)%list) in *.
  set (start :=
         mkWorld db db
           (calls w ++
            [SessionLocal;
             resolve_user_and_app (or_default user_id DEFAULT_USER_ID)
               (or_default client_name DEFAULT_CLIENT_NAME);
             embedding_embed query "search";
             client_query_points (collection_name memory_client) embeddings
               (search_filter (or_default user_id DEFAULT_USER_ID)
                  (accessible_ids db user app)) 10])
           (logged w) (ticks w)).
  assert (Hmap : exists memories,
             map_M search_hit hits start = (inr memories, start) /\
             map SearchHit.id memories = map ScoredPoint.id hits).
  { clear - Hdata. generalize start. intro w0.
    induction Hdata as [|q hits Hq _ IH].
    - exists []. split; reflexivity.
    - destruct IH as [memories [E Hids]].
      simpl. unfold bind. rewrite search_hit_run.
      destruct (dict_get "data" (ScoredPoint.payload q)); [|congruence].
      rewrite E. eexists. split; [reflexivity|]. simpl. now rewrite Hids. }
  destruct Hmap as [memories [Emap Hids]].
  unfold hits in Hids. rewrite map_app in Hids. simpl in Hids.
  assert (Hbefore' : Forall (fun s => uuid_parse s <> None)
                       (map ScoredPoint.id before))
    by (apply Forall_map; exact Hbefore).
  destruct (search_log_loop_malformed app query _ _ _ memories start
              Hids Hbefore' Hnone)
    as [w1 [Eloop (Hs & Hc & Hl & Ht)]].
  unfold search_memory. rewrite Hclient.
  erewrite guarded_run.
  2:{ etransitivity;
        [exact (search_memory_to_hits memory_client query _ _ db user app
                  embeddings hits _ w Hresolve Hembed Hquery)|].
      cbv beta.
      fold start. unfold bind at 1. rewrite Emap.
      unfold bind at 1. rewrite Eloop. reflexivity. }
  rewrite Hs, Hc, Hl, Ht. simpl. rewrite <- !app_assoc. reflexivity.
Qed.

Lemma filter_and_log_run : forall app ids memories_list w,
  Forall (fun memory => uuid_parse (EngineMemory.id memory) <> None) memories_list ->
  filter_and_log app ids memories_list w =
  (inr (filter (is_accessible_entry ids) memories_list),
   mkWorld (stored w)
     (add_access_log_rows (list_log_rows app ids memories_list) (session w))
     (calls w) (logged w) (ticks w)).
Proof.
  intros app ids memories_list w H. revert w.
  induction H as [|memory rest Hid _ IH]; intros w.
  - simpl. unfold ret, list_log_rows. simpl. rewrite add_access_log_rows_nil.
    now destruct w.
  - simpl. unfold bind at 1. unfold uuid_UUID, is_accessible_entry, list_log_rows.
    simpl.
    destruct (uuid_parse (EngineMemory.id memory)) as [memory_id|]; [|congruence].
    unfold ret at 1.
    destruct (uuid_in memory_id ids).
    + unfold bind at 1 2. unfold modify at 1. rewrite IH. simpl.
      rewrite add_access_log_rows_cons. reflexivity.
    + rewrite IH. reflexivity.
Qed.

(** At the first entry whose id [uuid.UUID] rejects the loop stops with
    the exception raised for that id. *)
Lemma filter_and_log_malformed : forall app ids before memory after w,
  Forall (fun m => uuid_parse (EngineMemory.id m) <> None) before ->
  uuid_parse (EngineMemory.id memory) = None ->
  exists w',
    filter_and_log app ids (before ++ memory :: after) w =
      (inl (uuid_error (EngineMemory.id memory)), w') /\
    stored w' = stored w /\ calls w' = calls w /\ logged w' = logged w /\
    ticks w' = ticks w.
Proof.
  intros app ids before memory after w Hbefore Hnone. revert w.
  induction Hbefore as [|first before Hid _ IH]; intros w;
    simpl; unfold bind at 1; unfold uuid_UUID.
  - rewrite Hnone. exists w. unfold raise. auto.
  - destruct (uuid_parse (EngineMemory.id first)) as [memory_id|]; [|congruence].
    unfold ret at 1.
    destruct (uuid_in memory_id ids).
    + unfold bind at 1 2. unfold modify at 1.
      match goal with |- context [filter_and_log app ids _ ?w0] =>
        destruct (IH w0) as [w' [E Hw']] end.
      exists w'. rewrite E. split; [reflexivity | exact Hw'].
    + exact (IH w).
Qed.

(** The body of [list_memories] up to the loop over the entries. *)
Lemma list_memories_to_entries :
  forall memory_client user_id client_name db user app response
         (rest : App.t -> GetAllResponse -> list UUID -> M Reply) w,
  get_user_and_app (stored w) user_id client_name = inr (db, user, app) ->
  get_all memory_client user_id = inr response ->
  ('(user, app) <- resolve user_id client_name ;;
   memories <- outside (client_get_all user_id) (get_all memory_client user_id) ;;
   accessible_memory_ids <- accessible_memory_ids user app ;;
   rest app memories accessible_memory_ids)
    (mkWorld (stored w) (stored w) (calls w ++ [SessionLocal]) (logged w) (ticks w)) =
  rest app response (accessible_ids db user app)
    (mkWorld db db
       (calls w ++
        [SessionLocal; resolve_user_and_app user_id client_name;
         client_get_all user_id])
       (logged w) (ticks w)).
Proof.
  intros memory_client user_id client_name db user app response rest w
         Hresolve Hget.
  unfold bind at 1. unfold resolve. simpl. rewrite Hresolve.
  unfold accessible_memory_ids, db_query, outside.
  unfold bind at 1 2 3 4. unfold ret at 1. simpl.
  fold (memories_of_user (User.id user) db).
  fold (accessible_ids db user app).
  rewrite Hget. rewrite <- !app_assoc. reflexivity.
Qed.

(** X15: [list_memories] succeeds whenever the identity resolves, the
    engine answers and every entry's id reads as a UUID: the reply is then
    exactly the engine's entries whose id is among the accessible ids, in
    the engine's order, and for each of them one access-log row of type
    "list" is committed, in the same order; nothing else in the ledger
    changes. *)
Theorem list_memories_returns_accessible_entries :
  forall memory_client user_id client_name w db user app response,
  get_memory_client_safe = Some memory_client ->
  get_user_and_app (stored w) (or_default user_id DEFAULT_USER_ID)
    (or_default client_name DEFAULT_CLIENT_NAME) = inr (db, user, app) ->
  get_all memory_client (or_default user_id DEFAULT_USER_ID) = inr response ->
  Forall (fun memory => uuid_parse (EngineMemory.id memory) <> None)
         (entries response) ->
  list_memories user_id client_name w =
  (inr (ReplyList
          (filter (is_accessible_entry (accessible_ids db user app))
                  (entries response))),
   let db' :=
     add_access_log_rows
       (list_log_rows app (accessible_ids db user app) (entries response)) db in
   mkWorld db' db'
     (calls w ++
      [SessionLocal;
       resolve_user_and_app (or_default user_id DEFAULT_USER_ID)
         (or_default client_name DEFAULT_CLIENT_NAME);
       client_get_all (or_default user_id DEFAULT_USER_ID);
       db_commit; db_close])
     (logged w) (ticks w)).
Proof.
  intros memory_client user_id client_name w db user app response
         Hclient Hresolve Hget Hids.
  unfold list_memories. rewrite Hclient.
  erewrite guarded_run.
  2:{ etransitivity;
        [exact (list_memories_to_entries memory_client _ _ db user app response
                  _ w Hresolve Hget)|].
      cbv beta. unfold bind at 1.
      rewrite (filter_and_log_run app _ _ _ Hids).
      unfold bind, commit, ret. simpl. reflexivity. }
  simpl. rewrite <- !app_assoc. reflexivity.
Qed.

(** X16: when the id of an entry of the engine's listing is a string that
    [uuid.UUID] rejects, [list_memories] replies with its error prefix and
    the text of the exception [uuid.UUID] raises for the first such id, and
    logs the same text, whether or not that entry would have been listed;
    the access-log rows written for the entries before it are dropped with
    the session, and nothing is committed. *)
Theorem list_memories_malformed_id_commits_nothing :
  forall memory_client user_id client_name w db user app response
         before memory after,
  get_memory_client_safe = Some memory_client ->
  get_user_and_app (stored w) (or_default user_id DEFAULT_USER_ID)
    (or_default client_name DEFAULT_CLIENT_NAME) = inr (db, user, app) ->
  get_all memory_client (or_default user_id DEFAULT_USER_ID) = inr response ->
  entries response = (before ++ memory :: after)%list ->
  Forall (fun m => uuid_parse (EngineMemory.id m) <> None) before ->
  uuid_parse (EngineMemory.id memory) = None ->
  list_memories user_id client_name w =
  (inr (ReplyError
          ("Error getting memories: " ++ str (uuid_error (EngineMemory.id memory)))),
   mkWorld db db
     (calls w ++
      [SessionLocal;
       resolve_user_and_app (or_default user_id DEFAULT_USER_ID)
         (or_default client_name DEFAULT_CLIENT_NAME);
       client_get_all (or_default user_id DEFAULT_USER_ID);
       db_close])
     (logged w ++
      [mkLog ERROR
         ("Error getting memories: " ++ str (uuid_error (EngineMemory.id memory)))])
     (ticks w)).
Proof.
  intros memory_client user_id client_name w db user app response
         before memory after Hclient Hresolve Hget Hentries Hbefore Hnone.
  destruct (filter_and_log_malformed app (accessible_ids db user app)
              before memory after
              (mkWorld db db
                 (calls w ++
                  [SessionLocal;
                   resolve_user_and_app (or_default user_id DEFAULT_USER_ID)
                     (or_default client_name DEFAULT_CLIENT_NAME);
                   client_get_all (or_default user_id DEFAULT_USER_ID)])
                 (logged w) (ticks w)) Hbefore Hnone)
    as [w1 [E (Hs & Hc & Hl & Ht)]].
  unfold list_memories. rewrite Hclient.
  erewrite guarded_run.
  2:{ etransitivity;
        [exact (list_memories_to_entries memory_client _ _ db user app response
                  _ w Hresolve Hget)|].
      cbv beta. rewrite Hentries. unfold bind at 1. rewrite E. reflexivity. }
  rewrite Hs, Hc, Hl, Ht. simpl. rewrite <- !app_assoc. reflexivity.
Qed.

(** ** delete_all_memories: what stays *)

Lemma same_but_deletion_refl : forall rows, Forall2 same_but_deletion rows rows.
Proof.
  induction rows as [|row rows IH]; constructor; [|exact IH].
  repeat split.
Qed.

Lemma same_but_deletion_trans : forall rows1 rows2 rows3,
  Forall2 same_but_deletion rows1 rows2 ->
  Forall2 same_but_deletion rows2 rows3 ->
  Forall2 same_but_deletion rows1 rows3.
Proof.
  intros rows1 rows2 rows3 H. revert rows3.
  induction H as [|r1 r2 rows1 rows2 (Hi & Hu & Ha & Hc) _ IH]; intros rows3 H23.
  - inversion H23. constructor.
  - inversion H23 as [|? r3 ? rest3 (Hi' & Hu' & Ha' & Hc') Hrest]; subst.
    constructor; [|exact (IH _ Hrest)].
    unfold same_but_deletion. repeat split; congruence.
Qed.

Lemma same_but_deletion_update_first : forall memory_id f rows,
  (forall row, same_but_deletion row (f row)) ->
  Forall2 same_but_deletion rows (update_first memory_id f rows).
Proof.
  intros memory_id f rows Hf. induction rows as [|row rows IH]; simpl.
  - constructor.
  - destruct (N.eqb (Memory.id row) memory_id).
    + constructor; [apply Hf | apply same_but_deletion_refl].
    + constructor; [repeat split | exact IH].
Qed.

Lemma marked_same_rows : forall user app t memory_id db,
  same_rows_but_deletion db (marked user app t memory_id db).
Proof.
  intros user app t memory_id db. unfold same_rows_but_deletion, marked. simpl.
  split; [reflexivity|]. split; [reflexivity|].
  eapply same_but_deletion_trans;
    apply same_but_deletion_update_first; intros row; repeat split.
Qed.

Lemma mark_all_same_rows : forall user app t ids w w',
  for_each ids (mark_deleted user app t) w = (inr tt, w') ->
  same_rows_but_deletion (session w) (session w').
Proof.
  intros user app t ids. induction ids as [|memory_id rest IH]; intros w w' H.
  - inversion H; subst. unfold same_rows_but_deletion.
    split; [reflexivity|]. split; [reflexivity|]. apply same_but_deletion_refl.
  - simpl in H. unfold bind at 1 in H.
    destruct (find_memory memory_id (session w)) as [row|] eqn:Hf.
    + rewrite (mark_deleted_run user app t memory_id w row Hf) in H.
      apply IH in H. simpl in H.
      pose proof (marked_same_rows user app t memory_id (session w))
        as (Hu & Ha & Hm).
      destruct H as (Hu' & Ha' & Hm').
      unfold same_rows_but_deletion.
      split; [congruence|]. split; [congruence|].
      exact (same_but_deletion_trans _ _ _ Hm Hm').
    + unfold mark_deleted, bind, db_query, raise in H. simpl in H.
      rewrite Hf in H. discriminate.
Qed.

(** X17: [delete_all_memories] removes no row and touches no memory beyond
    the accessible ones: the committed ledger has the users and apps it
    had, and the same memory rows in the same order, each with its id,
    owner, app and content unchanged; a memory whose id is not among the
    accessible ids, such as one of another user, keeps its row as it was,
    state and deletion time included. *)
Theorem delete_all_memories_keeps_rows :
  forall memory_client user_id client_name w db user app,
  get_memory_client_safe = Some memory_client ->
  get_user_and_app (stored w) (or_default user_id DEFAULT_USER_ID)
    (or_default client_name DEFAULT_CLIENT_NAME) = inr (db, user, app) ->
  exists w',
    delete_all_memories user_id client_name w =
      (inr (ReplyMessage "Successfully deleted all memories"), w') /\
    same_rows_but_deletion db (stored w') /\
    (forall memory_id, ~ In memory_id (accessible_ids db user app) ->
                       find_memory memory_id (stored w') = find_memory memory_id db).
Proof.
  intros memory_client user_id client_name w db user app Hclient Hresolve.
  unfold delete_all_memories. rewrite Hclient.
  unfold try_except, get_db, try_finally, open_session, resolve.
  unfold bind at 1 2. simpl. rewrite Hresolve.
  unfold accessible_memory_ids, db_query.
  unfold bind at 1 2 3. unfold ret at 1. simpl.
  fold (memories_of_user (User.id user) db).
  fold (accessible_ids db user app).
  unfold bind at 1.
  match goal with |- context [delete_each memory_client [] ?ids ?w0] =>
    destruct (delete_each_run memory_client ids [] w0) as [warnings [E1 _]] end.
  rewrite E1. unfold bind at 1. unfold now at 1. simpl.
  unfold bind at 1.
  match goal with |- context [for_each ?ids (mark_deleted user app ?t) ?w0] =>
    destruct (mark_all_run user app t ids w0 (accessible_ids_found db user app))
      as [db' [E2 (_ & _ & _ & _ & Hother)]];
    pose proof (mark_all_same_rows user app t ids w0 _ E2) as Hrows end.
  simpl in E2, Hrows, Hother. rewrite E2.
  unfold bind, commit, ret, close. simpl.
  eexists. split; [reflexivity|]. simpl. split; assumption.
Qed.

(** X18: with no accessible id, [delete_all_memories] still replies with
    its success message and commits, having asked the engine for nothing:
    the ledger is the one the resolver returned, with no history or
    access-log row added, and the clock was read once. *)
Theorem delete_all_memories_without_accessible_ids :
  forall memory_client user_id client_name w db user app,
  get_memory_client_safe = Some memory_client ->
  get_user_and_app (stored w) (or_default user_id DEFAULT_USER_ID)
    (or_default client_name DEFAULT_CLIENT_NAME) = inr (db, user, app) ->
  accessible_ids db user app = [] ->
  delete_all_memories user_id client_name w =
  (inr (ReplyMessage "Successfully deleted all memories"),
   mkWorld db db
     (calls w ++
      [SessionLocal;
       resolve_user_and_app (or_default user_id DEFAULT_USER_ID)
         (or_default client_name DEFAULT_CLIENT_NAME);
       db_commit; db_close])
     (logged w) (S (ticks w))).
Proof.
  intros memory_client user_id client_name w db user app Hclient Hresolve Hnone.
  unfold delete_all_memories. rewrite Hclient.
  erewrite guarded_run.
  2:{ unfold bind at 1. unfold resolve. simpl. rewrite Hresolve.
      unfold accessible_memory_ids, db_query.
      unfold bind at 1 2 3. unfold ret at 1. simpl.
      fold (memories_of_user (User.id user) db).
      fold (accessible_ids db user app).
      rewrite Hnone. reflexivity. }
  simpl. rewrite <- !app_assoc. reflexivity.
Qed.

(** ** create_default_user_and_app *)

Lemma query_user_added : forall user_id db u,
  User.user_id u = user_id ->
  query_user user_id db = None ->
  query_user user_id (add_user_row u db) = Some u.
Proof.
  intros user_id db u Hu Hnone. unfold query_user, add_user_row in *. simpl.
  rewrite find_app, Hnone. simpl. rewrite Hu, String.eqb_refl. reflexivity.
Qed.

Lemma query_app_added : forall owner_id name db a,
  App.owner_id a = owner_id -> App.name a = name ->
  query_app owner_id name db = None ->
  query_app owner_id name (add_app_row a db) = Some a.
Proof.
  intros owner_id name db a Ho Hn Hnone. unfold query_app, add_app_row in *. simpl.
  rewrite find_app, Hnone. simpl. rewrite Ho, Hn, N.eqb_refl, String.eqb_refl.
  reflexivity.
Qed.

(** X19: [create_default_user_and_app] always returns, with its session
    closed and one commit per message it logs, and leaves a ledger that holds the default user and an App of
    the default name owned by that user; it only appends to the users and
    apps, one row per message it logs, a row it appends being the default
    user or an active App of the default name; the memories, the history
    and the access log are untouched. *)
Theorem create_default_user_and_app_provides_defaults :
  forall w,
  exists messages w' new_users new_apps,
    create_default_user_and_app w = (inr messages, w') /\
    has_defaults (stored w') /\
    session w' = stored w' /\
    users (stored w') = (users (stored w) ++ new_users)%list /\
    apps (stored w') = (apps (stored w) ++ new_apps)%list /\
    length messages = length new_users + length new_apps /\
    Forall (fun u => User.user_id u = DEFAULT_USER_ID) new_users /\
    Forall (fun a => App.name a = DEFAULT_CLIENT_NAME /\ App.is_active a = true)
           new_apps /\
    memories (stored w') = memories (stored w) /\
    history (stored w') = history (stored w) /\
    access_logs (stored w') = access_logs (stored w) /\
    exists commits,
      calls w' = (calls w ++ SessionLocal :: commits ++ [db_close])%list /\
      Forall (fun c => c = db_commit) commits /\
      length commits = length messages.
Proof.
  intros w. unfold create_default_user_and_app.
  unfold bind at 1. unfold open_session at 1. unfold try_finally.
  unfold bind at 1. unfold db_query at 1. simpl.
  destruct (query_user DEFAULT_USER_ID (stored w)) as [u|] eqn:Hu.
  - unfold bind at 1. unfold ret at 1. unfold bind at 1. unfold db_query at 1.
    simpl.
    destruct (query_app (User.id u) DEFAULT_CLIENT_NAME (stored w)) as [a|] eqn:Ha.
    + unfold bind, ret, close. simpl.
      exists [], (mkWorld (stored w) (stored w)
                    ((calls w ++ [SessionLocal]) ++ [db_close]) (logged w) (ticks w)),
             [], [].
      simpl. rewrite !app_nil_r.
      split; [reflexivity|]. split; [exists u, a; auto|].
      do 9 (split; [auto|]).
      exists []. simpl. rewrite <- !app_assoc. simpl. auto.
    + unfold bind, db_query, modify, commit, ret, close. simpl.
      do 2 eexists. exists [], [App.mk (new_id (stored w)) (User.id u)
                                  DEFAULT_CLIENT_NAME true].
      split; [reflexivity|]. simpl. rewrite app_nil_r.
      split.
      { exists u. eexists. split; [exact Hu|].
        apply (query_app_added _ _ (stored w)); auto. }
      do 9 (split; [auto|]).
      exists [db_commit]. simpl. rewrite <- !app_assoc. simpl. auto.
  - unfold bind at 1 2 3 4. unfold db_query at 1. unfold modify at 1.
    unfold commit at 1. unfold ret at 1. unfold bind at 1. unfold db_query at 1.
    simpl.
    set (u := User.mk (new_id (stored w)) DEFAULT_USER_ID "Default User"
                "default@openmemory.ai").
    fold (add_user_row u (stored w)).
    assert (Hu' : query_user DEFAULT_USER_ID (add_user_row u (stored w)) = Some u)
      by (apply query_user_added; auto).
    destruct (query_app (new_id (stored w)) DEFAULT_CLIENT_NAME
                (add_user_row u (stored w))) as [a|] eqn:Ha.
    + unfold bind, ret, close. simpl.
      do 2 eexists. exists [u], [].
      split; [reflexivity|]. simpl. rewrite app_nil_r.
      split; [exists u, a; auto|].
      do 9 (split; [auto|]).
      exists [db_commit]. simpl. rewrite <- !app_assoc. simpl. auto.
    + unfold bind, db_query, modify, commit, ret, close. simpl.
      do 2 eexists. exists [u], [App.mk (new_id (add_user_row u (stored w)))
                                   (User.id u) DEFAULT_CLIENT_NAME true].
      split; [reflexivity|]. simpl.
      split.
      { exists u. eexists. split.
        - exact Hu'.
        - apply (query_app_added _ _ (add_user_row u (stored w))); auto. }
      do 9 (split; [auto|]).
      exists [db_commit; db_commit]. simpl. rewrite <- !app_assoc. simpl. auto.
Qed.

(** X20: on a ledger that holds the default user and its default App,
    [create_default_user_and_app] writes nothing, commits nothing and logs
    nothing: it opens a session, makes its two queries and closes the
    session.  A second run at start-up adds no second user and no second
    App. *)
Theorem create_default_user_and_app_is_idempotent :
  forall w,
  has_defaults (stored w) ->
  create_default_user_and_app w =
  (inr [],
   mkWorld (stored w) (stored w) (calls w ++ [SessionLocal; db_close])
     (logged w) (ticks w)).
Proof.
  intros w (u & a & Hu & Ha). unfold create_default_user_and_app.
  unfold bind at 1. unfold open_session at 1. unfold try_finally.
  unfold bind at 1. unfold db_query at 1. simpl. rewrite Hu.
  unfold bind at 1. unfold ret at 1. unfold bind at 1. unfold db_query at 1.
  simpl. rewrite Ha.
  unfold bind, ret, close. simpl. rewrite <- app_assoc. reflexivity.
Qed.

(** ** add_memories: the row an ADD event leaves at the end of the call *)

(** A result for another id leaves the row of a memory as it is. *)
Lemma process_result_other_id : forall user app result memory_id w w',
  process_result user app result w = (inr tt, w') ->
  uuid_parse (AddResult.id result) <> Some memory_id ->
  find_memory memory_id (session w') = find_memory memory_id (session w).
Proof.
  intros user app result memory_id w w' H Hne. apply process_result_inv in H.
  destruct (uuid_parse (AddResult.id result)) as [other|];
    [|destruct H; discriminate].
  assert (Hne' : memory_id <> other) by congruence.
  destruct H as [_ H].
  destruct (find_memory other (session w)) eqn:Hf.
  - destruct H as [[_ ->]|[[_ ->]|[_ [_ ->]]]]; simpl;
      rewrite ?find_memory_add_history, ?find_memory_update_other
        by auto with ledger; reflexivity.
  - destruct H as [[_ ->]|[_ ->]]; simpl; [|reflexivity].
    rewrite find_memory_add_history, find_memory_add_memory. simpl.
    destruct (find_memory memory_id (session w)); [reflexivity|].
    destruct (N.eqb other memory_id) eqn:E; [|reflexivity].
    apply N.eqb_eq in E. congruence.
Qed.

Lemma for_each_other_ids : forall user app memory_id results w w',
  for_each results (process_result user app) w = (inr tt, w') ->
  Forall (fun r => uuid_parse (AddResult.id r) <> Some memory_id) results ->
  find_memory memory_id (session w') = find_memory memory_id (session w).
Proof.
  intros user app memory_id results.
  induction results as [|result rest IH]; intros w w' H Hall.
  - inversion H; subst. reflexivity.
  - simpl in H. unfold bind in H.
    destruct (process_result user app result w) as [[e|[]] w1] eqn:E; [discriminate|].
    inversion Hall; subst.
    rewrite (IH _ _ H) by assumption.
    eapply process_result_other_id; eauto.
Qed.

(** X21: in a call of [add_memories] whose ids are all well formed, an ADD
    event that no later result of the response follows for the same id
    decides the committed row: the call replies with the engine's response
    and commits, and the memory's row is then active with the text of the
    event; when no row of that id was held and no earlier result names the
    id, the row is new, owned by the resolved user and App, with no
    deletion time. *)
Theorem add_memories_commits_added_memory :
  forall memory_client text user_id client_name w db user app
         before result after memory_id,
  get_memory_client_safe = Some memory_client ->
  get_user_and_app (stored w) (or_default user_id DEFAULT_USER_ID)
    (or_default client_name DEFAULT_CLIENT_NAME) = inr (db, user, app) ->
  App.is_active app = true ->
  add memory_client text (or_default user_id DEFAULT_USER_ID)
    [("source_app", "openmemory");
     ("mcp_client", or_default client_name DEFAULT_CLIENT_NAME)] =
  inr (WithResults (before ++ result :: after)) ->
  Forall (fun r => uuid_parse (AddResult.id r) <> None) (before ++ result :: after) ->
  AddResult.event result = "ADD" ->
  uuid_parse (AddResult.id result) = Some memory_id ->
  Forall (fun r => uuid_parse (AddResult.id r) <> Some memory_id) after ->
  exists w' row,
    add_memories text user_id client_name w =
      (inr (ReplyAdd (WithResults (before ++ result :: after))), w') /\
    In db_commit (calls w') /\
    find_memory memory_id (stored w') = Some row /\
    Memory.state row = active /\
    Memory.content row = AddResult.memory result /\
    (find_memory memory_id db = None ->
     Forall (fun r => uuid_parse (AddResult.id r) <> Some memory_id) before ->
     Memory.user_id row = User.id user /\
     Memory.app_id row = App.id app /\
     Memory.deleted_at row = None).
Proof.
  intros memory_client text user_id client_name w db user app
         before result after memory_id
         Hclient Hresolve Hactive Hadd Hids Hev Hid Hafter.
  set (w0 := at_results_loop w db text (or_default user_id DEFAULT_USER_ID)
               (or_default client_name DEFAULT_CLIENT_NAME)).
  destruct (for_each_total user app _ w0 Hids) as [w3 Eall].
  pose proof Eall as Esplit. rewrite for_each_app in Esplit.
  destruct (for_each before (process_result user app) w0) as [[e|[]] w1] eqn:E1;
    [discriminate|].
  simpl in Esplit. unfold bind in Esplit.
  destruct (process_result user app result w1) as [[e|[]] w2] eqn:E2;
    [discriminate|].
  pose proof (for_each_other_ids _ _ _ _ _ _ Esplit Hafter) as Hkeep.
  exists (mkWorld (session w3) (session w3) (calls w3 ++ [db_commit; db_close])
            (logged w3) (ticks w3)).
  destruct (find_memory memory_id (session w1)) as [held|] eqn:Hheld.
  - rewrite (process_result_add_existing _ _ _ _ _ _ Hid Hev Hheld) in E2.
    inversion E2; subst w2. simpl in Hkeep.
    rewrite find_memory_add_history in Hkeep.
    rewrite !find_memory_update_same, Hheld in Hkeep by auto with ledger.
    simpl in Hkeep.
    eexists. split; [exact (add_memories_run _ _ _ _ _ _ _ _ _ _
                              Hclient Hresolve Hactive Hadd Eall)|].
    simpl. split; [rewrite in_app_iff; simpl; auto|].
    split; [exact Hkeep|]. split; [reflexivity|]. split; [reflexivity|].
    intros Hnone Hbefore.
    rewrite (for_each_other_ids _ _ _ _ _ _ E1 Hbefore) in Hheld.
    simpl in Hheld. congruence.
  - rewrite (process_result_add_new _ _ _ _ _ Hid Hev Hheld) in E2.
    inversion E2; subst w2. simpl in Hkeep.
    rewrite find_memory_add_history, find_memory_add_memory, Hheld in Hkeep.
    simpl in Hkeep. rewrite N.eqb_refl in Hkeep.
    eexists. split; [exact (add_memories_run _ _ _ _ _ _ _ _ _ _
                              Hclient Hresolve Hactive Hadd Eall)|].
    simpl. split; [rewrite in_app_iff; simpl; auto|].
    split; [exact Hkeep|]. repeat split; reflexivity.
Qed.

(** ** The accessible ids and the state of a memory *)

(** X22: the handlers' query for the accessible ids has no condition on
    the state of a memory, so leaving deleted memories out is up to the
    access predicate: the accessible ids are the ids of the user's active
    memories the predicate accepts exactly when the predicate accepts no
    memory of the user that is not active. *)
Theorem accessible_ids_are_active_iff_predicate_rejects_deleted :
  forall db user app,
  NoDup (map Memory.id (memories db)) ->
  (accessible_ids db user app = accessible_ids_of_active db user app <->
   forall memory,
     In memory (memories db) ->
     Memory.user_id memory = User.id user ->
     check_memory_access_permissions db memory (App.id app) = true ->
     Memory.state memory = active).
Proof.
  intros db user app Hdistinct. unfold accessible_ids, accessible_ids_of_active.
  split.
  - intros Heq memory Hin Huser Hcheck.
    assert (Hacc : In (Memory.id memory)
                     (map Memory.id
                        (filter (fun m => check_memory_access_permissions db m (App.id app))
                           (memories_of_user (User.id user) db)))).
    { apply in_map. apply filter_In. split; [|exact Hcheck].
      unfold memories_of_user. apply filter_In. split; [exact Hin|].
      now apply N.eqb_eq. }
    rewrite Heq in Hacc. apply in_map_iff in Hacc.
    destruct Hacc as [other [Hid Hother]].
    apply filter_In in Hother. destruct Hother as [Hother _].
    apply filter_In in Hother. destruct Hother as [Hother Hstate].
    unfold memories_of_user in Hother. apply filter_In in Hother.
    destruct Hother as [Hother _].
    assert (other = memory).
    { clear - Hdistinct Hin Hother Hid. revert Hdistinct Hin Hother.
      generalize (memories db). intros rows. induction rows as [|row rows IH];
        intros Hnd Hin Hother; [contradiction|].
      simpl in Hnd. inversion Hnd as [|? ? Hnot Hnd']; subst.
      destruct Hin as [->|Hin], Hother as [->|Hother]; auto.
      - exfalso. apply Hnot. rewrite <- Hid. now apply in_map.
      - exfalso. apply Hnot. rewrite Hid. now apply in_map. }
    subst other. destruct (Memory.state memory); [reflexivity | discriminate].
  - intros H. f_equal. symmetry. apply filter_implied.
    intros memory Hin Hcheck. unfold memories_of_user in Hin.
    apply filter_In in Hin. destruct Hin as [Hin Huser].
    apply N.eqb_eq in Huser. rewrite (H memory Hin Huser Hcheck). reflexivity.
Qed.

End Handlers.

(** ** The engine unavailable *)

(** C9: when [get_memory_client_safe] returns no client, each of the four
    handlers replies with the error "Memory system is currently unavailable.
    Please try again later." and leaves the world as it found it: no session
    is opened, no call is made to the resolver or the ledger, nothing is
    logged; this for every resolver, access predicate and ledger. *)
Theorem unavailable_engine_short_circuits :
  forall DEFAULT_USER_ID DEFAULT_CLIENT_NAME uuid_parse uuid_error uuid_str clock
         get_user_and_app check_memory_access_permissions
         text query user_id client_name w,
    add_memories DEFAULT_USER_ID DEFAULT_CLIENT_NAME uuid_parse uuid_error clock None
      get_user_and_app text user_id client_name w =
    (inr (ReplyError "Memory system is currently unavailable. Please try again later."),
     w) /\
    search_memory DEFAULT_USER_ID DEFAULT_CLIENT_NAME uuid_parse uuid_error uuid_str None
      get_user_and_app check_memory_access_permissions query user_id client_name w =
    (inr (ReplyError "Memory system is currently unavailable. Please try again later."),
     w) /\
    list_memories DEFAULT_USER_ID DEFAULT_CLIENT_NAME uuid_parse uuid_error None
      get_user_and_app check_memory_access_permissions user_id client_name w =
    (inr (ReplyError "Memory system is currently unavailable. Please try again later."),
     w) /\
    delete_all_memories DEFAULT_USER_ID DEFAULT_CLIENT_NAME uuid_str clock None
      get_user_and_app check_memory_access_permissions user_id client_name w =
    (inr (ReplyError "Memory system is currently unavailable. Please try again later."),
     w).
Proof.
  intros. unfold add_memories, search_memory, list_memories, delete_all_memories.
  unfold unavailable, ret. repeat split.
Qed.

(** ** The handlers on the scenario *)

(** The reference vector store honours its query filter. *)
Lemma store_honours_filter : forall add get_all delete embed name points,
  honours_filter
    (mkClient add get_all delete embed name (Reference.store_query_points points)).
Proof.
  intros add get_all delete embed name points collection q f limit found H.
  simpl in H. unfold Reference.store_query_points in H. inversion H; subst.
  apply Forall_forall. intros p Hin.
  assert (Hin' : In p (filter (passes f) points))
    by (rewrite <- (firstn_skipn limit); apply in_or_app; now left).
  apply filter_In in Hin'. tauto.
Qed.

Abbreviation run_add_memories :=
  (add_memories "default_user" "default_app" Reference.uuid_parse Reference.uuid_error Reference.clock
     (Some Scenario.engine) Reference.get_user_and_app).

Abbreviation run_search_memory :=
  (search_memory "default_user" "default_app" Reference.uuid_parse Reference.uuid_error Reference.uuid_str
     (Some Scenario.engine) Reference.get_user_and_app Reference.own_memories_only).

Abbreviation run_list_memories :=
  (list_memories "default_user" "default_app" Reference.uuid_parse Reference.uuid_error
     (Some Scenario.engine) Reference.get_user_and_app Reference.own_memories_only).

Abbreviation run_delete_all_memories :=
  (delete_all_memories "default_user" "default_app" Reference.uuid_str Reference.clock
     (Some Scenario.engine) Reference.get_user_and_app Reference.own_memories_only).

(** The paused client [archive] asks to add a memory. *)
Lemma add_memories_paused_app_witness :
  fst (run_add_memories "I prefer green tea now" (Some "alice") (Some "archive")
         Scenario.world) =
  inr (ReplyError
         "App archive is currently paused on OpenMemory. Cannot create new memories.") /\
  calls (snd (run_add_memories "I prefer green tea now" (Some "alice") (Some "archive")
                Scenario.world)) =
  [SessionLocal; resolve_user_and_app "alice" "archive"; db_close].
Proof.
  destruct (add_memories_paused_app "default_user" "default_app"
              Reference.uuid_parse Reference.uuid_error Reference.clock (Some Scenario.engine)
              Reference.get_user_and_app Scenario.engine
              "I prefer green tea now" (Some "alice") (Some "archive")
              Scenario.world Scenario.ledger Scenario.alice Scenario.archive
              eq_refl eq_refl eq_refl (conj eq_refl (conj eq_refl eq_refl)))
    as [w' [E [Hcalls _]]].
  rewrite E. split; [reflexivity | exact Hcalls].
Defined.

(** An ADD for a memory the ledger does not hold yet. *)
Lemma add_event_writes_active_row_witness :
  exists w' row,
    process_result Reference.uuid_parse Reference.uuid_error Reference.clock Scenario.alice Scenario.notes
      (AddResult.mk (Reference.uuid_str Scenario.new_id) "ADD" "Prefers green tea")
      Scenario.world = (inr tt, w') /\
    find_memory Scenario.new_id (session w') = Some row /\
    Memory.state row = active /\
    Memory.content row = "Prefers green tea".
Proof.
  destruct (add_event_writes_active_row Reference.uuid_parse Reference.uuid_error Reference.clock
              Scenario.alice Scenario.notes
              (AddResult.mk (Reference.uuid_str Scenario.new_id) "ADD"
                 "Prefers green tea")
              Scenario.new_id Scenario.world eq_refl eq_refl)
    as (w' & row & h & E & Hf & Hs & Hc & _).
  exists w', row. auto.
Defined.

(** C3 as stated fails: the old state of the history row is not the state
    the ledger held.  An ADD for the memory [tea], which the ledger holds in
    state active, writes a history row with old state deleted; an ADD for a
    memory the ledger does not hold writes a history row with old state
    deleted as well, where the claim asks for none. *)
Lemma add_event_old_state_counterexample :
  (exists w' h,
     process_result Reference.uuid_parse Reference.uuid_error Reference.clock Scenario.alice Scenario.notes
       (AddResult.mk (Reference.uuid_str Scenario.tea_id) "ADD" "I like black tea")
       Scenario.world = (inr tt, w') /\
     history (session w') = (history (session Scenario.world) ++ [h])%list /\
     prior_state Scenario.tea_id (session Scenario.world) = Some active /\
     MemoryStatusHistory.old_state h = Some deleted /\
     MemoryStatusHistory.old_state h <>
       prior_state Scenario.tea_id (session Scenario.world)) /\
  (exists w' h,
     process_result Reference.uuid_parse Reference.uuid_error Reference.clock Scenario.alice Scenario.notes
       (AddResult.mk (Reference.uuid_str Scenario.new_id) "ADD" "Prefers green tea")
       Scenario.world = (inr tt, w') /\
     history (session w') = (history (session Scenario.world) ++ [h])%list /\
     prior_state Scenario.new_id (session Scenario.world) = None /\
     MemoryStatusHistory.old_state h = Some deleted /\
     MemoryStatusHistory.old_state h <>
       prior_state Scenario.new_id (session Scenario.world)).
Proof.
  split; do 2 eexists; (split; [vm_compute; reflexivity|]);
    vm_compute; repeat split; discriminate.
Qed.

(** The engine answers an [add] of the client [notes] with the scenario's
    three results; the second deletes the memory [tea]. *)
Lemma delete_event_marks_row_deleted_witness :
  fst (run_add_memories "I prefer green tea now" (Some "alice") (Some "notes")
         Scenario.world) =
  inr (ReplyAdd (WithResults Scenario.results)) /\
  marked_deleted Scenario.tea_id
    (stored (snd (run_add_memories "I prefer green tea now" (Some "alice")
                    (Some "notes") Scenario.world))) /\
  In (MemoryStatusHistory.mk Scenario.tea_id 1%N (Some active) deleted)
     (history
        (stored (snd (run_add_memories "I prefer green tea now" (Some "alice")
                        (Some "notes") Scenario.world)))).
Proof.
  assert (Hids : Forall (fun r => Reference.uuid_parse (AddResult.id r) <> None)
                        Scenario.results)
    by (repeat constructor; vm_compute; discriminate).
  destruct (delete_event_marks_row_deleted "default_user" "default_app"
              Reference.uuid_parse Reference.uuid_error Reference.clock (Some Scenario.engine)
              Reference.get_user_and_app Scenario.engine
              "I prefer green tea now" (Some "alice") (Some "notes")
              Scenario.world Scenario.ledger Scenario.alice Scenario.notes
              [AddResult.mk (Reference.uuid_str Scenario.new_id) "ADD"
                 "Prefers green tea"]
              (AddResult.mk (Reference.uuid_str Scenario.tea_id) "DELETE" "I like tea")
              [AddResult.mk (Reference.uuid_str Scenario.unknown_id) "DELETE"
                 "I like milk"]
              Scenario.tea_id eq_refl eq_refl eq_refl eq_refl Hids eq_refl eq_refl)
    as (w1 & w2 & w' & row & _ & _ & _ & _ & _ & _ & E & Hin & _ & Hmarked).
  - vm_compute. discriminate.
  - rewrite E. split; [reflexivity|]. split; [|exact Hin].
    apply Hmarked. repeat constructor. intros [H _]. discriminate H.
Defined.

(** C4 as stated fails at the end of the call.  The ledger holds the
    memory [tea], active.  When the engine's response deletes [tea] and
    then adds it again, the call commits and the row of [tea] is active,
    not deleted.  When the response deletes [tea] and then has a result
    whose id is no UUID, the call replies with an error and commits
    nothing: the row of [tea] is active with no deletion time, and the
    history has no row for the deletion. *)
Lemma delete_event_undone_counterexample :
  find_memory Scenario.tea_id Scenario.ledger = Some Scenario.tea /\
  (exists w' row,
     add_memories "default_user" "default_app" Reference.uuid_parse
       Reference.uuid_error Reference.clock (Some Faults.readding_engine)
       Reference.get_user_and_app "I like black tea" (Some "alice") (Some "notes")
       Scenario.world =
     (inr (ReplyAdd (WithResults Faults.readd_results)), w') /\
     find_memory Scenario.tea_id (stored w') = Some row /\
     Memory.state row = active /\
     Memory.state row <> deleted) /\
  (exists w' row,
     add_memories "default_user" "default_app" Reference.uuid_parse
       Reference.uuid_error Reference.clock (Some Faults.cut_short_engine)
       Reference.get_user_and_app "I like black tea" (Some "alice") (Some "notes")
       Scenario.world =
     (inr (ReplyError
             "Error adding to memory: badly formed hexadecimal UUID string"), w') /\
     find_memory Scenario.tea_id (stored w') = Some row /\
     Memory.state row = active /\
     Memory.deleted_at row = None /\
     ~ In (MemoryStatusHistory.mk Scenario.tea_id 1%N (Some active) deleted)
          (history (stored w'))).
Proof.
  split; [reflexivity|]. split.
  - do 2 eexists. split; [vm_compute; reflexivity|].
    vm_compute. repeat split. discriminate.
  - do 2 eexists. split; [vm_compute; reflexivity|].
    vm_compute. repeat split.
    intros H. repeat (destruct H as [H|H]; [discriminate|]). exact H.
Qed.

(** The third of the scenario's results deletes a memory that has no row. *)
Lemma delete_event_without_row_is_skipped_witness :
  fst (run_add_memories "I prefer green tea now" (Some "alice") (Some "notes")
         Scenario.world) =
  inr (ReplyAdd (WithResults Scenario.results)) /\
  exists w1,
    process_result Reference.uuid_parse Reference.uuid_error Reference.clock Scenario.alice Scenario.notes
      (AddResult.mk (Reference.uuid_str Scenario.unknown_id) "DELETE" "I like milk")
      w1 = (inr tt, w1).
Proof.
  assert (Hids : Forall (fun r => Reference.uuid_parse (AddResult.id r) <> None)
                        Scenario.results)
    by (repeat constructor; vm_compute; discriminate).
  destruct (delete_event_without_row_is_skipped "default_user" "default_app"
              Reference.uuid_parse Reference.uuid_error Reference.clock (Some Scenario.engine)
              Reference.get_user_and_app Scenario.engine
              "I prefer green tea now" (Some "alice") (Some "notes")
              Scenario.world Scenario.ledger Scenario.alice Scenario.notes
              [AddResult.mk (Reference.uuid_str Scenario.new_id) "ADD"
                 "Prefers green tea";
               AddResult.mk (Reference.uuid_str Scenario.tea_id) "DELETE" "I like tea"]
              (AddResult.mk (Reference.uuid_str Scenario.unknown_id) "DELETE"
                 "I like milk")
              []
              Scenario.unknown_id eq_refl eq_refl eq_refl eq_refl Hids eq_refl eq_refl
              eq_refl)
    as (w1 & w3 & _ & Eskip & _ & E).
  rewrite E. split; [reflexivity|]. exists w1. exact Eskip.
Defined.

(** What a search for "tea" by the client [notes] returns. *)
Abbreviation found_for_tea :=
  (match fst (run_search_memory "tea" (Some "alice") (Some "notes") Scenario.world) with
   | inr (ReplySearch found) => found
   | _ => []
   end).

(** A search by the client [notes], whose accessible ids are those of the
    memories [tea] and [coffee]; the store also holds a stray point of the
    same user. *)
Lemma search_results_within_accessible_ids_witness :
  Forall (fun hit =>
            exists memory_id,
              In memory_id [Scenario.tea_id; Scenario.coffee_id] /\
              SearchHit.id hit = Reference.uuid_str memory_id)
         found_for_tea /\
  length found_for_tea = 2.
Proof.
  split; [|reflexivity].
  refine (proj2 (search_results_within_accessible_ids "default_user" "default_app"
              Reference.uuid_parse Reference.uuid_error Reference.uuid_str (Some Scenario.engine)
              Reference.get_user_and_app Reference.own_memories_only
              Scenario.engine "tea" (Some "alice") (Some "notes")
              Scenario.world Scenario.ledger Scenario.alice Scenario.notes
              found_for_tea
              (snd (run_search_memory "tea" (Some "alice") (Some "notes")
                      Scenario.world))
              eq_refl (store_honours_filter _ _ _ _ _ _) eq_refl _ _)).
  - vm_compute. discriminate.
  - vm_compute. reflexivity.
Defined.

Lemma search_hits_logged_once_witness :
  exists rows,
    access_logs
      (stored (snd (run_search_memory "tea" (Some "alice") (Some "notes")
                      Scenario.world))) = rows /\
    Forall2 (fun memory row =>
               MemoryAccessLog.access_type row = "search" /\
               dict_get "query" (MemoryAccessLog.metadata_ row) = Some (VStr "tea") /\
               dict_get "score" (MemoryAccessLog.metadata_ row) =
                 Some (VFloat (SearchHit.score memory)) /\
               Reference.uuid_parse (SearchHit.id memory) =
                 Some (MemoryAccessLog.memory_id row) /\
               MemoryAccessLog.app_id row = 2%N)
            found_for_tea rows.
Proof.
  destruct (search_hits_logged_once "default_user" "default_app"
              Reference.uuid_parse Reference.uuid_error Reference.uuid_str (Some Scenario.engine)
              Reference.get_user_and_app Reference.own_memories_only
              "tea" (Some "alice") (Some "notes")
              Scenario.world Scenario.ledger Scenario.alice Scenario.notes
              found_for_tea
              (snd (run_search_memory "tea" (Some "alice") (Some "notes")
                      Scenario.world))
              eq_refl)
    as (rows & Hlogs & Hrows & _).
  - vm_compute. reflexivity.
  - exists rows. split; [exact Hlogs | exact Hrows].
Defined.

(** What the client [notes] gets listed. *)
Abbreviation listed_for_notes :=
  (match fst (run_list_memories (Some "alice") (Some "notes") Scenario.world) with
   | inr (ReplyList filtered) => filtered
   | _ => []
   end).

(** The engine lists the memory [tea] and a stray one; the accessible ids
    are those of [tea] and [coffee]. *)
Lemma list_memories_within_accessible_ids_witness :
  Forall (fun memory =>
            exists memory_id,
              Reference.uuid_parse (EngineMemory.id memory) = Some memory_id /\
              In memory_id [Scenario.tea_id; Scenario.coffee_id])
         listed_for_notes /\
  length listed_for_notes <= 2.
Proof.
  destruct (list_memories_within_accessible_ids "default_user" "default_app"
              Reference.uuid_parse Reference.uuid_error (Some Scenario.engine)
              Reference.get_user_and_app Reference.own_memories_only
              Scenario.engine (Some "alice") (Some "notes")
              Scenario.world Scenario.ledger Scenario.alice Scenario.notes
              (DictResults [Scenario.entry Scenario.tea_id "I like tea";
                            Scenario.entry Scenario.stray_id "I like cocoa"])
              listed_for_notes
              (snd (run_list_memories (Some "alice") (Some "notes") Scenario.world))
              eq_refl eq_refl eq_refl)
    as (Hmember & _ & _ & Hcount).
  - vm_compute. reflexivity.
  - split; [exact Hmember|].
    apply Hcount. vm_compute. repeat constructor; simpl; intuition discriminate.
Defined.

(** C7 as stated fails: with an engine that lists the memory [tea] three
    times, [list_memories] returns three entries while the accessible ids
    are two, those of [tea] and [coffee]. *)
Lemma list_memories_more_entries_counterexample :
  exists filtered,
    fst (list_memories "default_user" "default_app" Reference.uuid_parse Reference.uuid_error
           (Some Scenario.echoing_engine) Reference.get_user_and_app
           Reference.own_memories_only (Some "alice") (Some "notes") Scenario.world) =
    inr (ReplyList filtered) /\
    accessible_ids Reference.own_memories_only Scenario.ledger Scenario.alice
      Scenario.notes = [Scenario.tea_id; Scenario.coffee_id] /\
    length filtered = 3 /\
    ~ length filtered <=
      length (accessible_ids Reference.own_memories_only Scenario.ledger
                Scenario.alice Scenario.notes).
Proof.
  eexists. split; [vm_compute; reflexivity|].
  split; [reflexivity|]. split; [reflexivity|].
  vm_compute. intros H. repeat (apply le_S_n in H). inversion H.
Qed.

(** The client [notes] deletes all its memories; the engine fails to delete
    the first one. *)
Lemma delete_all_marks_every_accessible_memory_witness :
  fst (run_delete_all_memories (Some "alice") (Some "notes") Scenario.world) =
  inr (ReplyMessage "Successfully deleted all memories") /\
  logged (snd (run_delete_all_memories (Some "alice") (Some "notes") Scenario.world)) =
  [mkLog WARNING
     "Failed to delete memory 00000000-0000-0000-0000-000000000010 from vector store: vector store unreachable"] /\
  Forall (fun memory_id =>
            exists row,
              find_memory memory_id
                (stored (snd (run_delete_all_memories (Some "alice") (Some "notes")
                                Scenario.world))) = Some row /\
              Memory.state row = deleted /\
              Memory.deleted_at row = Some 1000%N)
         [Scenario.tea_id; Scenario.coffee_id].
Proof.
  destruct (delete_all_marks_every_accessible_memory "default_user" "default_app"
              Reference.uuid_str Reference.clock (Some Scenario.engine)
              Reference.get_user_and_app Reference.own_memories_only
              Scenario.engine (Some "alice") (Some "notes")
              Scenario.world Scenario.ledger Scenario.alice Scenario.notes
              eq_refl eq_refl)
    as (w' & warnings & E & _ & _ & _ & Hrows & _).
  rewrite E. split; [reflexivity|]. split; [|exact Hrows].
  rewrite <- E. vm_compute. reflexivity.
Defined.



(** ** The invariants on the scenario *)

(** The reference resolver creates a missing User or App and leaves the
    memory tables alone. *)
Lemma reference_resolver_keeps_memory_tables :
  resolver_keeps_memory_tables Reference.get_user_and_app.
Proof.
  intros db user_id app_id db' user app H.
  unfold Reference.get_user_and_app in H.
  destruct (find (fun u => String.eqb (User.user_id u) user_id) (users db));
    simpl in H;
    match type of H with context [find ?p ?l] => destruct (find p l) end;
    inversion H; subst; simpl; auto.
Qed.

Lemma scenario_distinct_ids : distinct_ids Scenario.ledger.
Proof.
  unfold distinct_ids. simpl. repeat constructor; simpl.
  - intros [H|[]]. discriminate.
  - intros [].
Qed.

Lemma scenario_state_matches_history : state_matches_history Scenario.ledger.
Proof.
  intros memory_id row h Hrow Hh.
  unfold find_memory, latest_history in *. simpl in *.
  destruct memory_id as [|q]; [discriminate|].
  destruct (Pos.eqb_spec 16 q) as [Etea|Htea];
    destruct (Pos.eqb_spec 17 q) as [Ecoffee|Hcoffee];
    try discriminate; try (rewrite <- Etea in Ecoffee; discriminate);
    inversion Hrow; inversion Hh; reflexivity.
Qed.

(** The four handlers on the scenario, for the client [notes]. *)
Lemma handlers_keep_distinct_ids_witness :
  distinct_ids
    (stored (snd (run_add_memories "I prefer green tea now" (Some "alice")
                    (Some "notes") Scenario.world))) /\
  distinct_ids
    (stored (snd (run_search_memory "tea" (Some "alice") (Some "notes")
                    Scenario.world))) /\
  distinct_ids
    (stored (snd (run_list_memories (Some "alice") (Some "notes") Scenario.world))) /\
  distinct_ids
    (stored (snd (run_delete_all_memories (Some "alice") (Some "notes")
                    Scenario.world))).
Proof.
  exact (handlers_keep_distinct_ids "default_user" "default_app"
           Reference.uuid_parse Reference.uuid_error Reference.uuid_str Reference.clock
           (Some Scenario.engine) Reference.get_user_and_app
           Reference.own_memories_only reference_resolver_keeps_memory_tables
           "I prefer green tea now" "tea" (Some "alice") (Some "notes")
           Scenario.world scenario_distinct_ids).
Defined.

Lemma handlers_keep_state_matching_history_witness :
  state_matches_history
    (stored (snd (run_add_memories "I prefer green tea now" (Some "alice")
                    (Some "notes") Scenario.world))) /\
  state_matches_history
    (stored (snd (run_search_memory "tea" (Some "alice") (Some "notes")
                    Scenario.world))) /\
  state_matches_history
    (stored (snd (run_list_memories (Some "alice") (Some "notes") Scenario.world))) /\
  state_matches_history
    (stored (snd (run_delete_all_memories (Some "alice") (Some "notes")
                    Scenario.world))).
Proof.
  exact (handlers_keep_state_matching_history "default_user" "default_app"
           Reference.uuid_parse Reference.uuid_error Reference.uuid_str Reference.clock
           (Some Scenario.engine) Reference.get_user_and_app
           Reference.own_memories_only reference_resolver_keeps_memory_tables
           "I prefer green tea now" "tea" (Some "alice") (Some "notes")
           Scenario.world scenario_state_matches_history).
Defined.

Lemma handlers_only_grow_the_ledger_witness :
  grown_from Scenario.ledger
    (stored (snd (run_add_memories "I prefer green tea now" (Some "alice")
                    (Some "notes") Scenario.world))) /\
  grown_from Scenario.ledger
    (stored (snd (run_search_memory "tea" (Some "alice") (Some "notes")
                    Scenario.world))) /\
  grown_from Scenario.ledger
    (stored (snd (run_list_memories (Some "alice") (Some "notes") Scenario.world))) /\
  grown_from Scenario.ledger
    (stored (snd (run_delete_all_memories (Some "alice") (Some "notes")
                    Scenario.world))).
Proof.
  exact (handlers_only_grow_the_ledger "default_user" "default_app"
           Reference.uuid_parse Reference.uuid_error Reference.uuid_str Reference.clock
           (Some Scenario.engine) Reference.get_user_and_app
           Reference.own_memories_only reference_resolver_keeps_memory_tables
           "I prefer green tea now" "tea" (Some "alice") (Some "notes")
           Scenario.world).
Defined.

(** ** The faults on the scenario *)

Abbreviation add_memories_with engine :=
  (add_memories "default_user" "default_app" Reference.uuid_parse Reference.uuid_error Reference.clock
     (Some engine) Reference.get_user_and_app).

Abbreviation search_memory_with engine :=
  (search_memory "default_user" "default_app" Reference.uuid_parse Reference.uuid_error Reference.uuid_str
     (Some engine) Reference.get_user_and_app Reference.own_memories_only).

Abbreviation list_memories_with engine :=
  (list_memories "default_user" "default_app" Reference.uuid_parse Reference.uuid_error
     (Some engine) Reference.get_user_and_app Reference.own_memories_only).

(** The engine answers with a new memory and then a result whose id is
    "not-a-uuid": the new memory is not committed.  Another engine answers
    with an id of 32 letters z: the reply carries the message of [int]. *)
Lemma add_memories_malformed_id_commits_nothing_witness :
  (exists w',
     add_memories_with Faults.garbling_engine "I prefer green tea now"
       (Some "alice") (Some "notes") Scenario.world =
     (inr (ReplyError
             "Error adding to memory: badly formed hexadecimal UUID string"), w') /\
     stored w' = Scenario.ledger /\
     find_memory Scenario.new_id (stored w') = None) /\
  (exists w',
     add_memories_with Faults.unreadable_engine "I prefer green tea now"
       (Some "alice") (Some "notes") Scenario.world =
     (inr (ReplyError
             ("Error adding to memory: invalid literal for int() with base 16: " ++
              "'zzzzzzzzzzzzzzzzzzzzzzzzzzzzzzzz'")), w') /\
     stored w' = Scenario.ledger).
Proof.
  assert (Hbefore : Forall (fun r => Reference.uuid_parse (AddResult.id r) <> None)
                      [AddResult.mk (Reference.uuid_str Scenario.new_id) "ADD"
                         "Prefers green tea"])
    by (repeat constructor; vm_compute; discriminate).
  split.
  - destruct (add_memories_malformed_id_commits_nothing "default_user" "default_app"
                Reference.uuid_parse Reference.uuid_error Reference.clock
                (Some Faults.garbling_engine)
                Reference.get_user_and_app Faults.garbling_engine
                "I prefer green tea now" (Some "alice") (Some "notes")
                Scenario.world Scenario.ledger Scenario.alice Scenario.notes
                [AddResult.mk (Reference.uuid_str Scenario.new_id) "ADD"
                   "Prefers green tea"]
                (AddResult.mk "not-a-uuid" "ADD" "Prefers oolong") []
                eq_refl eq_refl eq_refl eq_refl Hbefore eq_refl)
      as [w' [E [Hs _]]].
    exists w'. split; [exact E|]. split; [exact Hs|]. rewrite Hs. reflexivity.
  - destruct (add_memories_malformed_id_commits_nothing "default_user" "default_app"
                Reference.uuid_parse Reference.uuid_error Reference.clock
                (Some Faults.unreadable_engine)
                Reference.get_user_and_app Faults.unreadable_engine
                "I prefer green tea now" (Some "alice") (Some "notes")
                Scenario.world Scenario.ledger Scenario.alice Scenario.notes
                [] (AddResult.mk "zzzzzzzzzzzzzzzzzzzzzzzzzzzzzzzz" "ADD"
                      "Prefers oolong") []
                eq_refl eq_refl eq_refl eq_refl (Forall_nil _) eq_refl)
      as [w' [E [Hs _]]].
    exists w'. split; [exact E | exact Hs].
Defined.

(** The engine cannot be reached when the client [notes] adds a memory. *)
Lemma add_memories_engine_failure_witness :
  add_memories_with Faults.down_engine "I prefer green tea now"
    (Some "alice") (Some "notes") Scenario.world =
  (inr (ReplyError "Error adding to memory: engine unreachable"),
   mkWorld Scenario.ledger Scenario.ledger
     [SessionLocal; resolve_user_and_app "alice" "notes";
      client_add "I prefer green tea now" "alice"
        [("source_app", "openmemory"); ("mcp_client", "notes")];
      db_close]
     [mkLog ERROR "Error adding to memory: engine unreachable"] 0).
Proof.
  exact (add_memories_engine_failure "default_user" "default_app"
           Reference.uuid_parse Reference.uuid_error Reference.clock (Some Faults.down_engine)
           Reference.get_user_and_app Faults.down_engine
           "I prefer green tea now" (Some "alice") (Some "notes")
           Scenario.world Scenario.ledger Scenario.alice Scenario.notes
           (Raise "engine unreachable") eq_refl eq_refl eq_refl eq_refl).
Defined.

(** The engine answers [null]. *)
Lemma add_memories_response_without_results_witness :
  add_memories_with Faults.terse_engine "I prefer green tea now"
    (Some "alice") (Some "notes") Scenario.world =
  (inr (ReplyAdd (OtherResponse "null")),
   mkWorld Scenario.ledger Scenario.ledger
     [SessionLocal; resolve_user_and_app "alice" "notes";
      client_add "I prefer green tea now" "alice"
        [("source_app", "openmemory"); ("mcp_client", "notes")];
      db_close]
     [] 0).
Proof.
  exact (add_memories_response_without_results "default_user" "default_app"
           Reference.uuid_parse Reference.uuid_error Reference.clock (Some Faults.terse_engine)
           Reference.get_user_and_app Faults.terse_engine
           "I prefer green tea now" (Some "alice") (Some "notes")
           Scenario.world Scenario.ledger Scenario.alice Scenario.notes
           "null" eq_refl eq_refl eq_refl eq_refl).
Defined.

(** The ledger cannot be reached: each handler stops after the resolver. *)
Lemma resolver_failure_stops_every_handler_witness :
  fst (add_memories "default_user" "default_app" Reference.uuid_parse Reference.uuid_error
         Reference.clock (Some Scenario.engine) Faults.locked_resolver
         "I prefer green tea now" (Some "alice") (Some "notes") Scenario.world) =
  inr (ReplyError "Error adding to memory: database is locked") /\
  fst (search_memory "default_user" "default_app" Reference.uuid_parse Reference.uuid_error
         Reference.uuid_str (Some Scenario.engine) Faults.locked_resolver
         Reference.own_memories_only "tea" (Some "alice") (Some "notes")
         Scenario.world) =
  inr (ReplyError "Error searching memory: database is locked") /\
  fst (list_memories "default_user" "default_app" Reference.uuid_parse Reference.uuid_error
         (Some Scenario.engine) Faults.locked_resolver
         Reference.own_memories_only (Some "alice") (Some "notes")
         Scenario.world) =
  inr (ReplyError "Error getting memories: database is locked") /\
  snd (delete_all_memories "default_user" "default_app" Reference.uuid_str
         Reference.clock (Some Scenario.engine) Faults.locked_resolver
         Reference.own_memories_only (Some "alice") (Some "notes")
         Scenario.world) =
  mkWorld Scenario.ledger Scenario.ledger
    [SessionLocal; resolve_user_and_app "alice" "notes"; db_close]
    [mkLog ERROR "Error deleting memories: database is locked"] 0.
Proof.
  destruct (resolver_failure_stops_every_handler "default_user" "default_app"
              Reference.uuid_parse Reference.uuid_error Reference.uuid_str Reference.clock
              (Some Scenario.engine) Faults.locked_resolver
              Reference.own_memories_only Scenario.engine
              "I prefer green tea now" "tea" (Some "alice") (Some "notes")
              Scenario.world (Raise "database is locked") eq_refl eq_refl)
    as (Ha & Hs & Hl & Hd).
  rewrite Ha, Hs, Hl, Hd. repeat split.
Defined.

(** The engine answers with an UPDATE of [tea] and a NONE for [coffee]. *)
Lemma add_memories_other_events_change_nothing_witness :
  add_memories_with Faults.updating_engine "I like green tea"
    (Some "alice") (Some "notes") Scenario.world =
  (inr (ReplyAdd (WithResults Faults.update_results)),
   mkWorld Scenario.ledger Scenario.ledger
     [SessionLocal; resolve_user_and_app "alice" "notes";
      client_add "I like green tea" "alice"
        [("source_app", "openmemory"); ("mcp_client", "notes")];
      db_commit; db_close]
     [] 0).
Proof.
  assert (Hother : Forall (fun r => Reference.uuid_parse (AddResult.id r) <> None /\
                                    other_event r)
                          Faults.update_results)
    by (repeat constructor; vm_compute; discriminate).
  exact (add_memories_other_events_change_nothing "default_user" "default_app"
           Reference.uuid_parse Reference.uuid_error Reference.clock (Some Faults.updating_engine)
           Reference.get_user_and_app Faults.updating_engine
           "I like green tea" (Some "alice") (Some "notes")
           Scenario.world Scenario.ledger Scenario.alice Scenario.notes
           Faults.update_results eq_refl eq_refl eq_refl eq_refl Hother).
Defined.

(** The user [bob], through the client [diary], receives an ADD for the
    id of [coffee], a deleted memory of [alice]: the row turns active and
    stays with [alice], its old deletion time still set. *)
Lemma add_event_keeps_owner_and_deletion_time_witness :
  exists w' row',
    process_result Reference.uuid_parse Reference.uuid_error Reference.clock Faults.bob Faults.diary
      (AddResult.mk (Reference.uuid_str Scenario.coffee_id) "ADD" "I like juice")
      Scenario.world = (inr tt, w') /\
    find_memory Scenario.coffee_id (session w') = Some row' /\
    Memory.user_id row' = User.id Scenario.alice /\
    Memory.app_id row' = App.id Scenario.notes /\
    Memory.deleted_at row' = Some 500%N.
Proof.
  destruct (add_event_keeps_owner_and_deletion_time Reference.uuid_parse Reference.uuid_error
              Reference.clock Faults.bob Faults.diary
              (AddResult.mk (Reference.uuid_str Scenario.coffee_id) "ADD"
                 "I like juice")
              Scenario.coffee_id Scenario.world Scenario.coffee
              eq_refl eq_refl eq_refl)
    as (w' & row' & E & Hf & _ & Hu & Ha & Hd & _).
  exists w', row'. auto.
Defined.

(** The client [notes] searches: the store answers with the points of
    [tea] and [coffee], and both come back. *)
Lemma search_memory_returns_every_hit_witness :
  exists memories w',
    run_search_memory "tea" (Some "alice") (Some "notes") Scenario.world =
      (inr (ReplySearch memories), w') /\
    map SearchHit.memory memories = ["I like tea"; "I like coffee"] /\
    length (access_logs (stored w')) = 2.
Proof.
  assert (Husable : Forall (usable_point Reference.uuid_parse)
                      [Scenario.point Scenario.tea_id "I like tea" 0.75%float;
                       Scenario.point Scenario.coffee_id "I like coffee" 0.25%float])
    by (repeat constructor; vm_compute; discriminate).
  destruct (search_memory_returns_every_hit "default_user" "default_app"
              Reference.uuid_parse Reference.uuid_error Reference.uuid_str (Some Scenario.engine)
              Reference.get_user_and_app Reference.own_memories_only
              Scenario.engine "tea" (Some "alice") (Some "notes")
              Scenario.world Scenario.ledger Scenario.alice Scenario.notes
              [0.5%float; 0.25%float] _ eq_refl eq_refl eq_refl eq_refl Husable)
    as (memories & rows & E & Hhits & Hlen).
  exists memories. eexists. split; [exact E|]. split.
  - inversion Hhits as [|p1 m1 ps1 ms1 (_ & H1 & _) Hrest]; subst.
    inversion Hrest as [|p2 m2 ps2 ms2 (_ & H2 & _) Hnil]; subst.
    inversion Hnil; subst.
    simpl in H1, H2. simpl. injection H1 as <-. injection H2 as <-.
    reflexivity.
  - simpl. unfold add_access_log_rows. simpl. exact Hlen.
Defined.

(** The paused client [archive] has no accessible memory: its search is
    answered with every point of [alice], the stray one included. *)
Lemma search_memory_without_accessible_ids_is_unrestricted_witness :
  exists memories w',
    run_search_memory "tea" (Some "alice") (Some "archive") Scenario.world =
      (inr (ReplySearch memories), w') /\
    map SearchHit.id memories =
      map Reference.uuid_str [Scenario.tea_id; Scenario.stray_id; Scenario.coffee_id] /\
    length (access_logs (stored w')) = 3.
Proof.
  assert (Husable : Forall (usable_point Reference.uuid_parse) Scenario.points)
    by (repeat constructor; vm_compute; discriminate).
  destruct (search_memory_without_accessible_ids_is_unrestricted
              "default_user" "default_app"
              Reference.uuid_parse Reference.uuid_error Reference.uuid_str (Some Scenario.engine)
              Reference.get_user_and_app Reference.own_memories_only
              Scenario.engine "tea" (Some "alice") (Some "archive")
              Scenario.world Scenario.ledger Scenario.alice Scenario.archive
              [0.5%float; 0.25%float] Scenario.points
              eq_refl eq_refl eq_refl eq_refl eq_refl Husable)
    as (memories & w' & E & Hids & _ & Hlen).
  exists memories, w'. split; [exact E|]. split; [exact Hids | exact Hlen].
Defined.

(** The store holds a point for [coffee] without its text. *)
Lemma search_memory_point_without_text_fails_witness :
  search_memory_with (Faults.with_points Faults.bare_points) "tea"
    (Some "alice") (Some "notes") Scenario.world =
  (inr (ReplyError "Error searching memory: 'data'"),
   mkWorld Scenario.ledger Scenario.ledger
     [SessionLocal; resolve_user_and_app "alice" "notes";
      embedding_embed "tea" "search";
      client_query_points "openmemory" [0.5%float; 0.25%float]
        (mkFilter [FieldCondition "user_id" "alice";
                   HasIdCondition
                     (map Reference.uuid_str [Scenario.tea_id; Scenario.coffee_id])])
        10;
      db_close]
     [mkLog ERROR "Error searching memory: 'data'"] 0).
Proof.
  assert (Hmissing : Exists (fun p => dict_get "data" (ScoredPoint.payload p) = None)
                       Faults.bare_points)
    by (right; left; reflexivity).
  exact (search_memory_point_without_text_fails "default_user" "default_app"
           Reference.uuid_parse Reference.uuid_error Reference.uuid_str
           (Some (Faults.with_points Faults.bare_points))
           Reference.get_user_and_app Reference.own_memories_only
           (Faults.with_points Faults.bare_points) "tea" (Some "alice") (Some "notes")
           Scenario.world Scenario.ledger Scenario.alice Scenario.notes
           [0.5%float; 0.25%float] Faults.bare_points
           eq_refl eq_refl eq_refl eq_refl Hmissing).
Defined.

(** The store holds a point with the id "42" after the point of [tea];
    the client [archive] searches without an id condition. *)
Lemma search_memory_malformed_point_id_commits_nothing_witness :
  fst (search_memory_with (Faults.with_points Faults.odd_points) "tea"
         (Some "alice") (Some "archive") Scenario.world) =
  inr (ReplyError "Error searching memory: badly formed hexadecimal UUID string") /\
  stored (snd (search_memory_with (Faults.with_points Faults.odd_points) "tea"
                 (Some "alice") (Some "archive") Scenario.world)) =
  Scenario.ledger.
Proof.
  assert (Hdata : Forall (fun p => dict_get "data" (ScoredPoint.payload p) <> None)
                    Faults.odd_points)
    by (repeat constructor; vm_compute; discriminate).
  assert (Hbefore : Forall (fun p => Reference.uuid_parse (ScoredPoint.id p) <> None)
                      [Scenario.point Scenario.tea_id "I like tea" 0.75%float])
    by (repeat constructor; vm_compute; discriminate).
  rewrite (search_memory_malformed_point_id_commits_nothing
             "default_user" "default_app"
             Reference.uuid_parse Reference.uuid_error Reference.uuid_str
             (Some (Faults.with_points Faults.odd_points))
             Reference.get_user_and_app Reference.own_memories_only
             (Faults.with_points Faults.odd_points) "tea"
             (Some "alice") (Some "archive")
             Scenario.world Scenario.ledger Scenario.alice Scenario.archive
             [0.5%float; 0.25%float]
             [Scenario.point Scenario.tea_id "I like tea" 0.75%float]
             (ScoredPoint.mk "42" [("data", "I like cocoa"); ("user_id", "alice")]
                0.5%float) []
             eq_refl eq_refl eq_refl eq_refl Hdata Hbefore eq_refl).
  split; reflexivity.
Defined.

(** The client [notes] lists: the engine has [tea] and a stray memory, and
    [tea] alone is accessible. *)
Lemma list_memories_returns_accessible_entries_witness :
  run_list_memories (Some "alice") (Some "notes") Scenario.world =
  (inr (ReplyList [Scenario.entry Scenario.tea_id "I like tea"]),
   let db' :=
     add_access_log_row
       (MemoryAccessLog.mk Scenario.tea_id 2%N "list"
          [("hash", VStr "h-I like tea")])
       Scenario.ledger in
   mkWorld db' db'
     [SessionLocal; resolve_user_and_app "alice" "notes"; client_get_all "alice";
      db_commit; db_close]
     [] 0).
Proof.
  assert (Hids : Forall (fun memory =>
                           Reference.uuid_parse (EngineMemory.id memory) <> None)
                   [Scenario.entry Scenario.tea_id "I like tea";
                    Scenario.entry Scenario.stray_id "I like cocoa"])
    by (repeat constructor; vm_compute; discriminate).
  rewrite (list_memories_returns_accessible_entries "default_user" "default_app"
             Reference.uuid_parse Reference.uuid_error (Some Scenario.engine)
             Reference.get_user_and_app Reference.own_memories_only
             Scenario.engine (Some "alice") (Some "notes")
             Scenario.world Scenario.ledger Scenario.alice Scenario.notes
             _ eq_refl eq_refl eq_refl Hids).
  vm_compute. reflexivity.
Defined.

(** The engine lists [tea] and then an entry with the id "n/a". *)
Lemma list_memories_malformed_id_commits_nothing_witness :
  list_memories_with Faults.garbled_listing (Some "alice") (Some "notes")
    Scenario.world =
  (inr (ReplyError "Error getting memories: badly formed hexadecimal UUID string"),
   mkWorld Scenario.ledger Scenario.ledger
     [SessionLocal; resolve_user_and_app "alice" "notes"; client_get_all "alice";
      db_close]
     [mkLog ERROR "Error getting memories: badly formed hexadecimal UUID string"]
     0).
Proof.
  assert (Hbefore : Forall (fun memory =>
                              Reference.uuid_parse (EngineMemory.id memory) <> None)
                      [Scenario.entry Scenario.tea_id "I like tea"])
    by (repeat constructor; vm_compute; discriminate).
  exact (list_memories_malformed_id_commits_nothing "default_user" "default_app"
           Reference.uuid_parse Reference.uuid_error (Some Faults.garbled_listing)
           Reference.get_user_and_app Reference.own_memories_only
           Faults.garbled_listing (Some "alice") (Some "notes")
           Scenario.world Scenario.ledger Scenario.alice Scenario.notes
           (PlainList [Scenario.entry Scenario.tea_id "I like tea";
                       EngineMemory.mk "n/a" None "I like cocoa"])
           [Scenario.entry Scenario.tea_id "I like tea"]
           (EngineMemory.mk "n/a" None "I like cocoa") []
           eq_refl eq_refl eq_refl eq_refl Hbefore eq_refl).
Defined.

(** [alice] deletes all through [notes] on a ledger that also holds a
    memory of [bob]: that memory stays, and no row is gone. *)
Lemma delete_all_memories_keeps_rows_witness :
  exists w',
    run_delete_all_memories (Some "alice") (Some "notes") Faults.shared_world =
      (inr (ReplyMessage "Successfully deleted all memories"), w') /\
    find_memory Faults.bobs_id (stored w') = Some Faults.bobs_memory /\
    length (memories (stored w')) = 3.
Proof.
  destruct (delete_all_memories_keeps_rows "default_user" "default_app"
              Reference.uuid_str Reference.clock (Some Scenario.engine)
              Reference.get_user_and_app Reference.own_memories_only
              Scenario.engine (Some "alice") (Some "notes")
              Faults.shared_world Faults.shared_ledger Scenario.alice
              Scenario.notes eq_refl eq_refl)
    as (w' & E & (_ & _ & Hrows) & Hother).
  exists w'. split; [exact E|]. split.
  - rewrite (Hother Faults.bobs_id); [reflexivity|].
    simpl. intros [H|[H|[]]]; discriminate.
  - rewrite <- (Forall2_length Hrows). reflexivity.
Defined.

(** The paused client [archive] deletes all: it has nothing to delete. *)
Lemma delete_all_memories_without_accessible_ids_witness :
  run_delete_all_memories (Some "alice") (Some "archive") Scenario.world =
  (inr (ReplyMessage "Successfully deleted all memories"),
   mkWorld Scenario.ledger Scenario.ledger
     [SessionLocal; resolve_user_and_app "alice" "archive"; db_commit; db_close]
     [] 1).
Proof.
  exact (delete_all_memories_without_accessible_ids "default_user" "default_app"
           Reference.uuid_str Reference.clock (Some Scenario.engine)
           Reference.get_user_and_app Reference.own_memories_only
           Scenario.engine (Some "alice") (Some "archive")
           Scenario.world Scenario.ledger Scenario.alice Scenario.archive
           eq_refl eq_refl eq_refl).
Defined.

(** With [alice] as the default user and [notes] as the default client,
    the scenario's ledger has its defaults. *)
Lemma create_default_user_and_app_is_idempotent_witness :
  create_default_user_and_app "alice" "notes" Reference.fresh_id Scenario.world =
  (inr [],
   mkWorld Scenario.ledger Scenario.ledger [SessionLocal; db_close] [] 0).
Proof.
  exact (create_default_user_and_app_is_idempotent "alice" "notes"
           Reference.fresh_id Scenario.world
           (ex_intro _ Scenario.alice
              (ex_intro _ Scenario.notes (conj eq_refl eq_refl)))).
Defined.

(** The first result of the scenario's engine adds a new memory, and the
    two results after it are for other ids. *)
Lemma add_memories_commits_added_memory_witness :
  exists w' row,
    run_add_memories "I prefer green tea now" (Some "alice") (Some "notes")
      Scenario.world = (inr (ReplyAdd (WithResults Scenario.results)), w') /\
    find_memory Scenario.new_id (stored w') = Some row /\
    Memory.state row = active /\
    Memory.content row = "Prefers green tea" /\
    Memory.user_id row = 1%N /\ Memory.app_id row = 2%N /\
    Memory.deleted_at row = None.
Proof.
  assert (Hids : Forall (fun r => Reference.uuid_parse (AddResult.id r) <> None)
                        Scenario.results)
    by (repeat constructor; vm_compute; discriminate).
  assert (Hafter : Forall (fun r => Reference.uuid_parse (AddResult.id r) <>
                                    Some Scenario.new_id)
                     [AddResult.mk (Reference.uuid_str Scenario.tea_id) "DELETE"
                        "I like tea";
                      AddResult.mk (Reference.uuid_str Scenario.unknown_id) "DELETE"
                        "I like milk"])
    by (repeat constructor; vm_compute; discriminate).
  destruct (add_memories_commits_added_memory "default_user" "default_app"
              Reference.uuid_parse Reference.uuid_error Reference.clock (Some Scenario.engine)
              Reference.get_user_and_app Scenario.engine
              "I prefer green tea now" (Some "alice") (Some "notes")
              Scenario.world Scenario.ledger Scenario.alice Scenario.notes
              [] _ _ Scenario.new_id
              eq_refl eq_refl eq_refl eq_refl Hids eq_refl eq_refl Hafter)
    as (w' & row & E & _ & Hf & Hs & Hc & Hnew).
  destruct (Hnew eq_refl (Forall_nil _)) as (Hu & Ha & Hd).
  exists w', row. auto 10.
Defined.

(** In the scenario the access policy accepts [coffee], a deleted memory:
    the accessible ids of [notes] are not those of the active memories. *)
Lemma accessible_ids_are_active_iff_predicate_rejects_deleted_witness :
  accessible_ids Reference.own_memories_only Scenario.ledger Scenario.alice
    Scenario.notes <>
  accessible_ids_of_active Reference.own_memories_only Scenario.ledger
    Scenario.alice Scenario.notes /\
  exists memory,
    In memory (memories Scenario.ledger) /\
    Reference.own_memories_only Scenario.ledger memory (App.id Scenario.notes) = true /\
    Memory.state memory = deleted.
Proof.
  split.
  - intros Heq.
    pose proof (proj1 (accessible_ids_are_active_iff_predicate_rejects_deleted
                         Reference.own_memories_only Scenario.ledger
                         Scenario.alice Scenario.notes scenario_distinct_ids)
                  Heq Scenario.coffee (or_intror (or_introl eq_refl))
                  eq_refl eq_refl) as H.
    discriminate H.
  - exists Scenario.coffee. simpl. auto.
Defined.
